(** * bsv-anchors: commitment store, append-only Merkle tree, anchoring

    A shallow embedding of the TypeScript sources
      - [src/merkle/tree.ts]        (hashing, MerkleTree, canonicalization)
      - [src/store/database.ts]     (the SQLite layer, as tables with constraints)
      - [src/store/anchor-store.ts] (AnchorStore)
      - [src/p2p/protocol.ts], [src/p2p/handler.ts] (proof requests, rate limit)
      - [src/wallet/integration.ts] (the anchor payload parser, the wallet's answers)
    followed by the properties proved about them.

    Conventions.  A JavaScript [number] holding an index, a count or a
    timestamp is a [Z]; a JavaScript string is a [string]; [T | null] and
    [T | undefined] are [option T]; a method that can throw returns an
    [option] (or a pair of the mutated state and an [option]) where [None]
    is the exception; a [Uint8Array] is a [list byte]. *)

From Stdlib Require Import ZArith NArith Lia List.
From Stdlib.Strings Require Import Ascii String Byte.
From Stdlib Require Import DecimalString.
From stdpp Require Import gmap strings list sorting.

Local Open Scope string_scope.
Local Open Scope Z_scope.

(* ===================================================================== *)
(** * Part I: definitions                                                *)
(* ===================================================================== *)

(** ** Bytes and hexadecimal text ([@noble/hashes/utils]) *)

Module Hex.

Definition byte_of_Z (z : Z) : byte :=
  match Byte.of_N (Z.to_N (z mod 256)) with
  | Some b => b
  | None => x00
  end.

Definition Z_of_byte (b : byte) : Z := Z.of_N (Byte.to_N b).

(** One hexadecimal digit, lower case, as [bytesToHex] prints it. *)
Definition hexDigit (n : Z) : ascii :=
  if n <? 10 then ascii_of_N (Z.to_N (48 + n)) else ascii_of_N (Z.to_N (87 + n)).

Fixpoint bytesToHex (bs : list byte) : string :=
  match bs with
  | [] => EmptyString
  | b :: rest =>
      String (hexDigit (Z_of_byte b / 16))
        (String (hexDigit (Z_of_byte b mod 16)) (bytesToHex rest))
  end.

(** [asciiToBase16]: the value of a digit [0-9], [A-F] or [a-f]. *)
Definition asciiToBase16 (c : ascii) : option Z :=
  let ch := Z.of_N (N_of_ascii c) in
  if (48 <=? ch) && (ch <=? 57) then Some (ch - 48)
  else if (65 <=? ch) && (ch <=? 70) then Some (ch - 55)
  else if (97 <=? ch) && (ch <=? 102) then Some (ch - 87)
  else None.

(** [hexToBytes] throws ([None]) on a string of odd length or on a
    character that is not a hexadecimal digit. *)
Fixpoint hexToBytes (hex : string) : option (list byte) :=
  match hex with
  | EmptyString => Some []
  | String _ EmptyString => None
  | String c1 (String c2 rest) =>
      match asciiToBase16 c1, asciiToBase16 c2, hexToBytes rest with
      | Some n1, Some n2, Some bs => Some (byte_of_Z (n1 * 16 + n2) :: bs)
      | _, _, _ => None
      end
  end.

(** [new TextEncoder().encode(s)]: the strings of this development are
    byte strings, read as the UTF-8 encoding of the JavaScript string. *)
Definition utf8 (s : string) : list byte := list_byte_of_string s.

(** The [n] low bytes of [x], most significant first. *)
Definition be_bytes (n : nat) (x : Z) : list byte :=
  map (fun i => byte_of_Z (Z.shiftr x (8 * Z.of_nat (n - 1 - i)))) (seq 0 n).

(** [new DataView(buf).setUint32(0, x, false)]: [x] modulo 2^32, big-endian. *)
Definition setUint32BE (x : Z) : list byte := be_bytes 4 (x mod 2 ^ 32).

(** A JavaScript string is truthy when it is not empty. *)
Definition truthy (s : string) : bool :=
  match s with EmptyString => false | _ => true end.

End Hex.

(** ** SHA-256 ([@noble/hashes/sha256]), after FIPS 180-4 *)

Module Sha256.

Definition w32 (x : Z) : Z := x mod 2 ^ 32.
Definition add32 (x y : Z) : Z := w32 (x + y).
Definition rotr (n x : Z) : Z := Z.lor (Z.shiftr x n) (w32 (Z.shiftl x (32 - n))).
Definition not32 (x : Z) : Z := 2 ^ 32 - 1 - x.

Definition Ch (x y z : Z) := Z.lxor (Z.land x y) (Z.land (not32 x) z).
Definition Maj (x y z : Z) :=
  Z.lxor (Z.lxor (Z.land x y) (Z.land x z)) (Z.land y z).
Definition bsig0 x := Z.lxor (Z.lxor (rotr 2 x) (rotr 13 x)) (rotr 22 x).
Definition bsig1 x := Z.lxor (Z.lxor (rotr 6 x) (rotr 11 x)) (rotr 25 x).
Definition ssig0 x := Z.lxor (Z.lxor (rotr 7 x) (rotr 18 x)) (Z.shiftr x 3).
Definition ssig1 x := Z.lxor (Z.lxor (rotr 17 x) (rotr 19 x)) (Z.shiftr x 10).

(** The round constants are the first 32 fractional bits of the cube
    roots of the first 64 primes, the initial state those of the
    square roots of the first 8: both tables are computed here. *)
Fixpoint is_prime_from (fuel : nat) (d p : Z) : bool :=
  match fuel with
  | O => true
  | S f =>
      if p <? d * d then true
      else if p mod d =? 0 then false
      else is_prime_from f (d + 1) p
  end.

Fixpoint primes_from (fuel count : nat) (p : Z) : list Z :=
  match fuel, count with
  | _, O => []
  | O, _ => []
  | S f, S c =>
      if is_prime_from 20 2 p then p :: primes_from f c (p + 1)
      else primes_from f count (p + 1)
  end.

Definition primes64 : list Z := primes_from 400 64 2.

(** Integer cube root by bisection on the bits of the result. *)
Fixpoint icbrt_bits (bits : nat) (x r : Z) : Z :=
  match bits with
  | O => r
  | S b =>
      let c := r + 2 ^ Z.of_nat b in
      icbrt_bits b x (if c * c * c <=? x then c else r)
  end.

Definition frac_cbrt (p : Z) : Z := w32 (icbrt_bits 40 (p * 2 ^ 96) 0).
Definition frac_sqrt (p : Z) : Z := w32 (Z.sqrt (p * 2 ^ 64)).

Definition K : list Z := Eval vm_compute in map frac_cbrt primes64.
Definition H0 : list Z := Eval vm_compute in map frac_sqrt (firstn 8 primes64).

(** Padding: a [0x80] byte, zeros up to 56 mod 64, and the bit length
    as a big-endian 64-bit integer. *)
Definition pad (msg : list byte) : list byte :=
  let len := Z.of_nat (length msg) in
  let zeros := Z.to_nat ((55 - len) mod 64) in
  msg ++ [x80] ++ repeat x00 zeros ++ Hex.be_bytes 8 (8 * len).

Definition be_word (bs : list byte) : Z :=
  fold_left (fun acc b => acc * 256 + Hex.Z_of_byte b) bs 0.

Fixpoint words (n : nat) (bs : list byte) : list Z :=
  match n with
  | O => []
  | S m => be_word (firstn 4 bs) :: words m (skipn 4 bs)
  end.

(** Message schedule, most recent word first. *)
Fixpoint schedule (n : nat) (w : list Z) : list Z :=
  match n with
  | O => w
  | S m =>
      let x := add32 (add32 (ssig1 (nth 1 w 0)) (nth 6 w 0))
                     (add32 (ssig0 (nth 14 w 0)) (nth 15 w 0)) in
      schedule m (x :: w)
  end.

Record state := mkState { sa : Z; sb : Z; sc : Z; sd : Z; se : Z; sf : Z; sg : Z; sh : Z }.

Definition round (s : state) (kw : Z * Z) : state :=
  let t1 := add32 (add32 (add32 (sh s) (bsig1 (se s))) (Ch (se s) (sf s) (sg s)))
                  (add32 (fst kw) (snd kw)) in
  let t2 := add32 (bsig0 (sa s)) (Maj (sa s) (sb s) (sc s)) in
  mkState (add32 t1 t2) (sa s) (sb s) (sc s) (add32 (sd s) t1) (se s) (sf s) (sg s).

Definition compress (s : state) (block : list byte) : state :=
  let w := rev (schedule 48 (rev (words 16 block))) in
  let r := fold_left round (combine K w) s in
  mkState (add32 (sa s) (sa r)) (add32 (sb s) (sb r)) (add32 (sc s) (sc r))
          (add32 (sd s) (sd r)) (add32 (se s) (se r)) (add32 (sf s) (sf r))
          (add32 (sg s) (sg r)) (add32 (sh s) (sh r)).

Fixpoint blocks (n : nat) (s : state) (bs : list byte) : state :=
  match n with
  | O => s
  | S m => blocks m (compress s (firstn 64 bs)) (skipn 64 bs)
  end.

Definition init : state :=
  mkState (nth 0 H0 0) (nth 1 H0 0) (nth 2 H0 0) (nth 3 H0 0)
          (nth 4 H0 0) (nth 5 H0 0) (nth 6 H0 0) (nth 7 H0 0).

Definition digest (s : state) : list byte :=
  flat_map (Hex.be_bytes 4) [sa s; sb s; sc s; sd s; se s; sf s; sg s; sh s].

Definition sha256 (msg : list byte) : list byte :=
  let p := pad msg in
  digest (blocks (length p / 64)%nat init p).

End Sha256.

(** ** JSON values, [JSON.stringify] and canonicalization ([src/merkle/tree.ts]) *)

Module Json.

(** The "arbitrary value tree" of a payload.  An object lists its own
    enumerable string-keyed properties in the order JavaScript
    enumerates them; numbers are the integers (timestamps, counters),
    printed in decimal. *)
#[local] Unset Elimination Schemes.
Inductive jsval :=
| JUndefined
| JNull
| JBool (b : bool)
| JNum (z : Z)
| JStr (s : string)
| JArr (items : list jsval)
| JObj (fields : list (string * jsval)).
#[local] Set Elimination Schemes.

Definition is_undefined (v : jsval) : bool :=
  match v with JUndefined => true | _ => false end.

(** *** Property order of an ordinary object

    [OrdinaryOwnPropertyKeys] lists the array-index keys first, in
    ascending numeric order, and then the other string keys in the
    order of their creation.  An array index is the canonical decimal
    form of an integer between 0 and 2^32 - 2. *)
Definition digit_val (c : ascii) : option Z :=
  let ch := Z.of_N (N_of_ascii c) in
  if (48 <=? ch) && (ch <=? 57) then Some (ch - 48) else None.

Fixpoint digits_val (acc : Z) (s : string) : option Z :=
  match s with
  | EmptyString => Some acc
  | String c rest =>
      match digit_val c with
      | Some d => digits_val (acc * 10 + d) rest
      | None => None
      end
  end.

Definition array_index (key : string) : option Z :=
  match key with
  | EmptyString => None
  | String "0" EmptyString => Some 0
  | String "0" _ => None
  | _ =>
      match digits_val 0 key with
      | Some n => if n <=? 2 ^ 32 - 2 then Some n else None
      | None => None
      end
  end.

(** Where a new array-index key [n] goes: before the first property
    that is not an array index or is a larger one. *)
Fixpoint insert_index (n : Z) (key : string) (v : jsval)
                      (o : list (string * jsval)) : list (string * jsval) :=
  match o with
  | [] => [(key, v)]
  | (k, w) :: rest =>
      match array_index k with
      | Some m => if m <? n then (k, w) :: insert_index n key v rest
                  else (key, v) :: (k, w) :: rest
      | None => (key, v) :: (k, w) :: rest
      end
  end.

Fixpoint has_key (key : string) (o : list (string * jsval)) : bool :=
  match o with
  | [] => false
  | (k, _) :: rest => if String.eqb k key then true else has_key key rest
  end.

Fixpoint replace_key (key : string) (v : jsval)
                     (o : list (string * jsval)) : list (string * jsval) :=
  match o with
  | [] => []
  | (k, w) :: rest =>
      if String.eqb k key then (k, v) :: rest else (k, w) :: replace_key key v rest
  end.

(** [o[key] = v] on an object created by [{}].  Assigning to
    ["__proto__"] runs the setter inherited from [Object.prototype]:
    no own property is created. *)
Definition obj_set (o : list (string * jsval)) (key : string) (v : jsval)
  : list (string * jsval) :=
  if String.eqb key "__proto__" then o
  else if has_key key o then replace_key key v o
  else match array_index key with
       | Some n => insert_index n key v o
       | None => o ++ [(key, v)]
       end.

(** [obj[key]], [undefined] when the property is missing. *)
Fixpoint obj_get (o : list (string * jsval)) (key : string) : jsval :=
  match o with
  | [] => JUndefined
  | (k, w) :: rest => if String.eqb k key then w else obj_get rest key
  end.

(** [Object.keys(obj)] *)
Definition obj_keys (o : list (string * jsval)) : list string := map fst o.

(** *** The order of [Array.prototype.sort()]

    Without a comparator [sort] orders strings by their UTF-16 code
    units.  A text is held here as its UTF-8 bytes: [code_points]
    decodes them, and [code_units] gives the code units of the
    JavaScript string, one for a code point below 0x10000 and a
    surrogate pair for a larger one.  A byte that starts no complete
    sequence stands for itself. *)
Definition byte_value (c : ascii) : Z := Z.of_N (N_of_ascii c).

(** The six payload bits of a continuation byte [10xxxxxx]. *)
Definition continuation (c : ascii) : option Z :=
  let b := byte_value c in
  if (128 <=? b) && (b <? 192) then Some (b - 128) else None.

Fixpoint code_points (s : string) : list Z :=
  match s with
  | EmptyString => []
  | String c rest =>
      let b := byte_value c in
      if b <? 192 then b :: code_points rest
      else if b <? 224 then
        match rest with
        | String c1 rest1 =>
            match continuation c1 with
            | Some x1 => ((b - 192) * 64 + x1) :: code_points rest1
            | None => b :: code_points rest
            end
        | _ => b :: code_points rest
        end
      else if b <? 240 then
        match rest with
        | String c1 (String c2 rest2) =>
            match continuation c1, continuation c2 with
            | Some x1, Some x2 => ((b - 224) * 4096 + x1 * 64 + x2) :: code_points rest2
            | _, _ => b :: code_points rest
            end
        | _ => b :: code_points rest
        end
      else if b <? 248 then
        match rest with
        | String c1 (String c2 (String c3 rest3)) =>
            match continuation c1, continuation c2, continuation c3 with
            | Some x1, Some x2, Some x3 =>
                ((b - 240) * 262144 + x1 * 4096 + x2 * 64 + x3) :: code_points rest3
            | _, _, _ => b :: code_points rest
            end
        | _ => b :: code_points rest
        end
      else b :: code_points rest
  end.

Definition utf16 (cp : Z) : list Z :=
  if cp <? 65536 then [cp]
  else [55296 + (cp - 65536) / 1024; 56320 + (cp - 65536) mod 1024].

Definition code_units (s : string) : list Z := flat_map utf16 (code_points s).

(** Lexicographic comparison; a proper prefix comes first. *)
Fixpoint units_compare (a b : list Z) : comparison :=
  match a, b with
  | [], [] => Eq
  | [], _ :: _ => Lt
  | _ :: _, [] => Gt
  | x :: a', y :: b' =>
      match x ?= y with
      | Eq => units_compare a' b'
      | c => c
      end
  end.

(** [a <= b] for [sort()].  Two texts with the same code units are the
    same JavaScript string; among byte sequences that are not
    well-formed UTF-8 the byte order settles the tie, which makes the
    order total on every value of [string]. *)
Definition key_leb (a b : string) : bool :=
  match units_compare (code_units a) (code_units b) with
  | Lt => true
  | Eq => String.leb a b
  | Gt => false
  end.

Definition key_le (a b : string) : Prop := key_leb a b = true.

#[global] Instance key_le_dec (a b : string) : Decision (key_le a b).
Proof. unfold key_le. apply _. Defined.

Definition sort_keys (keys : list string) : list string := merge_sort key_le keys.

(** *** [sortObjectKeys]

    The recursive call [sortObjectKeys(obj[key])] is made here on every
    field before the keys are sorted; the call has no effect, so the
    sorted object is the same. *)
Fixpoint sortObjectKeys (obj : jsval) : jsval :=
  match obj with
  | JArr items => JArr (map sortObjectKeys items)
  | JObj fields =>
      let done := map (fun kv => (fst kv, sortObjectKeys (snd kv))) fields in
      let keys := sort_keys (obj_keys fields) in
      JObj (fold_left (fun sorted key => obj_set sorted key (obj_get done key)) keys [])
  | other => other
  end.

(** *** [JSON.stringify] *)
Definition hex4 (n : Z) : string :=
  String (Hex.hexDigit (n / 4096 mod 16)) (String (Hex.hexDigit (n / 256 mod 16))
    (String (Hex.hexDigit (n / 16 mod 16)) (String (Hex.hexDigit (n mod 16)) EmptyString))).

Definition dquote : string := String (ascii_of_N 34) EmptyString.

Definition escape_char (c : ascii) : string :=
  let ch := Z.of_N (N_of_ascii c) in
  if ch =? 34 then "\" +:+ dquote
  else if ch =? 92 then "\\"
  else if ch =? 8 then "\b"
  else if ch =? 9 then "\t"
  else if ch =? 10 then "\n"
  else if ch =? 12 then "\f"
  else if ch =? 13 then "\r"
  else if ch <? 32 then "\u" +:+ hex4 ch
  else String c EmptyString.

Fixpoint escape (s : string) : string :=
  match s with
  | EmptyString => EmptyString
  | String c rest => escape_char c +:+ escape rest
  end.

Definition quote (s : string) : string := dquote +:+ escape s +:+ dquote.

Definition render_num (z : Z) : string :=
  DecimalString.NilZero.string_of_int (Z.to_int z).

Fixpoint join (sep : string) (parts : list string) : string :=
  match parts with
  | [] => EmptyString
  | [p] => p
  | p :: rest => p +:+ sep +:+ join sep rest
  end.

(** A property whose value is [undefined] is left out of an object; in
    an array [undefined] prints as [null]. *)
Fixpoint stringify (v : jsval) : string :=
  match v with
  | JUndefined => "null"
  | JNull => "null"
  | JBool true => "true"
  | JBool false => "false"
  | JNum z => render_num z
  | JStr s => quote s
  | JArr items => "[" +:+ join "," (map stringify items) +:+ "]"
  | JObj fields =>
      "{" +:+ join ","
        (flat_map (fun kv =>
           if is_undefined (snd kv) then []
           else [quote (fst kv) +:+ ":" +:+ stringify (snd kv)]) fields)
      +:+ "}"
  end.

(** *** [canonicalizeCommitment] *)
Record CanonInput := mkCanonInput {
  ci_id : string;
  ci_type : string;
  ci_payload : jsval;
  ci_timestamp : Z;
  ci_signature : string }.

Definition canonical_object (c : CanonInput) : jsval :=
  JObj [ ("id", JStr (ci_id c));
         ("payload", sortObjectKeys (ci_payload c));
         ("signature", JStr (ci_signature c));
         ("timestamp", JNum (ci_timestamp c));
         ("type", JStr (ci_type c)) ].

Definition canonicalizeCommitment (c : CanonInput) : string :=
  stringify (canonical_object c).

End Json.

(** ** The Merkle tree ([src/merkle/tree.ts]) *)

Module Merkle.
Import Hex.

(** *** Hash functions *)

(** [hashLeaf]: SHA-256 of the data behind a [0x00] byte, in hex. *)
Definition hashLeafBytes (data : list byte) : string :=
  bytesToHex (Sha256.sha256 (x00 :: data)).

Definition hashLeaf (data : string) : string := hashLeafBytes (utf8 data).

(** [hashInternal]: SHA-256 of the two decoded hashes behind a [0x01]
    byte.  The two texts are concatenated before decoding, and
    [hexToBytes] throws when the result is not hexadecimal. *)
Definition hashInternal (left right : string) : option string :=
  match hexToBytes (left +:+ right) with
  | Some combined => Some (bytesToHex (Sha256.sha256 (x01 :: combined)))
  | None => None
  end.

Definition hashSingle (hash : string) : option string := hashInternal hash hash.

(** *** The tree *)

(** [nodes]: level, then index, to hash.  [getLevel] creates a missing
    level as an empty map, which reads the same as no level. *)
Record MerkleTree := mkTree {
  nodes : gmap Z (gmap Z string);
  _leafCount : Z }.

Definition empty : MerkleTree := mkTree {[ 0 := ∅ ]} 0.

Definition getLevel (t : MerkleTree) (level : Z) : gmap Z string :=
  default ∅ (nodes t !! level).

Definition setNode (t : MerkleTree) (level index : Z) (hash : string) : MerkleTree :=
  mkTree (<[ level := <[ index := hash ]> (getLevel t level) ]> (nodes t)) (_leafCount t).

Definition leafCount (t : MerkleTree) : Z := _leafCount t.

(** [Math.ceil(Math.log2(n))] for [n >= 2], as the integer it equals. *)
Definition getHeight (t : MerkleTree) : Z :=
  if _leafCount t <=? 1 then 0 else Z.log2_up (_leafCount t).

Definition getRoot (t : MerkleTree) : option string :=
  if _leafCount t =? 0 then None
  else getLevel t (getHeight t) !! 0.

Record TreeState := mkTreeState {
  ts_rootHash : option string;
  ts_leafCount : Z;
  ts_lastAnchorIndex : Z }.

Definition getState (t : MerkleTree) : TreeState :=
  mkTreeState (getRoot t) (_leafCount t) (-1).

(** The loop of [rebuildPath], [fuel] iterations from [level].  The
    result is the tree as mutated so far and whether the loop ended
    without throwing. *)
Fixpoint rebuildLoop (fuel : nat) (level currentIndex : Z) (t : MerkleTree)
  : MerkleTree * bool :=
  match fuel with
  | O => (t, true)
  | S fuel' =>
      let parentIndex := currentIndex / 2 in
      let leftChildIndex := parentIndex * 2 in
      let rightChildIndex := leftChildIndex + 1 in
      let leftHash := getLevel t level !! leftChildIndex in
      let rightHash := getLevel t level !! rightChildIndex in
      let parentHash :=
        match leftHash with
        | Some l =>
            if truthy l then
              match rightHash with
              | Some r => if truthy r then hashInternal l r else hashSingle l
              | None => hashSingle l
              end
            else None
        | None => None
        end in
      match parentHash with
      | Some h => rebuildLoop fuel' (level + 1) parentIndex (setNode t (level + 1) parentIndex h)
      | None => (t, false)
      end
  end.

Definition rebuildPath (t : MerkleTree) (leafIndex : Z) : MerkleTree * bool :=
  rebuildLoop (Z.to_nat (getHeight t)) 0 leafIndex t.

(** [addLeafHash]: the mutated tree, and the index returned ([None]
    when [rebuildPath] threw; the leaf is stored and counted then too). *)
Definition addLeafHash (t : MerkleTree) (hash : string) : MerkleTree * option Z :=
  let index := _leafCount t in
  let t1 := setNode t 0 index hash in
  let t2 := mkTree (nodes t1) (_leafCount t1 + 1) in
  let (t3, ok) := rebuildPath t2 index in
  (t3, if ok then Some index else None).

Definition addLeaf (t : MerkleTree) (data : string) : MerkleTree * option (string * Z) :=
  let hash := hashLeaf data in
  let (t', r) := addLeafHash t hash in
  (t', match r with Some index => Some (hash, index) | None => None end).

Record TreeNode := mkNode {
  n_level : Z;
  n_index : Z;
  n_hash : string }.

(** [getAllNodes]: every stored node, level by level. *)
Definition getAllNodes (t : MerkleTree) : list TreeNode :=
  map_to_list (nodes t) ≫= (fun lm =>
    (fun ih => mkNode (fst lm) (fst ih) (snd ih)) <$> map_to_list (snd lm)).

(** *** Proofs *)
Inductive Position := left | right.

(** A sibling's [hash] is [None] when the source pushes [undefined]
    under its non-null assertion. *)
Record ProofSibling := mkSibling {
  hash : option string;
  position : Position }.

Record MerkleProof := mkProof {
  leafHash : string;
  leafIndex : Z;
  siblings : list ProofSibling;
  rootHash : string }.

Fixpoint proofLoop (fuel : nat) (level currentIndex : Z) (t : MerkleTree)
  : list ProofSibling :=
  match fuel with
  | O => []
  | S fuel' =>
      let siblingIndex := Z.lxor currentIndex 1 in
      let sibling :=
        match getLevel t level !! siblingIndex with
        | Some siblingHash =>
            mkSibling (Some siblingHash) (if currentIndex mod 2 =? 0 then right else left)
        | None => mkSibling (getLevel t level !! currentIndex) right
        end in
      sibling :: proofLoop fuel' (level + 1) (currentIndex / 2) t
  end.

Definition generateProof (t : MerkleTree) (leafIndex : Z) : option MerkleProof :=
  if (leafIndex <? 0) || (leafIndex >=? _leafCount t) then None
  else
    match getRoot t with
    | None => None
    | Some root =>
        if negb (truthy root) then None
        else
          match getLevel t 0 !! leafIndex with
          | None => None
          | Some leafHash =>
              if negb (truthy leafHash) then None
              else Some (mkProof leafHash leafIndex
                           (proofLoop (Z.to_nat (getHeight t)) 0 leafIndex t) root)
          end
    end.

(** What [left + right] concatenates when an operand is [undefined]. *)
Definition js_string (h : option string) : string := default "undefined" h.

(** [verifyProof]; [None] when a [hashInternal] throws. *)
Fixpoint foldSiblings (currentHash : string) (sibs : list ProofSibling) : option string :=
  match sibs with
  | [] => Some currentHash
  | sibling :: rest =>
      let next :=
        match position sibling with
        | left => hashInternal (js_string (hash sibling)) currentHash
        | right => hashInternal currentHash (js_string (hash sibling))
        end in
      match next with
      | Some h => foldSiblings h rest
      | None => None
      end
  end.

Definition verifyProof (proof : MerkleProof) : option bool :=
  match foldSiblings (leafHash proof) (siblings proof) with
  | Some currentHash => Some (bool_decide (currentHash = rootHash proof))
  | None => None
  end.

(** *** Rebuilding a tree from its stored nodes *)

(** [(a, b) => a.level - b.level || a.index - b.index] *)
Definition compareNodes (a b : TreeNode) : Z :=
  if n_level a - n_level b =? 0 then n_index a - n_index b else n_level a - n_level b.

(** [Array.prototype.sort] with a comparator is a stable sort. *)
Fixpoint sortInsert (n : TreeNode) (sorted : list TreeNode) : list TreeNode :=
  match sorted with
  | [] => [n]
  | m :: rest => if compareNodes n m <=? 0 then n :: sorted else m :: sortInsert n rest
  end.

Definition sortNodes (ns : list TreeNode) : list TreeNode := fold_right sortInsert [] ns.

(** [fromNodes]: the leaves are counted, then every node is stored. *)
Definition fromNodes (ns : list TreeNode) : MerkleTree :=
  let sorted := sortNodes ns in
  let leaves := List.filter (fun n => n_level n =? 0) sorted in
  fold_left (fun t n => setNode t (n_level n) (n_index n) (n_hash n)) sorted
            (mkTree (nodes Merkle.empty) (Z.of_nat (length leaves))).

End Merkle.

(** ** Records of [src/types.ts] *)

Module Types.
Import Json.

Record Commitment := mkCommitment {
  c_id : string;
  c_type : string;
  c_payload : jsval;
  c_signature : string;
  c_timestamp : Z;
  c_leafHash : option string;
  c_treeIndex : option Z }.

Record CommitmentInput := mkInput {
  in_type : string;
  in_payload : jsval }.

Record Anchor := mkAnchor {
  a_txid : string;
  a_blockHeight : option Z;
  a_timestamp : Z;
  a_rootHash : string;
  a_commitmentCount : Z;
  a_anchorIndex : Z;
  a_previousAnchor : option string }.

Record AnchorRef := mkAnchorRef {
  ar_txid : string;
  ar_blockHeight : option Z;
  ar_timestamp : Z }.

Record CommitmentProof := mkCommitmentProof {
  cp_commitment : Commitment;
  cp_merkleProof : Merkle.MerkleProof;
  cp_anchor : AnchorRef }.

Record KeyPair := mkKeyPair {
  privateKey : string;
  publicKey : string }.

(** The five fields [canonicalizeCommitment] reads. *)
Definition canon_input (c : Commitment) : CanonInput :=
  mkCanonInput (c_id c) (c_type c) (c_payload c) (c_timestamp c) (c_signature c).

End Types.

(** ** The wallet ([src/wallet/integration.ts]) *)

Module Wallet.
Import Hex.

(** What [broadcastAnchor] answers. *)
Record BroadcastResult := mkBroadcast {
  br_success : bool;
  br_txid : option string;
  br_error : option string }.

(** What [verifyAnchorOnChain] answers. *)
Record ChainVerification := mkVerification {
  v_confirmed : bool;
  v_blockHeight : option Z }.

(** What [parseAnchorPayload] returns when [valid] is true. *)
Record ParsedPayload := mkParsed {
  pp_version : Z;
  pp_rootHash : string;
  pp_commitmentCount : Z;
  pp_previousAnchor : option string }.

(** [payload.slice(from, to)] *)
Definition slice (payload : list byte) (from to : nat) : list byte :=
  firstn (to - from) (skipn from payload).

(** [new DataView(...).getUint32(0, false)] on four bytes. *)
Definition getUint32BE (bs : list byte) : Z :=
  fold_left (fun acc b => acc * 256 + Z_of_byte b) bs 0.

Definition is_zero (b : byte) : bool := Z_of_byte b =? 0.

#[global] Instance byte_eq_decision : EqDecision byte := Byte.byte_eq_dec.

(** [parseAnchorPayload]: the fields, or the [error] text when [valid]
    is false.  The ten bytes decode to the text [BSV-ANCHOR] exactly
    when they are its ten ASCII codes; nothing in the [try] block
    throws. *)
Definition parseAnchorPayload (payload : list byte) : ParsedPayload + string :=
  if negb (length payload =? 79)%nat then
    inr ("Invalid payload length: " +:+ Json.render_num (Z.of_nat (length payload))
         +:+ " (expected 79)")
  else if negb (bool_decide (slice payload 0 10 = utf8 "BSV-ANCHOR")) then
    inr "Invalid protocol identifier"
  else
    let version := Z_of_byte (nth 10 payload x00) in
    if negb (version =? 1) then inr ("Unsupported version: " +:+ Json.render_num version)
    else
      let rootHash := bytesToHex (slice payload 11 43) in
      let commitmentCount := getUint32BE (slice payload 43 47) in
      let prevBytes := slice payload 47 79 in
      let previousAnchor :=
        if forallb is_zero prevBytes then None else Some (bytesToHex prevBytes) in
      inl (mkParsed version rootHash commitmentCount previousAnchor).

End Wallet.

(** ** The SQLite layer ([src/store/database.ts]) *)

Module Db.
Import Json Merkle Types.

(** A row of [commitments]; every column is [NOT NULL]. *)
Record CommitmentRow := mkRow {
  r_id : string;
  r_type : string;
  r_payload : jsval;
  r_signature : string;
  r_timestamp : Z;
  r_leaf_hash : string;
  r_tree_index : Z }.

(** [tree_state] holds three keys; the two numbers are written with
    [toString] and read back with [parseInt], and are kept here as
    the numbers themselves.  [None] is a key that was never written. *)
Record TreeStateTable := mkTreeStateTable {
  root_hash : option string;
  leaf_count : option Z;
  last_anchor_index : option Z }.

(** The tables.  A row of [anchors] is an [Anchor] ([block_height] and
    [previous_anchor] are the nullable columns); [commitments] and
    [anchors] list their rows in insertion order, the payload column
    holds the value that [JSON.parse] gives back. *)
Record Database := mkDb {
  commitments : list CommitmentRow;
  tree_nodes : gmap (Z * Z) string;
  tree_state : TreeStateTable;
  anchors : list Anchor;
  config : gmap string string }.

Definition empty : Database :=
  mkDb [] ∅ (mkTreeStateTable None None None) [] ∅.

(** *** Statements and transactions

    A [step] is what SQLite applies whole or not at all: one statement
    in autocommit mode, or one transaction.  [None] is a thrown
    error, which leaves the database as it was before the step. *)
Definition step := Database -> option Database.

Fixpoint run_all (steps : list step) (d : Database) : option Database :=
  match steps with
  | [] => Some d
  | st :: rest =>
      match st d with
      | Some d' => run_all rest d'
      | None => None
      end
  end.

(** [db.transaction(fn)]: the statements of [fn] commit together; an
    error rolls all of them back and is thrown again.  A transaction
    inside a transaction is a savepoint of the outer one. *)
Definition transaction (body : list step) : step := run_all body.

(** A sequence of top-level steps run one after the other: the
    database reached, and whether every step succeeded.  A step that
    throws ends the sequence; the steps before it stay applied. *)
Fixpoint run_steps (steps : list step) (d : Database) : Database * bool :=
  match steps with
  | [] => (d, true)
  | st :: rest =>
      match st d with
      | Some d' => run_steps rest d'
      | None => (d, false)
      end
  end.

(** The database found on disk when the process stops after [k]
    top-level steps have committed. *)
Definition crash_after (k : nat) (steps : list step) (d : Database) : Database :=
  fst (run_steps (take k steps) d).

(** *** Commitments *)
Definition row_of_commitment (c : Commitment) : CommitmentRow :=
  mkRow (c_id c) (c_type c) (c_payload c) (c_signature c) (c_timestamp c)
        (default EmptyString (c_leafHash c)) (default (-1) (c_treeIndex c)).

Definition rowToCommitment (row : CommitmentRow) : Commitment :=
  mkCommitment (r_id row) (r_type row) (r_payload row) (r_signature row) (r_timestamp row)
    (if Hex.truthy (r_leaf_hash row) then Some (r_leaf_hash row) else None)
    (if r_tree_index row >=? 0 then Some (r_tree_index row) else None).

Definition find_row (id : string) (rows : list CommitmentRow) : option CommitmentRow :=
  List.find (fun row => String.eqb (r_id row) id) rows.

(** [INSERT INTO commitments]: [id] is the primary key. *)
Definition insertCommitment (c : Commitment) : step := fun d =>
  match find_row (c_id c) (commitments d) with
  | Some _ => None
  | None =>
      Some (mkDb (commitments d ++ [row_of_commitment c]) (tree_nodes d)
                 (tree_state d) (anchors d) (config d))
  end.

Definition getCommitment (d : Database) (id : string) : option Commitment :=
  rowToCommitment <$> find_row id (commitments d).

Definition tree_index_le (a b : CommitmentRow) : Prop := r_tree_index a <= r_tree_index b.

#[global] Instance tree_index_le_dec a b : Decision (tree_index_le a b).
Proof. unfold tree_index_le. apply _. Defined.

(** [SELECT * FROM commitments ORDER BY tree_index ASC] *)
Definition getAllCommitments (d : Database) : list Commitment :=
  rowToCommitment <$> merge_sort tree_index_le (commitments d).

Definition getCommitmentCount (d : Database) : Z := Z.of_nat (length (commitments d)).

(** *** Tree nodes and tree state *)
Definition upsertTreeNode (n : TreeNode) : step := fun d =>
  Some (mkDb (commitments d) (<[ (n_level n, n_index n) := n_hash n ]> (tree_nodes d))
             (tree_state d) (anchors d) (config d)).

Definition saveTreeNodes (ns : list TreeNode) : step :=
  transaction (upsertTreeNode <$> ns).

Definition set_tree_state (f : TreeStateTable -> TreeStateTable) : step := fun d =>
  Some (mkDb (commitments d) (tree_nodes d) (f (tree_state d)) (anchors d) (config d)).

Definition getTreeState (d : Database) : TreeState :=
  let t := tree_state d in
  mkTreeState
    (match root_hash t with
     | Some r => if Hex.truthy r then Some r else None
     | None => None
     end)
    (default 0 (leaf_count t))
    (default (-1) (last_anchor_index t)).

Definition saveTreeState (st : TreeState) : step :=
  transaction
    [ set_tree_state (fun t => mkTreeStateTable (Some (default EmptyString (ts_rootHash st)))
                                 (leaf_count t) (last_anchor_index t));
      set_tree_state (fun t => mkTreeStateTable (root_hash t)
                                 (Some (ts_leafCount st)) (last_anchor_index t));
      set_tree_state (fun t => mkTreeStateTable (root_hash t) (leaf_count t)
                                 (Some (ts_lastAnchorIndex st))) ].

(** *** Anchors *)
Definition anchor_index_le (a b : Anchor) : Prop := a_anchorIndex a <= a_anchorIndex b.

#[global] Instance anchor_index_le_dec a b : Decision (anchor_index_le a b).
Proof. unfold anchor_index_le. apply _. Defined.

(** [INSERT INTO anchors]: [anchor_index] is the primary key and
    [txid] is [UNIQUE]. *)
Definition insertAnchor (a : Anchor) : step := fun d =>
  if existsb (fun b => (a_anchorIndex b =? a_anchorIndex a)
                       || String.eqb (a_txid b) (a_txid a)) (anchors d)
  then None
  else Some (mkDb (commitments d) (tree_nodes d) (tree_state d)
                  (anchors d ++ [a]) (config d)).

(** [SELECT * FROM anchors ORDER BY anchor_index ASC] *)
Definition getAllAnchors (d : Database) : list Anchor :=
  merge_sort anchor_index_le (anchors d).

(** [SELECT * FROM anchors ORDER BY anchor_index DESC LIMIT 1] *)
Definition getLatestAnchor (d : Database) : option Anchor :=
  last (getAllAnchors d).

Definition getAnchorByTxid (d : Database) (txid : string) : option Anchor :=
  List.find (fun a => String.eqb (a_txid a) txid) (anchors d).

Definition getConfig (d : Database) (key : string) : option string := config d !! key.

(** [SELECT * FROM commitments WHERE tree_index = ?], first row. *)
Definition getCommitmentByIndex (d : Database) (treeIndex : Z) : option Commitment :=
  rowToCommitment <$> List.find (fun row => r_tree_index row =? treeIndex) (commitments d).

(** [SELECT level, idx as "index", hash FROM tree_nodes] *)
Definition getTreeNodes (d : Database) : list TreeNode :=
  (fun kv => mkNode (fst (fst kv)) (snd (fst kv)) (snd kv)) <$> map_to_list (tree_nodes d).

Definition with_blockHeight (a : Anchor) (blockHeight : Z) : Anchor :=
  mkAnchor (a_txid a) (Some blockHeight) (a_timestamp a) (a_rootHash a)
           (a_commitmentCount a) (a_anchorIndex a) (a_previousAnchor a).

(** [UPDATE anchors SET block_height = ? WHERE txid = ?] *)
Definition updateAnchorBlock (txid : string) (blockHeight : Z) (d : Database) : Database :=
  mkDb (commitments d) (tree_nodes d) (tree_state d)
       (map (fun a => if String.eqb (a_txid a) txid then with_blockHeight a blockHeight else a)
            (anchors d))
       (config d).

End Db.

(** ** The anchor store ([src/store/anchor-store.ts]) *)

Module Store.
Import Hex Json Merkle Types Db.

Record AnchorStore := mkStore {
  db : Database;
  tree : MerkleTree;
  keyPair : KeyPair;
  anchorStrategy : string }.

Section WithSigner.
(** [sign(message, privateKeyHex)] and [verify(message, signatureHex,
    publicKeyHex)] of [src/crypto/signing.ts] (secp256k1). *)
Variable sign : string -> string -> string.
Variable verifySignature : string -> string -> string -> bool.

(** *** [open]

    The tree is rebuilt from the stored leaf hashes; [None] when an
    [addLeafHash] throws.  The key pair is what [loadOrCreateKey]
    returns for the data directory. *)
Fixpoint replay (cs : list Commitment) (t : MerkleTree) : option MerkleTree :=
  match cs with
  | [] => Some t
  | c :: rest =>
      match c_leafHash c with
      | Some h =>
          if truthy h then
            match addLeafHash t h with
            | (t', Some _) => replay rest t'
            | (_, None) => None
            end
          else replay rest t
      | None => replay rest t
      end
  end.

Definition open (d : Database) (kp : KeyPair) : option AnchorStore :=
  match replay (getAllCommitments d) Merkle.empty with
  | Some t => Some (mkStore d t kp (default "manual" (getConfig d "anchor_strategy")))
  | None => None
  end.

(** *** [commit]

    [rnd] is the hex text of [randomBytes(12)] and [now] is
    [Date.now()].  The result is the store as mutated and the
    commitment returned, [None] when the call throws. *)
Definition commit_writes (c : Commitment) (t : MerkleTree) : list step :=
  [ transaction [ insertCommitment c;
                  saveTreeState (getState t);
                  saveTreeNodes (getAllNodes t) ] ].

Definition commit (s : AnchorStore) (input : CommitmentInput) (rnd : string) (now : Z)
  : AnchorStore * option Commitment :=
  let id := "commit_" +:+ rnd in
  let canonical :=
    canonicalizeCommitment (mkCanonInput id (in_type input) (in_payload input) now EmptyString) in
  let signature := sign canonical (privateKey (keyPair s)) in
  let commitment :=
    mkCommitment id (in_type input) (in_payload input) signature now None None in
  let canonicalFull := canonicalizeCommitment (canon_input commitment) in
  match addLeaf (tree s) canonicalFull with
  | (t', None) => (mkStore (db s) t' (keyPair s) (anchorStrategy s), None)
  | (t', Some (hash, index)) =>
      let commitment' :=
        mkCommitment id (in_type input) (in_payload input) signature now
                     (Some hash) (Some index) in
      let (d', ok) := run_steps (commit_writes commitment' t') (db s) in
      (mkStore d' t' (keyPair s) (anchorStrategy s),
       if ok then Some commitment' else None)
  end.

Definition get (s : AnchorStore) (id : string) : option Commitment :=
  getCommitment (db s) id.

Definition count (s : AnchorStore) : Z := getCommitmentCount (db s).

(** *** [prove] *)
Definition prove (s : AnchorStore) (commitmentId : string) : option CommitmentProof :=
  match get s commitmentId with
  | None => None
  | Some commitment =>
      match c_treeIndex commitment with
      | None => None
      | Some treeIndex =>
          match generateProof (tree s) treeIndex with
          | None => None
          | Some merkleProof =>
              let anchors := getAllAnchors (db s) in
              match List.find (fun a => a_commitmentCount a >? treeIndex) anchors with
              | None => None
              | Some anchor =>
                  Some (mkCommitmentProof commitment merkleProof
                          (mkAnchorRef (a_txid anchor) (a_blockHeight anchor)
                                       (a_timestamp anchor)))
              end
          end
      end
  end.

(** *** [verifyInclusion] and [verify]; [None] when [verifyProof] throws. *)
Definition verifyInclusion (proof : CommitmentProof) : option bool :=
  match verifyProof (cp_merkleProof proof) with
  | None => None
  | Some false => Some false
  | Some true =>
      let canonical := canonicalizeCommitment (canon_input (cp_commitment proof)) in
      let expectedHash := hashLeaf canonical in
      if bool_decide (expectedHash = leafHash (cp_merkleProof proof))
      then Some true else Some false
  end.

Definition verify (proof : CommitmentProof) (publicKeyHex : string) : option bool :=
  match verifyInclusion proof with
  | None => None
  | Some false => Some false
  | Some true =>
      let c := cp_commitment proof in
      let unsignedCanonical :=
        canonicalizeCommitment
          (mkCanonInput (c_id c) (c_type c) (c_payload c) (c_timestamp c) EmptyString) in
      Some (verifySignature unsignedCanonical (c_signature c) publicKeyHex)
  end.

(** *** Anchors *)
Definition getTreeState (s : AnchorStore) : TreeState :=
  let st := getState (tree s) in
  mkTreeState (ts_rootHash st) (ts_leafCount st)
              (ts_lastAnchorIndex (Db.getTreeState (db s))).

Definition getRoot (s : AnchorStore) : option string := Merkle.getRoot (tree s).

Definition getLatestAnchor (s : AnchorStore) : option Anchor := Db.getLatestAnchor (db s).

Definition listAnchors (s : AnchorStore) : list Anchor := getAllAnchors (db s).

Definition getUnanchoredCount (s : AnchorStore) : Z :=
  match getLatestAnchor s with
  | None => count s
  | Some latestAnchor => count s - a_commitmentCount latestAnchor
  end.

(** The two database calls of [recordAnchor], in order.  The second
    reads the tree state back, sets [lastAnchorIndex] and saves it. *)
Definition recordAnchor_writes (anchor : Anchor) : list step :=
  [ insertAnchor anchor;
    fun d =>
      let treeState := Db.getTreeState d in
      saveTreeState (mkTreeState (ts_rootHash treeState) (ts_leafCount treeState)
                                 (a_anchorIndex anchor)) d ].

(** [recordAnchor(txid, timestamp?)]; [now] is [Date.now()].  On an
    empty tree [rootHash] is [null] and the insert fails on the
    [NOT NULL] column. *)
Definition recordAnchor (s : AnchorStore) (txid : string) (timestamp : option Z) (now : Z)
  : AnchorStore * option Anchor :=
  let state := getState (tree s) in
  let latestAnchor := Db.getLatestAnchor (db s) in
  match ts_rootHash state with
  | None => (s, None)
  | Some rootHash =>
      let anchor :=
        mkAnchor txid None (default now timestamp) rootHash (ts_leafCount state)
          (match latestAnchor with Some l => a_anchorIndex l | None => -1 end + 1)
          (a_txid <$> latestAnchor) in
      let (d', ok) := run_steps (recordAnchor_writes anchor) (db s) in
      (mkStore d' (tree s) (keyPair s) (anchorStrategy s),
       if ok then Some anchor else None)
  end.

(** *** [buildAnchorPayload]; [None] when it throws. *)
Definition buildAnchorPayload (s : AnchorStore) : option (list byte) :=
  match Merkle.getRoot (tree s) with
  | None => None
  | Some root =>
      if negb (truthy root) then None
      else
        let latestAnchor := getLatestAnchor s in
        let commitmentCount := count s in
        let protocol := utf8 "BSV-ANCHOR" in
        let version := [x01] in
        match hexToBytes root with
        | None => None
        | Some rootBytes =>
            let countBytes := setUint32BE commitmentCount in
            let prev :=
              match latestAnchor with
              | Some l => hexToBytes (a_txid l)
              | None => Some (repeat x00 32)
              end in
            match prev with
            | None => None
            | Some prevBytes =>
                Some (protocol ++ version ++ rootBytes ++ countBytes ++ prevBytes)%list
            end
        end
  end.

End WithSigner.
(** *** Anchoring through the wallet *)

Import Wallet.

(** [anchor(options)].  [broadcastAnchor] is the wallet's answer to
    the payload it is handed; [now] is [Date.now()] in [recordAnchor].
    The result is the store, the anchor returned ([None] when the call
    throws) and the payloads handed to the wallet. *)
Definition anchor (broadcastAnchor : list byte -> BroadcastResult)
                  (s : AnchorStore) (now : Z)
  : AnchorStore * option Anchor * list (list byte) :=
  if getUnanchoredCount s =? 0 then (s, None, [])
  else
    match buildAnchorPayload s with
    | None => (s, None, [])
    | Some payload =>
        let result := broadcastAnchor payload in
        let has_txid := match br_txid result with Some txid => truthy txid | None => false end in
        if negb (br_success result) || negb has_txid then (s, None, [payload])
        else
          let (s', a) := recordAnchor s (default EmptyString (br_txid result)) None now in
          (s', a, [payload])
    end.

(** [refreshAnchor(txid)]; the result is [None] for [null]. *)
Definition refreshAnchor (verifyAnchorOnChain : string -> ChainVerification)
                         (s : AnchorStore) (txid : string) : AnchorStore * option Anchor :=
  match getAnchorByTxid (db s) txid with
  | None => (s, None)
  | Some anchor =>
      let verification := verifyAnchorOnChain txid in
      match v_blockHeight verification with
      | Some blockHeight =>
          if v_confirmed verification && negb (blockHeight =? 0) then
            (mkStore (updateAnchorBlock txid blockHeight (db s)) (tree s) (keyPair s)
                     (anchorStrategy s),
             Some (with_blockHeight anchor blockHeight))
          else (s, Some anchor)
      | None => (s, Some anchor)
      end
  end.

End Store.


(** ** The proof protocol ([src/p2p/protocol.ts]) and its handler
       ([src/p2p/handler.ts]) *)

Module P2p.
Import Types.

Record Query := mkQuery {
  q_type : option string;
  q_subject : option string;
  q_counterparty : option string;
  q_since : option Z;
  q_until : option Z;
  q_limit : option Z }.

Record RequestOptions := mkOptions {
  requireAnchored : option bool;
  minConfirmations : option Z;
  includePublicKey : option bool }.

Record ProofRequest := mkRequest {
  requestId : string;
  commitmentId : option string;
  query : option Query;
  options : option RequestOptions }.

Inductive ProofErrorCode :=
| NOT_FOUND | NOT_ANCHORED | INVALID_REQUEST | UNAUTHORIZED | RATE_LIMITED | INTERNAL_ERROR.

(** The two messages a request is answered with. *)
Inductive ProofMessage :=
| PROOF_RESPONSE (requestId : string) (proofs : list CommitmentProof)
                 (publicKey : option string) (total : Z) (error : option string)
| PROOF_ERROR (requestId : option string) (pushId : option string)
              (code : ProofErrorCode) (message : string).

Definition createProofResponse (requestId : string) (proofs : list CommitmentProof)
                               (publicKey : option string) (total : option Z)
  : ProofMessage :=
  PROOF_RESPONSE requestId proofs publicKey
                 (default (Z.of_nat (length proofs)) total) None.

Definition createProofError (code : ProofErrorCode) (message : string)
                            (requestId : option string) : ProofMessage :=
  PROOF_ERROR requestId None code message.

(** [validateRequest]: the error text, or [None] for a valid request.
    An empty [commitmentId] and a [limit] of 0 are falsy. *)
Definition validateRequest (request : ProofRequest) : option string :=
  let no_id := match commitmentId request with
               | Some i => negb (Hex.truthy i)
               | None => true
               end in
  let no_query := match query request with Some _ => false | None => true end in
  if no_id && no_query then Some "Must specify commitmentId or query"
  else
    match query request with
    | Some q =>
        match q_limit q with
        | Some l => if negb (l =? 0) && (l >? 100)
                    then Some "Query limit cannot exceed 100" else None
        | None => None
        end
    | None => None
    end.

(** *** The handler *)

(** What the handler asks of its [AnchorStore]; a call returns a value
    or throws an error with a message. *)
Inductive outcome (A : Type) :=
| Returned (a : A)
| Thrown (message : string).
Arguments Returned {A} a.
Arguments Thrown {A} message.

Record CommitmentQuery := mkCommitmentQuery {
  cq_type : option string;
  cq_subject : option string;
  cq_counterparty : option string;
  cq_since : option Z;
  cq_until : option Z;
  cq_limit : option Z }.

Record StoreApi := mkApi {
  api_prove : string -> outcome (option CommitmentProof);
  api_query : CommitmentQuery -> outcome (list Commitment);
  api_getPublicKey : string }.

(** The calls made on the store while a message is handled. *)
Inductive StoreCall :=
| CallProve (id : string)
| CallQuery (q : CommitmentQuery)
| CallGetPublicKey.

Record ProofHandler := mkHandler {
  store : StoreApi;
  maxProofsPerRequest : Z;
  cfg_includePublicKey : bool;
  rateLimitPerMinute : Z;
  rateLimits : gmap string (list Z) }.

(** The constructor, with its defaults 50, [true] and 60. *)
Definition newHandler (api : StoreApi) (maxProofs : option Z) (includeKey : option bool)
                      (limit : option Z) : ProofHandler :=
  mkHandler api (default 50 maxProofs) (default true includeKey) (default 60 limit) ∅.

Definition windowMs : Z := 60 * 1000.

(** [checkRateLimit(peerId)]; [now] is [Date.now()]. *)
Definition checkRateLimit (h : ProofHandler) (peerId : string) (now : Z)
  : ProofHandler * bool :=
  let timestamps := default [] (rateLimits h !! peerId) in
  let timestamps := List.filter (fun t => now - t <? windowMs) timestamps in
  if Z.of_nat (length timestamps) >=? rateLimitPerMinute h then (h, false)
  else
    (mkHandler (store h) (maxProofsPerRequest h) (cfg_includePublicKey h)
               (rateLimitPerMinute h)
               (<[ peerId := (timestamps ++ [now])%list ]> (rateLimits h)),
     true).

(** A [blockHeight] that is missing or 0 is falsy. *)
Definition has_blockHeight (p : CommitmentProof) : bool :=
  match ar_blockHeight (cp_anchor p) with
  | Some hgt => negb (hgt =? 0)
  | None => false
  end.

(** The loop over the queried commitments: the proofs kept, or the
    error thrown, and the store calls made. *)
Fixpoint proveEach (api : StoreApi) (requireAnch : bool) (cs : list Commitment)
                   (proofs : list CommitmentProof)
  : outcome (list CommitmentProof) * list StoreCall :=
  match cs with
  | [] => (Returned proofs, [])
  | c :: rest =>
      match api_prove api (c_id c) with
      | Thrown msg => (Thrown msg, [CallProve (c_id c)])
      | Returned r =>
          let proofs' :=
            match r with
            | Some proof =>
                if requireAnch && negb (has_blockHeight proof) then proofs
                else (proofs ++ [proof])%list
            | None => proofs
            end in
          let (res, calls) := proveEach api requireAnch rest proofs' in
          (res, CallProve (c_id c) :: calls)
      end
  end.

Definition opt_flag (o : option RequestOptions) (f : RequestOptions -> option bool) : bool :=
  match o with
  | Some opts => default false (f opts)
  | None => false
  end.

(** The body of the [try] block of [handleRequest]. *)
Definition collectProofs (h : ProofHandler) (request : ProofRequest)
  : outcome (list CommitmentProof) * list StoreCall :=
  let by_query :=
    match query request with
    | Some q =>
        let cq := mkCommitmentQuery (q_type q) (q_subject q) (q_counterparty q)
                    (q_since q) (q_until q)
                    (Some (Z.min (default 50 (q_limit q)) (maxProofsPerRequest h))) in
        match api_query (store h) cq with
        | Thrown msg => (Thrown msg, [CallQuery cq])
        | Returned commitments =>
            let (res, calls) :=
              proveEach (store h) (opt_flag (options request) requireAnchored)
                        commitments [] in
            (res, CallQuery cq :: calls)
        end
    | None => (Returned [], [])
    end in
  match commitmentId request with
  | Some cid =>
      if Hex.truthy cid then
        match api_prove (store h) cid with
        | Thrown msg => (Thrown msg, [CallProve cid])
        | Returned (Some proof) => (Returned [proof], [CallProve cid])
        | Returned None => (Returned [], [CallProve cid])
        end
      else by_query
  | None => by_query
  end.

(** [handleRequest(request, peerId)]: the handler as mutated, the
    message sent back, and the store calls made. *)
Definition handleRequest (h : ProofHandler) (request : ProofRequest) (peerId : string)
                         (now : Z) : ProofHandler * ProofMessage * list StoreCall :=
  let (h', allowed) := checkRateLimit h peerId now in
  if negb allowed then
    (h', createProofError RATE_LIMITED "Too many requests. Please slow down."
                          (Some (requestId request)), [])
  else
    match validateRequest request with
    | Some err => (h', createProofError INVALID_REQUEST err (Some (requestId request)), [])
    | None =>
        match collectProofs h' request with
        | (Thrown msg, calls) =>
            (h', createProofError INTERNAL_ERROR msg (Some (requestId request)), calls)
        | (Returned proofs, calls) =>
            let wantKey := opt_flag (options request) includePublicKey
                           || cfg_includePublicKey h' in
            (h',
             createProofResponse (requestId request) proofs
               (if wantKey then Some (api_getPublicKey (store h')) else None)
               (Some (Z.of_nat (length proofs))),
             if wantKey then (calls ++ [CallGetPublicKey])%list else calls)
        end
    end.

(** *** A session: requests arriving one after the other *)
Record Event := mkEvent {
  ev_now : Z;
  ev_peer : string;
  ev_request : ProofRequest }.

(** What was observed for one request. *)
Record Observed := mkObserved {
  ob_event : Event;
  ob_reply : ProofMessage;
  ob_calls : list StoreCall }.

Fixpoint session (h : ProofHandler) (events : list Event) : ProofHandler * list Observed :=
  match events with
  | [] => (h, [])
  | e :: rest =>
      let '(h1, reply, calls) := handleRequest h (ev_request e) (ev_peer e) (ev_now e) in
      let (h2, obs) := session h1 rest in
      (h2, mkObserved e reply calls :: obs)
  end.

Definition is_rate_limited (m : ProofMessage) : bool :=
  match m with
  | PROOF_ERROR _ _ RATE_LIMITED _ => true
  | _ => false
  end.

(** A request is served when it got past the rate limiter. *)
Definition served (o : Observed) : bool := negb (is_rate_limited (ob_reply o)).

(** The requests of [peer] served at a time in the window [from, from + 60 s). *)
Definition served_in_window (peer : string) (from : Z) (obs : list Observed) : Z :=
  Z.of_nat (length (List.filter (fun o =>
    served o && String.eqb (ev_peer (ob_event o)) peer
    && (from <=? ev_now (ob_event o)) && (ev_now (ob_event o) <? from + windowMs)) obs)).

(** The requests of [peer] served in the 60 s before [now]. *)
Definition served_recently (peer : string) (now : Z) (obs : list Observed) : Z :=
  Z.of_nat (length (List.filter (fun o =>
    served o && String.eqb (ev_peer (ob_event o)) peer
    && (now - ev_now (ob_event o) <? windowMs)) obs)).

End P2p.

(** ** Specification-level definitions *)

Module MerkleSpec.
Import Hex Merkle.

(** A leaf handed to the tree: data for [addLeaf], or a hash computed
    beforehand for [addLeafHash]. *)
Inductive LeafInput :=
| LeafData (data : string)
| LeafHash (hash : string).

Definition leaf_hash (x : LeafInput) : string :=
  match x with
  | LeafData data => hashLeaf data
  | LeafHash h => h
  end.

(** One append: the tree as mutated, and whether the call returned. *)
Definition append (t : MerkleTree) (x : LeafInput) : MerkleTree * bool :=
  match x with
  | LeafData data => let (t', r) := addLeaf t data in (t', bool_decide (is_Some r))
  | LeafHash h => let (t', r) := addLeafHash t h in (t', bool_decide (is_Some r))
  end.

(** Appends in sequence; [None] as soon as one throws. *)
Fixpoint appendAll (t : MerkleTree) (xs : list LeafInput) : option MerkleTree :=
  match xs with
  | [] => Some t
  | x :: rest =>
      match append t x with
      | (t', true) => appendAll t' rest
      | (_, false) => None
      end
  end.

(** Appends in sequence by a caller that catches what is thrown. *)
Definition appendEach (t : MerkleTree) (xs : list LeafInput) : MerkleTree :=
  fold_left (fun t x => fst (append t x)) xs t.

(** List lookup at a JavaScript index. *)
Definition zlookup {A} (l : list A) (i : Z) : option A :=
  if i <? 0 then None else l !! Z.to_nat i.

(** The hash that belongs at [(level, i)] over the leaf hashes [hs]:
    a parent is the hash of its two children, or of the left child
    with itself when the right child does not exist. *)
Fixpoint node (hs : list string) (level : nat) (i : Z) : option string :=
  match level with
  | O => zlookup hs i
  | S l =>
      match node hs l (2 * i) with
      | None => None
      | Some a =>
          match node hs l (2 * i + 1) with
          | Some b => hashInternal a b
          | None => hashInternal a a
          end
      end
  end.

Definition height (n : Z) : Z := if n <=? 1 then 0 else Z.log2_up n.

(** The tree holds exactly the nodes over [hs], up to its height. *)
Record tree_ok (hs : list string) (t : MerkleTree) : Prop := mkTreeOk {
  ok_count : _leafCount t = Z.of_nat (length hs);
  ok_truthy : Forall (fun h => truthy h = true) hs;
  ok_nodes : forall (l : nat) (i : Z),
      Z.of_nat l <= height (Z.of_nat (length hs)) ->
      getLevel t (Z.of_nat l) !! i = node hs l i;
  ok_above : forall (l i : Z),
      l < 0 \/ height (Z.of_nat (length hs)) < l -> getLevel t l !! i = None;
  ok_defined : forall (l : nat) (i : Z),
      Z.of_nat l <= height (Z.of_nat (length hs)) ->
      0 <= i -> i * 2 ^ Z.of_nat l < Z.of_nat (length hs) ->
      is_Some (node hs l i) }.

(** The tree in the course of [rebuildPath] after a leaf was stored:
    the levels up to [k] hold the nodes over the new leaves [hs'], the
    levels above are those of the tree [told] before the append, and
    the nodes above the new leaf, at [n / 2^l], exist up to level [k]. *)
Record mid (hs' : list string) (n : Z) (told t : MerkleTree) (k : nat) : Prop := mkMid {
  mid_count : _leafCount t = Z.of_nat (length hs');
  mid_nodes : forall (l : nat) (i : Z), (l <= k)%nat ->
      getLevel t (Z.of_nat l) !! i = node hs' l i;
  mid_rest : forall (l i : Z), l < 0 \/ Z.of_nat k < l ->
      getLevel t l !! i = getLevel told l !! i;
  mid_path : forall (l : nat), (l <= k)%nat ->
      is_Some (node hs' l (n / 2 ^ Z.of_nat l)) }.

(** The text of a 32-byte digest. *)
Definition is_digest (h : string) : Prop :=
  exists bs : list byte, length bs = 32%nat /\ h = bytesToHex bs.

(** A non-empty text that [hexToBytes] accepts. *)
Definition is_hex (h : string) : Prop :=
  is_Some (hexToBytes h) /\ truthy h = true.

(** Text made of hexadecimal digits only. *)
Definition hex_char (c : ascii) : bool :=
  match asciiToBase16 c with Some _ => true | None => false end.

Fixpoint all_hex (s : string) : bool :=
  match s with
  | EmptyString => true
  | String c rest => hex_char c && all_hex rest
  end.

(** Storing the nodes [ns] one after the other. *)
Definition setNodes (ns : list TreeNode) (t : MerkleTree) : MerkleTree :=
  fold_left (fun t n => setNode t (n_level n) (n_index n) (n_hash n)) ns t.

End MerkleSpec.

Module JsonSpec.
Import Json.

Definition is_atom (v : jsval) : Prop :=
  match v with
  | JArr _ | JObj _ => False
  | _ => True
  end.

(** Equal up to the order of the fields of objects, at any depth.  An
    object has each of its keys once. *)
#[local] Unset Elimination Schemes.
Inductive jperm : jsval -> jsval -> Prop :=
| jperm_atom (v : jsval) : is_atom v -> jperm v v
| jperm_arr (l1 l2 : list jsval) : Forall2 jperm l1 l2 -> jperm (JArr l1) (JArr l2)
| jperm_obj (fs gs gs' : list (string * jsval)) :
    NoDup (map fst fs) ->
    Permutation gs gs' ->
    Forall2 (fun a b => fst a = fst b /\ jperm (snd a) (snd b)) fs gs' ->
    jperm (JObj fs) (JObj gs).
#[local] Set Elimination Schemes.

(** [P] holds of the key list of every object in [v], at any depth. *)
Fixpoint all_objects (P : list string -> Prop) (v : jsval) : Prop :=
  match v with
  | JArr items => fold_right (fun x acc => all_objects P x /\ acc) True items
  | JObj fields =>
      P (map fst fields)
      /\ fold_right (fun kv acc => all_objects P (snd kv) /\ acc) True fields
  | _ => True
  end.

(** Ascending array indices. *)
Definition index_le (a b : string) : Prop :=
  match array_index a, array_index b with
  | Some m, Some n => m <= n
  | _, _ => False
  end.

(** The order in which the keys of a sorted object are enumerated:
    the array indices in ascending numeric order, then the other keys
    in ascending order of their code units. *)
Definition js_ordered (keys : list string) : Prop :=
  exists idx rest : list string,
    keys = (idx ++ rest)%list
    /\ Forall (fun k => is_Some (array_index k)) idx
    /\ StronglySorted index_le idx
    /\ Forall (fun k => array_index k = None) rest
    /\ StronglySorted key_le rest.

(** The text of [canonicalizeCommitment]: the five keys in their fixed order. *)
Definition canonical_text (c : CanonInput) : string :=
  "{" +:+ quote "id" +:+ ":" +:+ quote (ci_id c)
  +:+ "," +:+ quote "payload" +:+ ":" +:+ stringify (sortObjectKeys (ci_payload c))
  +:+ "," +:+ quote "signature" +:+ ":" +:+ quote (ci_signature c)
  +:+ "," +:+ quote "timestamp" +:+ ":" +:+ render_num (ci_timestamp c)
  +:+ "," +:+ quote "type" +:+ ":" +:+ quote (ci_type c) +:+ "}".

(** The fields of an object with their values sorted. *)
Definition sorted_fields (fields : list (string * jsval)) : list (string * jsval) :=
  map (fun kv => (fst kv, sortObjectKeys (snd kv))) fields.

(** An object in enumeration order: array indices ascending, then the
    keys [rk], none of which is an array index. *)
Definition enumerated (Q : jsval -> Prop) (o : list (string * jsval)) (rk : list string) : Prop :=
  exists I R : list (string * jsval),
    o = (I ++ R)%list
    /\ Forall (fun k => is_Some (array_index k)) (map fst I)
    /\ StronglySorted index_le (map fst I)
    /\ map fst R = rk
    /\ Forall (fun k => array_index k = None) rk
    /\ Forall (fun kv => Q (snd kv)) o.

(** A key that an assignment appends: neither [__proto__] nor an array index. *)
Definition plain_key (k : string) : bool :=
  negb (String.eqb k "__proto__") && negb (bool_decide (is_Some (array_index k))).

(** The order of the claim's words: by code points. *)
Definition code_point_le (a b : string) : Prop :=
  units_compare (code_points a) (code_points b) <> Gt.

(** The keys that are not array indices, and their being in ascending
    order of their code units. *)
Definition named_keys (keys : list string) : list string :=
  List.filter (fun k => bool_decide (array_index k = None)) keys.

Definition named_keys_sorted (keys : list string) : Prop :=
  StronglySorted key_le (named_keys keys).

(** Not the key [__proto__]. *)
Definition own_key (k : string) : bool := negb (String.eqb k "__proto__").

(** The object that the loop of [sortObjectKeys] builds from [keys],
    starting from [o], when [f] gives the value of a key. *)
Definition assign_all (f : string -> jsval) (keys : list string) (o : list (string * jsval))
  : list (string * jsval) :=
  fold_left (fun sorted key => obj_set sorted key (f key)) keys o.

End JsonSpec.

Module P2pSpec.
Import Types P2p.

(** The times at which requests of [peer] were served, in order. *)
Definition times_served (peer : string) (obs : list Observed) : list Z :=
  map (fun o => ev_now (ob_event o))
      (List.filter (fun o => served o && String.eqb (ev_peer (ob_event o)) peer) obs).

Definition recent (now t : Z) : bool := now - t <? windowMs.

(** The limiter remembers, for every peer, the served requests that
    are less than 60 s old at any time from [tprev] on. *)
Definition limiter_inv (h : ProofHandler) (obs : list Observed) (tprev : Z) : Prop :=
  forall (peer : string) (now : Z),
    tprev <= now ->
    List.filter (recent now) (default [] (rateLimits h !! peer))
    = List.filter (recent now) (times_served peer obs).

(** The reply to a request the limiter turned down. *)
Definition rate_limited_reply (request : ProofRequest) : ProofMessage :=
  PROOF_ERROR (Some (requestId request)) None RATE_LIMITED
              "Too many requests. Please slow down.".

(** No window of 60 s holds more than [cap] served requests of a peer. *)
Definition window_ok (cap : Z) (obs : list Observed) : Prop :=
  forall peer from, served_in_window peer from obs <= cap.

(** The decision on one request, given what was served before it. *)
Definition decided (cap : Z) (before : list Observed) (o : Observed) : Prop :=
  if cap <=? served_recently (ev_peer (ob_event o)) (ev_now (ob_event o)) before
  then ob_reply o = rate_limited_reply (ev_request (ob_event o)) /\ ob_calls o = []
  else served o = true.

End P2pSpec.

Module StoreSpec.
Import Hex Json Merkle Types Db Store MerkleSpec.

(** The store that [open] returns for a data directory without a database. *)
Definition fresh (kp : KeyPair) : AnchorStore :=
  mkStore Db.empty Merkle.empty kp "manual".

(** The stores a process can hold: opened on a new directory, then
    changed by [commit] and [recordAnchor] calls, whether they return
    or throw. *)
Inductive reachable (sign : string -> string -> string) : AnchorStore -> Prop :=
| reach_fresh (kp : KeyPair) : reachable sign (fresh kp)
| reach_commit (s : AnchorStore) (input : CommitmentInput) (rnd : string) (now : Z) :
    reachable sign s -> reachable sign (fst (commit sign s input rnd now))
| reach_record (s : AnchorStore) (txid : string) (timestamp : option Z) (now : Z) :
    reachable sign s -> reachable sign (fst (recordAnchor s txid timestamp now)).

(** The in-memory tree is the tree over the digests [hs], and every
    stored commitment sits at its index in it. *)
Record store_inv (hs : list string) (s : AnchorStore) : Prop := mkStoreInv {
  inv_tree : tree_ok hs (tree s);
  inv_digests : Forall is_digest hs;
  inv_rows : Forall (fun row => zlookup hs (r_tree_index row) = Some (r_leaf_hash row))
                    (commitments (db s)) }.

(** The database with another [tree_state] table. *)
Definition with_tree_state (d : Database) (ts : TreeStateTable) : Database :=
  mkDb (commitments d) (tree_nodes d) ts (anchors d) (config d).

(** The leaf hashes [open] replays: the non-empty ones, by [tree_index]. *)
Definition stored_leaves (d : Database) : list string :=
  List.filter truthy (r_leaf_hash <$> merge_sort tree_index_le (commitments d)).

(** The anchors form a chain over a tree of [n] leaves: the anchor at
    position [i] has index [i], names the txid of the one before it,
    and counts at least as many commitments as the earlier ones. *)
Definition anchor_chain (n : Z) (l : list Anchor) : Prop :=
  NoDup (a_txid <$> l)
  /\ forall (i : nat) (a : Anchor), l !! i = Some a ->
       a_anchorIndex a = Z.of_nat i
       /\ a_previousAnchor a = a_txid <$> (match i with O => None | S j => l !! j end)
       /\ 1 <= a_commitmentCount a <= n
       /\ forall (j : nat) (b : Anchor), (j <= i)%nat -> l !! j = Some b ->
            a_commitmentCount b <= a_commitmentCount a.

(** The text that is signed: the canonical form with an empty signature. *)
Definition unsigned_text (row : CommitmentRow) : string :=
  canonicalizeCommitment
    (mkCanonInput (r_id row) (r_type row) (r_payload row) (r_timestamp row) EmptyString).

(** The rows of a store with key pair [kp] over a tree of [n] leaves:
    ids are distinct, tree indices increase, and every row holds the
    leaf hash of its canonical form and the signature of its text. *)
Record rows_ok (sign : string -> string -> string) (kp : KeyPair) (n : Z)
               (rows : list CommitmentRow) : Prop := mkRowsOk {
  rows_ids : NoDup (r_id <$> rows);
  rows_sorted : StronglySorted Z.lt (r_tree_index <$> rows);
  rows_each : Forall (fun row =>
      0 <= r_tree_index row < n
      /\ r_leaf_hash row
         = hashLeaf (canonicalizeCommitment (canon_input (rowToCommitment row)))
      /\ r_signature row = sign (unsigned_text row) (privateKey kp)) rows }.

(** The proof [p] with the block height [h] on its anchor when that is [txid]. *)
Definition proof_at_height (txid : string) (h : Z) (p : CommitmentProof) : CommitmentProof :=
  mkCommitmentProof (cp_commitment p) (cp_merkleProof p)
    (if String.eqb (ar_txid (cp_anchor p)) txid
     then mkAnchorRef (ar_txid (cp_anchor p)) (Some h) (ar_timestamp (cp_anchor p))
     else cp_anchor p).

End StoreSpec.

(** ** Concrete inputs used in examples *)

Module Samples.
Import Hex Json Merkle MerkleSpec Types P2p.

Definition three_leaves : list LeafInput :=
  [ LeafData "leaf 1";
    LeafHash "ba7816bf8f01cfea414140de5dae2223b00361a396177a9cb410ff61f20015ad";
    LeafData "leaf 3" ].

(** A keyed hash standing in for the secp256k1 signature. *)
Definition sample_sign (message privateKeyHex : string) : string :=
  bytesToHex (Sha256.sha256 (utf8 (privateKeyHex +:+ message))).

Definition sample_verify (message signatureHex publicKeyHex : string) : bool :=
  String.eqb signatureHex (sample_sign message publicKeyHex).

Definition sample_key : Types.KeyPair := Types.mkKeyPair "11" "11".

Definition input1 : Types.CommitmentInput :=
  Types.mkInput "agreement"
    (JObj [("subject", JStr "code-review");
           ("content", JStr "Review PR #42 for 100 sats");
           ("counterparty", JStr "peerX")]).

Definition input2 : Types.CommitmentInput :=
  Types.mkInput "state"
    (JObj [("subject", JStr "s"); ("content", JStr "c");
           ("metadata", JObj [("b", JNum 2); ("a", JNum 1)])]).

Definition id1 : string := "commit_000000000000000000000001".
Definition id2 : string := "commit_000000000000000000000002".

(** One commitment; then an anchor; then a second commitment. *)
Definition s1 : Store.AnchorStore :=
  fst (Store.commit sample_sign (StoreSpec.fresh sample_key) input1
         "000000000000000000000001" 1000).
Definition s2 : Store.AnchorStore := fst (Store.recordAnchor s1 "t1" None 2000).
Definition s3 : Store.AnchorStore :=
  fst (Store.commit sample_sign s2 input2 "000000000000000000000002" 3000).

(** The database of [s1] with another persisted root. *)
Definition d_corrupt : Db.Database :=
  StoreSpec.with_tree_state (Store.db s1)
    (Db.mkTreeStateTable (Some "00") (Some 1) (Some (-1))).

(** A second commitment right after the first. *)
Definition s1b : Store.AnchorStore :=
  fst (Store.commit sample_sign s1 input2 "000000000000000000000002" 3000).

(** A commit whose transaction throws (its id is the one of the stored
    commitment), a commit that returns, an anchor; the leaf of the
    commit that threw stays in the tree. *)
Definition s1_thrown : Store.AnchorStore :=
  fst (Store.commit sample_sign s1 input2 "000000000000000000000001" 2000).
Definition s_gap : Store.AnchorStore :=
  fst (Store.recordAnchor
         (fst (Store.commit sample_sign s1_thrown input2 "000000000000000000000002" 3000))
         "t1" None 4000).

(** An anchor whose txid has four hexadecimal digits. *)
Definition s2_short : Store.AnchorStore := fst (Store.recordAnchor s1 "abcd" None 2000).

(** Objects whose keys are array indices, and two payloads that differ
    in the order of their keys. *)
Definition meta_idx : jsval := JObj [("10", JNum 1); ("9", JNum 2)].
Definition payload_a : jsval :=
  JObj [("subject", JStr "s"); ("content", JStr "c"); ("metadata", JObj [("z", JNum 3); ("a", JNum 1)])].
Definition payload_b : jsval :=
  JObj [("metadata", JObj [("a", JNum 1); ("z", JNum 3)]); ("content", JStr "c"); ("subject", JStr "s")].

(** The keys U+FF5E and U+1F600, as UTF-8, and an object holding them. *)
Definition key_FF5E : string := string_of_list_byte [xef; xbd; x9e].
Definition key_1F600 : string := string_of_list_byte [xf0; x9f; x98; x80].
Definition astral_obj : jsval := JObj [(key_FF5E, JNum 1); (key_1F600, JNum 2)].

(** A store with no commitments, and three requests of one peer within three milliseconds. *)
Definition sample_api : StoreApi :=
  mkApi (fun _ => Returned None) (fun _ => Returned []) "11".

Definition sample_request : ProofRequest :=
  mkRequest "req_1" None (Some (mkQuery (Some "agreement") None None None None None)) None.

Definition three_requests : list Event :=
  [ mkEvent 1000 "peer123" sample_request;
    mkEvent 1001 "peer123" sample_request;
    mkEvent 1002 "peer123" sample_request ].

(** An anchor whose txid has 64 hexadecimal digits, after [s1]. *)
Definition txid_hex : string :=
  "e3b0c44298fc1c149afbf4c8996fb92427ae41e4649b934ca495991b7852b855".
Definition s2_hex : Store.AnchorStore := fst (Store.recordAnchor s1 txid_hex None 2000).

(** A payload with root and previous anchor all zero, over five commitments. *)
Definition zero_payload : list Byte.byte :=
  (utf8 "BSV-ANCHOR" ++ [x01] ++ repeat x00 32 ++ [x00; x00; x00; x05] ++ repeat x00 32)%list.

(** A store that lists two commitments and has a confirmed anchor for the first only. *)
Definition listed (id : string) : Commitment :=
  mkCommitment id "agreement" Json.JNull "sg" 1 (Some "00") (Some 0).
Definition proof_of (id : string) (blockHeight : option Z) : CommitmentProof :=
  mkCommitmentProof (listed id) (Merkle.mkProof "00" 0 [] "00")
                    (mkAnchorRef "t1" blockHeight 2000).
Definition two_api : StoreApi :=
  mkApi (fun id => Returned (Some (proof_of id (if String.eqb id "a" then Some 800000 else None))))
        (fun _ => Returned [listed "a"; listed "b"]) "11".
Definition anchored_request : ProofRequest :=
  mkRequest "req_2" None (Some (mkQuery None None None None None None))
            (Some (mkOptions (Some true) None None)).

End Samples.

(* ===================================================================== *)
(** * Part II: properties                                                *)
(* ===================================================================== *)

(** ** Hexadecimal text *)

Module HexFacts.
Import Hex.

Lemma byte_of_Z_of_byte (b : byte) : byte_of_Z (Z_of_byte b) = b.
Proof. destruct b; reflexivity. Qed.

Lemma hex_pair_decodes (b : byte) :
  asciiToBase16 (hexDigit (Z_of_byte b / 16)) = Some (Z_of_byte b / 16)
  /\ asciiToBase16 (hexDigit (Z_of_byte b mod 16)) = Some (Z_of_byte b mod 16).
Proof. destruct b; split; reflexivity. Qed.

Lemma hexToBytes_bytesToHex (bs : list byte) : hexToBytes (bytesToHex bs) = Some bs.
Proof.
  induction bs as [|b bs IH]; [reflexivity|].
  cbn [bytesToHex hexToBytes].
  destruct (hex_pair_decodes b) as [-> ->]. rewrite IH.
  f_equal. f_equal.
  rewrite <- (byte_of_Z_of_byte b) at 3. f_equal.
  pose proof (Z.div_mod (Z_of_byte b) 16). lia.
Qed.

Lemma bytesToHex_truthy (bs : list byte) : bs <> [] -> truthy (bytesToHex bs) = true.
Proof. destruct bs; [congruence|reflexivity]. Qed.

Lemma hexToBytes_app (a b : string) (x y : list byte) :
  hexToBytes a = Some x -> hexToBytes b = Some y ->
  hexToBytes (a +:+ b) = Some (x ++ y)%list.
Proof.
  revert x. 
  assert (H : forall (n : nat) a x, (String.length a <= n)%nat ->
            hexToBytes a = Some x -> hexToBytes b = Some y ->
            hexToBytes (a +:+ b) = Some (x ++ y)%list).
  { induction n as [|n IH]; intros a' x' Hlen Ha Hb.
    - destruct a'; [|simpl in Hlen; lia]. simpl in Ha. injection Ha as <-. exact Hb.
    - destruct a' as [|c1 [|c2 rest]].
      + simpl in Ha. injection Ha as <-. exact Hb.
      + discriminate.
      + change (String c1 (String c2 rest) +:+ b)
          with (String c1 (String c2 (rest +:+ b))).
        cbn [hexToBytes] in Ha |- *.
        destruct (asciiToBase16 c1); [|discriminate].
        destruct (asciiToBase16 c2); [|discriminate].
        destruct (hexToBytes rest) as [bs|] eqn:Hr; [|discriminate].
        injection Ha as <-.
        rewrite (IH rest bs); [reflexivity| simpl in Hlen; lia | exact Hr | exact Hb]. }
  intros x. apply (H (String.length a)). lia.
Qed.

Lemma length_be_bytes (n : nat) (x : Z) : length (be_bytes n x) = n.
Proof. unfold be_bytes. rewrite length_map, length_seq. reflexivity. Qed.

Lemma sha256_length (msg : list byte) : length (Sha256.sha256 msg) = 32%nat.
Proof.
  unfold Sha256.sha256, Sha256.digest. cbn [flat_map].
  rewrite !length_app, !length_be_bytes. reflexivity.
Qed.

End HexFacts.

(** ** The Merkle tree *)

Module MerkleFacts.
Import Hex Merkle MerkleSpec HexFacts.

(** *** Hashes *)

Lemma digest_is_hex (h : string) : is_digest h -> is_hex h.
Proof.
  intros (bs & Hlen & ->). split.
  - rewrite hexToBytes_bytesToHex. eauto.
  - apply bytesToHex_truthy. destruct bs; [discriminate|congruence].
Qed.

Lemma hashInternal_digest (l r v : string) : hashInternal l r = Some v -> is_digest v.
Proof.
  unfold hashInternal. destruct (hexToBytes (l +:+ r)) as [bs|]; [|discriminate].
  intros [= <-]. exists (Sha256.sha256 (x01 :: bs)).
  split; [apply sha256_length|reflexivity].
Qed.

Lemma hashInternal_truthy (l r v : string) : hashInternal l r = Some v -> truthy v = true.
Proof. intros H. apply digest_is_hex, (hashInternal_digest _ _ _ H). Qed.

Lemma hashInternal_hex (l r : string) : is_hex l -> is_hex r -> is_Some (hashInternal l r).
Proof.
  intros [[x Hx] _] [[y Hy] _]. unfold hashInternal.
  rewrite (hexToBytes_app _ _ _ _ Hx Hy). eauto.
Qed.

Lemma hashLeafBytes_digest (data : list byte) : is_digest (hashLeafBytes data).
Proof.
  exists (Sha256.sha256 (x00 :: data)). split; [apply sha256_length|reflexivity].
Qed.

Lemma hashLeaf_digest (data : string) : is_digest (hashLeaf data).
Proof. apply hashLeafBytes_digest. Qed.

Lemma leaf_hash_data_hex (data : string) : is_hex (hashLeaf data).
Proof. apply digest_is_hex, hashLeaf_digest. Qed.

(** *** Reading and writing nodes *)

Lemma getLevel_setNode (t : MerkleTree) (l i : Z) (h : string) (l' i' : Z) :
  getLevel (setNode t l i h) l' !! i'
  = if decide (l = l' /\ i = i') then Some h else getLevel t l' !! i'.
Proof.
  unfold getLevel, setNode. cbn [nodes].
  destruct (decide (l = l')) as [<-|Hl].
  - rewrite lookup_insert_eq. cbn [from_option id].
    destruct (decide (i = i')) as [<-|Hi].
    + rewrite lookup_insert_eq. rewrite decide_True; [reflexivity|tauto].
    + rewrite lookup_insert_ne by exact Hi. rewrite decide_False; [reflexivity|tauto].
  - rewrite lookup_insert_ne by exact Hl. rewrite decide_False; [reflexivity|tauto].
Qed.

Lemma leafCount_setNode (t : MerkleTree) (l i : Z) (h : string) :
  _leafCount (setNode t l i h) = _leafCount t.
Proof. reflexivity. Qed.

Lemma getHeight_height (t : MerkleTree) : getHeight t = height (_leafCount t).
Proof. reflexivity. Qed.

(** *** Arithmetic of heights and indices *)

Lemma height_nonneg (n : Z) : 0 <= height n.
Proof. unfold height. destruct (n <=? 1); [lia|apply Z.log2_up_nonneg]. Qed.

Lemma height_bound (n : Z) : n <= 2 ^ height n.
Proof.
  unfold height. destruct (Z.leb_spec n 1) as [H|H]; [simpl; lia|].
  apply Z.log2_up_spec. lia.
Qed.

Lemma height_ge (k n : Z) : 0 <= k -> 2 ^ k <= n -> k <= height n.
Proof.
  intros Hk Hn. unfold height. destruct (Z.leb_spec n 1) as [H|H].
  - destruct (Z.eq_dec k 0) as [->|Hne]; [lia|].
    assert (2 ^ 1 <= 2 ^ k) by (apply Z.pow_le_mono_r; lia). simpl in *. lia.
  - rewrite <- (Z.log2_up_pow2 k) by exact Hk. apply Z.log2_up_le_mono. exact Hn.
Qed.

Lemma height_mono (n m : Z) : n <= m -> height n <= height m.
Proof.
  intros H. unfold height.
  destruct (Z.leb_spec n 1), (Z.leb_spec m 1); try lia.
  - apply Z.log2_up_nonneg.
  - apply Z.log2_up_le_mono. exact H.
Qed.

Lemma pow2_pos (k : nat) : 0 < 2 ^ Z.of_nat k.
Proof. apply Z.pow_pos_nonneg; lia. Qed.

Lemma pow2_succ (k : nat) : 2 ^ Z.of_nat (S k) = 2 * 2 ^ Z.of_nat k.
Proof. rewrite Nat2Z.inj_succ, Z.pow_succ_r by lia. reflexivity. Qed.

Lemma div_bounds (n p : Z) : 0 < p -> n / p * p <= n < (n / p + 1) * p.
Proof.
  intros Hp. pose proof (Z.div_mod n p ltac:(lia)).
  pose proof (Z.mod_pos_bound n p Hp). nia.
Qed.

Lemma div_pow2_succ (n : Z) (k : nat) : n / 2 ^ Z.of_nat k / 2 = n / 2 ^ Z.of_nat (S k).
Proof.
  rewrite pow2_succ, Z.div_div by (try apply pow2_pos; lia).
  f_equal. lia.
Qed.

Lemma testbit_1_succ (j : Z) : 0 <= j -> Z.testbit 1 (Z.succ j) = false.
Proof.
  intros Hj. change 1 with (2 * 0 + 1). rewrite Z.testbit_odd_succ by exact Hj.
  apply Z.testbit_0_l.
Qed.

Lemma lxor_1_even (p : Z) : Z.lxor (2 * p) 1 = 2 * p + 1.
Proof.
  apply Z.bits_inj'. intros i Hi. rewrite Z.lxor_spec.
  destruct (Z.eq_dec i 0) as [->|Hne].
  - rewrite Z.testbit_odd_0, Z.testbit_even_0. reflexivity.
  - replace i with (Z.succ (i - 1)) by lia.
    rewrite Z.testbit_odd_succ, Z.testbit_even_succ, testbit_1_succ by lia.
    apply xorb_false_r.
Qed.

Lemma lxor_1_odd (p : Z) : Z.lxor (2 * p + 1) 1 = 2 * p.
Proof.
  apply Z.bits_inj'. intros i Hi. rewrite Z.lxor_spec.
  destruct (Z.eq_dec i 0) as [->|Hne].
  - rewrite Z.testbit_odd_0, Z.testbit_even_0. reflexivity.
  - replace i with (Z.succ (i - 1)) by lia.
    rewrite Z.testbit_odd_succ, Z.testbit_even_succ, testbit_1_succ by lia.
    apply xorb_false_r.
Qed.

(** *** The ideal nodes *)

Lemma zlookup_None {A} (l : list A) (i : Z) :
  i < 0 \/ Z.of_nat (length l) <= i -> zlookup l i = None.
Proof.
  intros H. unfold zlookup. destruct (Z.ltb_spec i 0); [reflexivity|].
  apply lookup_ge_None. lia.
Qed.

Lemma zlookup_Some {A} (l : list A) (i : Z) :
  0 <= i < Z.of_nat (length l) -> is_Some (zlookup l i).
Proof.
  intros H. unfold zlookup. destruct (Z.ltb_spec i 0); [lia|].
  apply lookup_lt_is_Some. lia.
Qed.

Lemma zlookup_snoc {A} (l : list A) (x : A) (i : Z) :
  zlookup (l ++ [x]) i
  = if decide (i = Z.of_nat (length l)) then Some x else zlookup l i.
Proof.
  unfold zlookup. destruct (Z.ltb_spec i 0).
  - rewrite decide_False by lia. reflexivity.
  - destruct (decide (i = Z.of_nat (length l))) as [->|Hne].
    + rewrite Nat2Z.id. apply list_lookup_middle. reflexivity.
    + destruct (Z.lt_ge_cases i (Z.of_nat (length l))).
      * apply lookup_app_l. lia.
      * rewrite !lookup_ge_None_2; [reflexivity|lia|rewrite length_app; simpl; lia].
Qed.

Lemma node_None (hs : list string) (l : nat) (i : Z) :
  i < 0 \/ Z.of_nat (length hs) <= i * 2 ^ Z.of_nat l -> node hs l i = None.
Proof.
  revert i. induction l as [|l IH]; intros i H.
  - simpl. apply zlookup_None. simpl in H. lia.
  - cbn [node]. rewrite IH; [reflexivity|].
    rewrite pow2_succ in H. destruct H; [left; lia|right; lia].
Qed.

Lemma node_truthy (hs : list string) (l : nat) (i : Z) (v : string) :
  Forall (fun h => truthy h = true) hs -> node hs l i = Some v -> truthy v = true.
Proof.
  intros Hhs. destruct l as [|l]; cbn [node].
  - unfold zlookup. destruct (i <? 0); [discriminate|].
    intros H. rewrite Forall_forall in Hhs. apply Hhs.
    eapply list_elem_of_lookup_2. exact H.
  - destruct (node hs l (2 * i)); [|discriminate].
    destruct (node hs l (2 * i + 1)); apply hashInternal_truthy.
Qed.

Lemma node_hex (hs : list string) (l : nat) (i : Z) (v : string) :
  Forall is_hex hs -> node hs l i = Some v -> is_hex v.
Proof.
  intros Hhs. destruct l as [|l]; cbn [node].
  - unfold zlookup. destruct (i <? 0); [discriminate|].
    intros H. rewrite Forall_forall in Hhs. apply Hhs.
    eapply list_elem_of_lookup_2. exact H.
  - destruct (node hs l (2 * i)); [|discriminate].
    destruct (node hs l (2 * i + 1)); intros H;
      apply digest_is_hex, (hashInternal_digest _ _ _ H).
Qed.

Lemma node_digest (hs : list string) (l : nat) (i : Z) (v : string) :
  Forall is_digest hs -> node hs l i = Some v -> is_digest v.
Proof.
  intros Hhs. destruct l as [|l]; cbn [node].
  - unfold zlookup. destruct (i <? 0); [discriminate|].
    intros H. rewrite Forall_forall in Hhs. apply Hhs.
    eapply list_elem_of_lookup_2. exact H.
  - destruct (node hs l (2 * i)); [|discriminate].
    destruct (node hs l (2 * i + 1)); apply hashInternal_digest.
Qed.

(** Appending a leaf changes only the nodes above it. *)
Lemma node_snoc_other (hs : list string) (x : string) (l : nat) (i : Z) :
  i <> Z.of_nat (length hs) / 2 ^ Z.of_nat l ->
  node (hs ++ [x]) l i = node hs l i.
Proof.
  revert i. induction l as [|l IH]; intros i Hi.
  - cbn [node]. rewrite zlookup_snoc. simpl in Hi. rewrite Z.div_1_r in Hi.
    rewrite decide_False by exact Hi. reflexivity.
  - cbn [node]. rewrite <- div_pow2_succ in Hi.
    set (c := Z.of_nat (length hs) / 2 ^ Z.of_nat l) in *.
    pose proof (div_bounds c 2 ltac:(lia)).
    rewrite !IH by (fold c; lia). reflexivity.
Qed.

(** *** Appending a leaf *)

Section Append.
Variables (hs : list string) (x : string) (told : MerkleTree).
Hypothesis Hold : tree_ok hs told.
Hypothesis Hx : truthy x = true.
Local Abbreviation n := (Z.of_nat (length hs)).
Local Abbreviation hs' := (hs ++ [x])%list.

Lemma truthy_snoc : Forall (fun h => truthy h = true) hs'.
Proof using Hold Hx. apply Forall_app. split; [apply Hold|]. constructor; [exact Hx|constructor]. Qed.

Lemma left_child_defined (t : MerkleTree) (k : nat) :
  mid hs' n told t k ->
  is_Some (node hs' k (n / 2 ^ Z.of_nat k / 2 * 2)).
Proof using Hold Hx.
  intros Hmid. set (c := n / 2 ^ Z.of_nat k).
  pose proof (div_bounds c 2 ltac:(lia)) as Hc.
  destruct (Z.eq_dec (c / 2 * 2) c) as [->|Hne].
  - apply (mid_path _ _ _ _ _ Hmid). lia.
  - rewrite node_snoc_other by (fold c; lia).
    pose proof (div_bounds n (2 ^ Z.of_nat k) (pow2_pos k)) as Hn. fold c in Hn.
    pose proof (pow2_pos k) as Hp.
    assert (0 <= n) by lia.
    assert (0 <= c) by (apply Z.div_pos; lia).
    assert (1 <= c) by lia.
    assert (2 ^ Z.of_nat k * 1 <= 2 ^ Z.of_nat k * c)
      by (apply Z.mul_le_mono_nonneg_l; lia).
    apply (ok_defined _ _ Hold).
    + apply height_ge; lia.
    + lia.
    + replace (c / 2 * 2) with (c - 1) by lia. lia.
Qed.

Lemma parent_is_node (t : MerkleTree) (k : nat) :
  mid hs' n told t k ->
  match getLevel t (Z.of_nat k) !! (n / 2 ^ Z.of_nat k / 2 * 2) with
  | Some l =>
      if truthy l then
        match getLevel t (Z.of_nat k) !! (n / 2 ^ Z.of_nat k / 2 * 2 + 1) with
        | Some r => if truthy r then hashInternal l r else hashSingle l
        | None => hashSingle l
        end
      else None
  | None => None
  end = node hs' (S k) (n / 2 ^ Z.of_nat k / 2).
Proof using Hold Hx.
  intros Hmid. set (p := n / 2 ^ Z.of_nat k / 2). rewrite !(mid_nodes _ _ _ _ _ Hmid) by lia.
  cbn [node]. replace (2 * p) with (p * 2) by lia.
  destruct (left_child_defined t k Hmid) as [l Hl]. fold p in Hl. rewrite Hl.
  rewrite (node_truthy _ _ _ _ truthy_snoc Hl).
  destruct (node hs' k (p * 2 + 1)) as [r|] eqn:Hr; [|reflexivity].
  rewrite (node_truthy _ _ _ _ truthy_snoc Hr). reflexivity.
Qed.

Lemma mid_step (t : MerkleTree) (k : nat) (v : string) :
  mid hs' n told t k ->
  node hs' (S k) (n / 2 ^ Z.of_nat k / 2) = Some v ->
  mid hs' n told (setNode t (Z.of_nat k + 1) (n / 2 ^ Z.of_nat k / 2) v) (S k).
Proof using Hold Hx.
  intros Hmid. set (p := n / 2 ^ Z.of_nat k / 2). intros Hv.
  assert (Hp : p = n / 2 ^ Z.of_nat (S k)) by apply div_pow2_succ.
  assert (Hn0 : 0 <= n) by lia.
  split.
  - rewrite leafCount_setNode. apply Hmid.
  - intros l i Hl. rewrite getLevel_setNode.
    destruct (decide (Z.of_nat k + 1 = Z.of_nat l /\ p = i)) as [[Hk <-]|Hne].
    + replace l with (S k) by lia. symmetry. exact Hv.
    + destruct (Nat.eq_dec l (S k)) as [->|Hlk].
      * assert (Hi : i <> p) by (intros ->; apply Hne; split; [lia|reflexivity]).
        rewrite (mid_rest _ _ _ _ _ Hmid) by lia.
        rewrite node_snoc_other by (rewrite <- Hp; exact Hi).
        destruct (Z_le_gt_dec (Z.of_nat (S k)) (height n)) as [Hh|Hh].
        -- apply (ok_nodes _ _ Hold). exact Hh.
        -- rewrite (ok_above _ _ Hold) by lia.
           symmetry. apply node_None.
           destruct (Z_lt_ge_dec i 0) as [?|Hi0]; [left; assumption|right].
           pose proof (height_bound n) as Hb. pose proof (height_nonneg n) as Hh0.
           assert (2 ^ height n <= 2 ^ Z.of_nat k) by (apply Z.pow_le_mono_r; lia).
           pose proof (pow2_succ k) as Hs. pose proof (pow2_pos k).
           assert (p = 0) by (rewrite Hp; apply Z.div_small; lia).
           assert (1 <= i) by lia. nia.
      * apply (mid_nodes _ _ _ _ _ Hmid). lia.
  - intros l i Hl. rewrite getLevel_setNode.
    rewrite decide_False by lia. apply (mid_rest _ _ _ _ _ Hmid). lia.
  - intros l Hl. destruct (Nat.eq_dec l (S k)) as [->|Hlk].
    + rewrite <- Hp, Hv. eauto.
    + apply (mid_path _ _ _ _ _ Hmid). lia.
Qed.

Lemma rebuildLoop_mid (fuel : nat) :
  forall (k : nat) (t t' : MerkleTree),
    mid hs' n told t k ->
    rebuildLoop fuel (Z.of_nat k) (n / 2 ^ Z.of_nat k) t = (t', true) ->
    mid hs' n told t' (k + fuel).
Proof using Hold Hx.
  induction fuel as [|fuel IH]; intros k t t' Hmid Hrun.
  - cbn in Hrun. injection Hrun as <-. rewrite Nat.add_0_r. exact Hmid.
  - cbn [rebuildLoop] in Hrun. rewrite (parent_is_node t k Hmid) in Hrun.
    destruct (node hs' (S k) (n / 2 ^ Z.of_nat k / 2)) as [v|] eqn:Hv; [|discriminate].
    replace (k + S fuel)%nat with (S k + fuel)%nat by lia.
    pose proof (IH (S k) _ t' (mid_step t k v Hmid Hv)) as IH'.
    rewrite <- div_pow2_succ in IH'.
    replace (Z.of_nat (S k)) with (Z.of_nat k + 1) in IH' by lia.
    exact (IH' Hrun).
Qed.

(** With hexadecimal leaves no [hashInternal] of the loop throws. *)
Lemma rebuildLoop_returns (fuel : nat) :
  Forall is_hex hs' ->
  forall (k : nat) (t : MerkleTree),
    mid hs' n told t k ->
    snd (rebuildLoop fuel (Z.of_nat k) (n / 2 ^ Z.of_nat k) t) = true.
Proof using Hold Hx.
  intros Hhex. induction fuel as [|fuel IH]; intros k t Hmid; [reflexivity|].
  cbn [rebuildLoop]. rewrite (parent_is_node t k Hmid).
  destruct (node hs' (S k) (n / 2 ^ Z.of_nat k / 2)) as [v|] eqn:Hv.
  - pose proof (IH (S k) _ (mid_step t k v Hmid Hv)) as IH'.
    rewrite <- div_pow2_succ in IH'.
    replace (Z.of_nat (S k)) with (Z.of_nat k + 1) in IH' by lia.
    exact IH'.
  - exfalso. cbn [node] in Hv.
    destruct (left_child_defined t k Hmid) as [l Hl].
    replace (2 * (n / 2 ^ Z.of_nat k / 2)) with (n / 2 ^ Z.of_nat k / 2 * 2) in Hv by lia.
    rewrite Hl in Hv.
    pose proof (node_hex _ _ _ _ Hhex Hl) as Hlh.
    destruct (node hs' k (n / 2 ^ Z.of_nat k / 2 * 2 + 1)) as [r|] eqn:Hr.
    + pose proof (node_hex _ _ _ _ Hhex Hr) as Hrh.
      destruct (hashInternal_hex l r Hlh Hrh) as [? E]. congruence.
    + destruct (hashInternal_hex l l Hlh Hlh) as [? E]. congruence.
Qed.

Lemma mid_start :
  mid hs' n told
      (mkTree (nodes (setNode told 0 (_leafCount told) x))
              (_leafCount (setNode told 0 (_leafCount told) x) + 1)) 0.
Proof using Hold Hx.
  pose proof (ok_count _ _ Hold) as Hc.
  split.
  - cbn [_leafCount setNode]. rewrite Hc, length_app. simpl. lia.
  - intros l i Hl. replace l with O by lia.
    change (getLevel (setNode told 0 (_leafCount told) x) 0 !! i = node hs' 0 i).
    rewrite getLevel_setNode. cbn [node]. rewrite zlookup_snoc, Hc.
    destruct (decide (i = n)) as [->|Hne].
    + rewrite decide_True; [reflexivity|split; reflexivity].
    + rewrite decide_False by (intros [_ E]; congruence).
      apply (ok_nodes _ _ Hold 0%nat). apply height_nonneg.
  - intros l i Hl.
    change (getLevel (setNode told 0 (_leafCount told) x) l !! i = getLevel told l !! i).
    rewrite getLevel_setNode. rewrite decide_False by lia. reflexivity.
  - intros l Hl. replace l with O by lia. cbn [node]. simpl (2 ^ Z.of_nat 0).
    rewrite Z.div_1_r, zlookup_snoc, decide_True by reflexivity. eauto.
Qed.

Lemma mid_finish (t : MerkleTree) :
  mid hs' n told t (Z.to_nat (height (n + 1))) -> tree_ok hs' t.
Proof using Hold Hx.
  intros Hmid.
  assert (Hlen : Z.of_nat (length hs') = n + 1) by (rewrite length_app; simpl; lia).
  pose proof (height_nonneg (n + 1)) as Hh0.
  pose proof (height_mono n (n + 1) ltac:(lia)) as Hmono.
  split.
  - apply Hmid.
  - apply truthy_snoc.
  - intros l i Hl. rewrite Hlen in Hl. apply (mid_nodes _ _ _ _ _ Hmid). lia.
  - intros l i Hl. rewrite Hlen in Hl.
    rewrite (mid_rest _ _ _ _ _ Hmid) by lia. apply (ok_above _ _ Hold). lia.
  - intros l i Hl Hi Hlt. rewrite Hlen in Hl, Hlt.
    pose proof (pow2_pos l) as Hp.
    pose proof (div_bounds n (2 ^ Z.of_nat l) Hp) as Hn.
    destruct (Z.eq_dec i (n / 2 ^ Z.of_nat l)) as [->|Hne].
    + apply (mid_path _ _ _ _ _ Hmid). lia.
    + rewrite node_snoc_other by exact Hne.
      assert (Hil : i < n / 2 ^ Z.of_nat l).
      { destruct (Z_lt_ge_dec i (n / 2 ^ Z.of_nat l)); [assumption|]. exfalso. nia. }
      assert ((i + 1) * 2 ^ Z.of_nat l <= n) by nia.
      apply (ok_defined _ _ Hold); [|lia|nia].
      apply height_ge; [lia|]. nia.
Qed.

End Append.

(** An append that returns keeps the tree in step with its leaves. *)
Lemma addLeafHash_ok (hs : list string) (t t' : MerkleTree) (x : string) (idx : Z) :
  tree_ok hs t -> truthy x = true ->
  addLeafHash t x = (t', Some idx) ->
  idx = Z.of_nat (length hs) /\ tree_ok (hs ++ [x]) t'.
Proof.
  intros Hok Hx. unfold addLeafHash, rebuildPath.
  pose proof (mid_start hs x t Hok Hx) as Hstart.
  set (t2 := mkTree _ _) in *.
  assert (Hh : getHeight t2 = height (Z.of_nat (length hs) + 1)).
  { rewrite getHeight_height. f_equal. subst t2. cbn [_leafCount setNode].
    rewrite (ok_count _ _ Hok). reflexivity. }
  rewrite Hh, (ok_count _ _ Hok).
  destruct (rebuildLoop _ 0 _ t2) as [t3 ok] eqn:Hrun.
  destruct ok; [|discriminate]. intros [= <- <-]. split; [reflexivity|].
  apply (mid_finish hs x t Hok Hx).
  apply (rebuildLoop_mid hs x t Hok Hx _ 0%nat t2 t3 Hstart).
  simpl (2 ^ Z.of_nat 0). rewrite Z.div_1_r. exact Hrun.
Qed.

(** With hexadecimal leaves the append returns. *)
Lemma addLeafHash_returns (hs : list string) (t : MerkleTree) (x : string) :
  tree_ok hs t -> Forall is_hex hs -> is_hex x ->
  exists t', addLeafHash t x = (t', Some (Z.of_nat (length hs))).
Proof.
  intros Hok Hhs Hx. unfold addLeafHash, rebuildPath.
  pose proof (mid_start hs x t Hok (proj2 Hx)) as Hstart.
  set (t2 := mkTree _ _) in *.
  assert (Hh : getHeight t2 = height (Z.of_nat (length hs) + 1)).
  { rewrite getHeight_height. f_equal. subst t2. cbn [_leafCount setNode].
    rewrite (ok_count _ _ Hok). reflexivity. }
  rewrite Hh, (ok_count _ _ Hok).
  assert (Hall : Forall is_hex (hs ++ [x])).
  { apply Forall_app. split; [exact Hhs|]. constructor; [exact Hx|constructor]. }
  pose proof (rebuildLoop_returns hs x t Hok (proj2 Hx) (Z.to_nat (height (Z.of_nat (length hs) + 1)))
                Hall 0%nat t2 Hstart) as Hret.
  simpl (2 ^ Z.of_nat 0) in Hret. rewrite Z.div_1_r in Hret.
  change (Z.of_nat 0) with 0 in Hret.
  destruct (rebuildLoop _ 0 _ t2) as [t3 ok]. simpl in Hret. subst ok. eauto.
Qed.

Lemma tree_ok_empty : tree_ok [] Merkle.empty.
Proof.
  split.
  - reflexivity.
  - constructor.
  - intros l i Hl. change (Z.of_nat l <= 0) in Hl. replace l with O by lia.
    unfold getLevel, Merkle.empty. cbn [nodes]. change (Z.of_nat 0) with 0.
    rewrite lookup_singleton_eq. cbn [from_option id]. rewrite lookup_empty.
    symmetry. apply (zlookup_None (A:=string) []). simpl. lia.
  - intros l i Hl. change (l < 0 \/ 0 < l) in Hl. unfold getLevel, Merkle.empty. cbn [nodes].
    rewrite lookup_singleton_ne by lia. reflexivity.
  - intros l i _ Hi Hlt. pose proof (pow2_pos l). simpl in Hlt. nia.
Qed.

Lemma append_ok (hs : list string) (t t' : MerkleTree) (x : LeafInput) :
  tree_ok hs t -> truthy (leaf_hash x) = true ->
  append t x = (t', true) ->
  tree_ok (hs ++ [leaf_hash x]) t'.
Proof.
  intros Hok Hx. destruct x as [data|h]; cbn [append leaf_hash] in *; unfold addLeaf.
  - destruct (addLeafHash t (hashLeaf data)) as [t1 [idx|]] eqn:E;
      intros H; cbn in H; inversion H; subst.
    apply (addLeafHash_ok _ _ _ _ _ Hok Hx E).
  - destruct (addLeafHash t h) as [t1 [idx|]] eqn:E;
      intros H; cbn in H; inversion H; subst.
    apply (addLeafHash_ok _ _ _ _ _ Hok Hx E).
Qed.

Lemma appendAll_ok (xs : list LeafInput) :
  forall (hs : list string) (t t' : MerkleTree),
    tree_ok hs t ->
    Forall (fun x => truthy (leaf_hash x) = true) xs ->
    appendAll t xs = Some t' ->
    tree_ok (hs ++ map leaf_hash xs) t'.
Proof.
  induction xs as [|x xs IH]; intros hs t t' Hok Hxs Hrun.
  - simpl in *. injection Hrun as <-. rewrite app_nil_r. exact Hok.
  - cbn [appendAll] in Hrun. destruct (append t x) as [t1 [|]] eqn:E; [|discriminate].
    inversion Hxs as [|? ? Hx Hrest]; subst.
    cbn [map]. rewrite (cons_middle (leaf_hash x)), app_assoc.
    apply (IH _ t1 t'); [|exact Hrest|exact Hrun].
    apply (append_ok _ _ _ _ Hok Hx E).
Qed.

(** *** Proof generation and verification *)

Section Proofs.
Variables (hs : list string) (t : MerkleTree).
Hypothesis Hok : tree_ok hs t.
Local Abbreviation nn := (Z.of_nat (length hs)).

Lemma fold_proofLoop (fuel : nat) :
  forall (k : nat) (c : Z) (cur : string),
    Z.of_nat (k + fuel) <= height nn ->
    0 <= c -> c * 2 ^ Z.of_nat k < nn ->
    node hs k c = Some cur ->
    exists c', 0 <= c' /\ c' * 2 ^ Z.of_nat (k + fuel) < nn
               /\ is_Some (node hs (k + fuel) c')
               /\ foldSiblings cur (proofLoop fuel (Z.of_nat k) c t) = node hs (k + fuel) c'.
Proof using Hok.
  induction fuel as [|fuel IH]; intros k c cur Hk Hc Hlt Hcur.
  - exists c. rewrite Nat.add_0_r. cbn. rewrite Hcur. eauto.
  - cbn [proofLoop foldSiblings].
    pose proof (div_bounds c 2 ltac:(lia)) as Hdiv.
    pose proof (pow2_pos k) as Hp. pose proof (pow2_succ k) as Hs.
    set (p := c / 2) in *.
    assert (Hparent : is_Some (node hs (S k) p)).
    { apply (ok_defined _ _ Hok); [lia|lia|]. rewrite Hs. nia. }
    destruct Hparent as [v Hv].
    assert (Hstep : match (match getLevel t (Z.of_nat k) !! Z.lxor c 1 with
                           | Some siblingHash =>
                               mkSibling (Some siblingHash)
                                         (if c mod 2 =? 0 then right else left)
                           | None => mkSibling (getLevel t (Z.of_nat k) !! c) right
                           end) with
                    | {| hash := h; position := left |} => hashInternal (js_string h) cur
                    | {| hash := h; position := right |} => hashInternal cur (js_string h)
                    end = Some v).
    { rewrite !(ok_nodes _ _ Hok) by lia. rewrite Hcur.
      cbn [node] in Hv.
      destruct (Z.eq_dec c (2 * p)) as [Hce|Hco].
      - rewrite Hce, lxor_1_even. rewrite <- Hce in Hv. rewrite Hcur in Hv.
        replace (2 * p mod 2) with 0 by (rewrite Z.mul_comm, Z.mod_mul; lia).
        rewrite Hce in Hv. 
        destruct (node hs k (2 * p + 1)) as [b|]; cbn; exact Hv.
      - assert (Hc1 : c = 2 * p + 1) by lia.
        rewrite Hc1, lxor_1_odd. rewrite <- Hc1 in Hv. rewrite Hcur in Hv.
        assert (Hl : is_Some (node hs k (2 * p))).
        { apply (ok_defined _ _ Hok); [lia|lia|nia]. }
        destruct Hl as [a Ha]. rewrite Ha in Hv |- *.
        replace ((2 * p + 1) mod 2) with 1
          by (rewrite Z.add_comm, Z.mul_comm, Z.mod_add; [reflexivity|lia]).
        cbn. exact Hv. }
    destruct (getLevel t (Z.of_nat k) !! Z.lxor c 1) as [sh|];
      cbn [hash position] in Hstep |- *.
    all: replace (Z.of_nat k + 1) with (Z.of_nat (S k)) by lia.
    all: replace (k + S fuel)%nat with (S k + fuel)%nat in * by lia.
    + destruct (c mod 2 =? 0); cbn [hash position] in Hstep |- *; rewrite Hstep;
        apply (IH (S k) p v); try lia; try exact Hv; rewrite Hs; nia.
    + rewrite Hstep. apply (IH (S k) p v); try lia; try exact Hv; rewrite Hs; nia.
Qed.

Lemma root_is_top : 0 < nn -> getRoot t = node hs (Z.to_nat (height nn)) 0.
Proof using Hok.
  intros Hn. unfold getRoot. rewrite (ok_count _ _ Hok).
  destruct (Z.eqb_spec nn 0); [lia|].
  rewrite getHeight_height, (ok_count _ _ Hok).
  pose proof (height_nonneg nn).
  rewrite <- (Z2Nat.id (height nn)) at 1 by lia.
  apply (ok_nodes _ _ Hok). lia.
Qed.

Lemma generateProof_verifies (i : Z) :
  0 <= i < nn ->
  exists p, generateProof t i = Some p
            /\ getRoot t = Some (rootHash p)
            /\ leafHash p = default EmptyString (zlookup hs i)
            /\ leafIndex p = i
            /\ verifyProof p = Some true.
Proof using Hok.
  intros Hi. pose proof (height_nonneg nn) as Hh0.
  pose proof (height_bound nn) as Hhb.
  assert (Htruthy := ok_truthy _ _ Hok).
  assert (Hroot : is_Some (node hs (Z.to_nat (height nn)) 0)).
  { apply (ok_defined _ _ Hok); lia. }
  destruct Hroot as [root Hroot].
  assert (Hleaf : is_Some (node hs 0 i)).
  { apply (ok_defined _ _ Hok); [lia|lia|simpl; lia]. }
  destruct Hleaf as [lf Hleaf].
  unfold generateProof. rewrite (ok_count _ _ Hok).
  destruct (Z.ltb_spec i 0); [lia|]. destruct (Z.geb_spec i nn); [lia|].
  cbn [orb]. rewrite root_is_top, Hroot by lia.
  rewrite (node_truthy _ _ _ _ Htruthy Hroot). cbn [negb].
  rewrite (ok_nodes _ _ Hok 0%nat) by lia. rewrite Hleaf.
  rewrite (node_truthy _ _ _ _ Htruthy Hleaf). cbn [negb].
  eexists. split; [reflexivity|]. cbn [rootHash leafHash leafIndex].
  split; [reflexivity|]. split; [cbn [node] in Hleaf; rewrite Hleaf; reflexivity|].
  split; [reflexivity|].
  unfold verifyProof. cbn [leafHash siblings rootHash].
  rewrite getHeight_height, (ok_count _ _ Hok).
  destruct (fold_proofLoop (Z.to_nat (height nn)) 0%nat i lf) as (c' & Hc0 & Hc1 & _ & Hfold);
    try (simpl; lia); [exact Hleaf|].
  change (Z.of_nat 0) with 0 in Hfold. rewrite Hfold.
  cbn [Nat.add] in Hc1 |- *.
  assert (c' = 0).
  { rewrite Z2Nat.id in Hc1 by lia.
    assert (0 < 2 ^ height nn) by (apply Z.pow_pos_nonneg; lia). nia. }
  subst c'. rewrite Hroot. rewrite bool_decide_eq_true_2; reflexivity.
Qed.

End Proofs.

Lemma is_hex_truthy (h : string) : is_hex h -> truthy h = true.
Proof. intros [_ H]. exact H. Qed.

Lemma truthy_nonempty (h : string) : h <> EmptyString -> truthy h = true.
Proof. destruct h; [congruence|reflexivity]. Qed.

Lemma leaf_inputs_truthy (xs : list LeafInput) :
  (forall h, In (LeafHash h) xs -> h <> EmptyString) ->
  Forall (fun x => truthy (leaf_hash x) = true) xs.
Proof.
  intros H. apply Forall_forall. intros [data|h] Hin; cbn [leaf_hash].
  - apply is_hex_truthy, leaf_hash_data_hex.
  - apply truthy_nonempty, H, list_elem_of_In, Hin.
Qed.

(** Leaves given as data, or as hexadecimal hashes, never make an append throw. *)
Lemma appendAll_returns (xs : list LeafInput) :
  forall (hs : list string) (t : MerkleTree),
    tree_ok hs t -> Forall is_hex hs ->
    Forall (fun x => is_hex (leaf_hash x)) xs ->
    exists t', appendAll t xs = Some t'.
Proof.
  induction xs as [|x xs IH]; intros hs t Hok Hhs Hxs; [eexists; reflexivity|].
  inversion Hxs as [|? ? Hx Hrest]; subst.
  destruct (addLeafHash_returns hs t (leaf_hash x) Hok Hhs Hx) as [t1 E].
  pose proof (addLeafHash_ok _ _ _ _ _ Hok (is_hex_truthy _ Hx) E) as [_ Hok1].
  assert (Happ : append t x = (t1, true)).
  { destruct x as [data|h]; cbn [append leaf_hash] in *; unfold addLeaf; rewrite E; reflexivity. }
  cbn [appendAll]. rewrite Happ.
  apply (IH _ t1 Hok1); [|exact Hrest].
  apply Forall_app. split; [exact Hhs|]. constructor; [exact Hx|constructor].
Qed.

(** Appends that returned, with non-empty hashes: every proof verifies. *)
Lemma proofs_verify_returned (xs : list LeafInput) (t : MerkleTree) (i : Z) :
  appendAll Merkle.empty xs = Some t ->
  (forall h, In (LeafHash h) xs -> h <> EmptyString) ->
  0 <= i < Z.of_nat (length xs) ->
  leafCount t = Z.of_nat (length xs)
  /\ exists p, generateProof t i = Some p
               /\ getRoot t = Some (rootHash p)
               /\ leafHash p = default EmptyString (leaf_hash <$> zlookup xs i)
               /\ leafIndex p = i
               /\ verifyProof p = Some true.
Proof.
  intros Hrun Hne Hi.
  pose proof (appendAll_ok xs [] Merkle.empty t tree_ok_empty
                (leaf_inputs_truthy xs Hne) Hrun) as Hok.
  cbn [app] in Hok. split.
  - unfold leafCount. rewrite (ok_count _ _ Hok), length_map. reflexivity.
  - destruct (generateProof_verifies _ t Hok i) as (p & Hp & Hroot & Hleaf & Hidx & Hver).
    { rewrite length_map. exact Hi. }
    exists p. repeat split; try assumption.
    rewrite Hleaf. unfold zlookup. destruct (i <? 0); [reflexivity|].
    rewrite list_lookup_fmap. reflexivity.
Qed.

(** C1.  Leaves are appended to an empty tree, as data through
    [addLeaf] or as hexadecimal hashes through [addLeafHash].  Then
    every append returns, the tree counts the [n] leaves, and for every
    index [0 <= i < n] [generateProof(i)] returns a proof of leaf [i]
    whose [rootHash] is [getRoot()] and which [verifyProof] accepts. *)
Theorem proofs_verify (xs : list LeafInput) (i : Z) :
  (forall h, In (LeafHash h) xs -> is_hex h) ->
  0 <= i < Z.of_nat (length xs) ->
  exists (t : MerkleTree) (p : MerkleProof),
    appendAll Merkle.empty xs = Some t
    /\ leafCount t = Z.of_nat (length xs)
    /\ generateProof t i = Some p
    /\ getRoot t = Some (rootHash p)
    /\ leafHash p = default EmptyString (leaf_hash <$> zlookup xs i)
    /\ leafIndex p = i
    /\ verifyProof p = Some true.
Proof.
  intros Hhex Hi.
  assert (Hall : Forall (fun x => is_hex (leaf_hash x)) xs).
  { apply Forall_forall. intros [data|h] Hin; cbn [leaf_hash].
    - apply leaf_hash_data_hex.
    - apply Hhex, list_elem_of_In, Hin. }
  destruct (appendAll_returns xs [] Merkle.empty tree_ok_empty ltac:(constructor) Hall)
    as [t Hrun].
  destruct (proofs_verify_returned xs t i Hrun) as (Hcount & p & Hp); [|exact Hi|].
  { intros h Hin E. subst h. destruct (Hhex _ Hin) as [_ Ht]. discriminate. }
  exists t, p. split; [exact Hrun|]. split; [exact Hcount|]. exact Hp.
Qed.

Lemma proofs_verify_witness :
  (forall h, In (LeafHash h) Samples.three_leaves -> is_hex h)
  /\ exists (t : MerkleTree) (p : MerkleProof),
       appendAll Merkle.empty Samples.three_leaves = Some t
       /\ leafCount t = 3
       /\ generateProof t 2 = Some p
       /\ getRoot t = Some (rootHash p)
       /\ leafHash p = default EmptyString (leaf_hash <$> zlookup Samples.three_leaves 2)
       /\ leafIndex p = 2
       /\ verifyProof p = Some true.
Proof.
  assert (H : forall h, In (LeafHash h) Samples.three_leaves -> is_hex h).
  { intros h [E|[E|[E|[]]]]; inversion E; subst.
    split; [vm_compute; eauto|reflexivity]. }
  split; [exact H|].
  apply (proofs_verify Samples.three_leaves 2 H). simpl. lia.
Defined.

(** *** What an append leaves alone *)

Lemma rebuildLoop_frame (fuel : nat) :
  forall (level c : Z) (t : MerkleTree),
    0 <= level ->
    _leafCount (fst (rebuildLoop fuel level c t)) = _leafCount t
    /\ forall i, getLevel (fst (rebuildLoop fuel level c t)) 0 !! i = getLevel t 0 !! i.
Proof.
  induction fuel as [|fuel IH]; intros level c t Hl; [split; reflexivity|].
  cbn [rebuildLoop].
  match goal with
  | |- context [match ?e with Some _ => rebuildLoop _ _ _ _ | None => _ end] =>
      destruct e as [h|]
  end; [|split; reflexivity].
  destruct (IH (level + 1) (c / 2) (setNode t (level + 1) (c / 2) h) ltac:(lia)) as [Hc Hg].
  split.
  - rewrite Hc. apply leafCount_setNode.
  - intros i. rewrite Hg, getLevel_setNode. rewrite decide_False by lia. reflexivity.
Qed.

Lemma addLeafHash_frame (t : MerkleTree) (h : string) :
  _leafCount (fst (addLeafHash t h)) = _leafCount t + 1
  /\ (forall i, getLevel (fst (addLeafHash t h)) 0 !! i
                = if decide (i = _leafCount t) then Some h else getLevel t 0 !! i)
  /\ (forall idx, snd (addLeafHash t h) = Some idx -> idx = _leafCount t).
Proof.
  unfold addLeafHash, rebuildPath.
  set (t2 := mkTree _ _).
  destruct (rebuildLoop_frame (Z.to_nat (getHeight t2)) 0 (_leafCount t) t2 ltac:(lia))
    as [Hc Hg].
  destruct (rebuildLoop _ 0 _ t2) as [t3 ok]. cbn [fst snd] in *.
  repeat split.
  - rewrite Hc. reflexivity.
  - intros i. rewrite Hg.
    change (getLevel (setNode t 0 (_leafCount t) h) 0 !! i
            = if decide (i = _leafCount t) then Some h else getLevel t 0 !! i).
    rewrite getLevel_setNode.
    destruct (decide (i = _leafCount t)) as [->|Hne].
    + rewrite decide_True; [reflexivity|split; reflexivity].
    + rewrite decide_False; [reflexivity|intros [_ E]; congruence].
  - intros idx. destruct ok; [intros [= <-]; reflexivity|discriminate].
Qed.

Lemma append_addLeafHash (t : MerkleTree) (x : LeafInput) :
  fst (append t x) = fst (addLeafHash t (leaf_hash x)).
Proof.
  destruct x as [data|h]; cbn [append leaf_hash]; unfold addLeaf;
    destruct (addLeafHash t _) as [t1 r]; reflexivity.
Qed.

Lemma appendEach_frame (xs : list LeafInput) :
  forall (t : MerkleTree),
    _leafCount (appendEach t xs) = _leafCount t + Z.of_nat (length xs)
    /\ forall i, i < _leafCount t ->
                 getLevel (appendEach t xs) 0 !! i = getLevel t 0 !! i.
Proof.
  induction xs as [|x xs IH]; intros t.
  - cbn. split; [lia|reflexivity].
  - cbn [appendEach fold_left]. fold (appendEach (fst (append t x)) xs).
    destruct (IH (fst (append t x))) as [Hc Hg].
    rewrite append_addLeafHash in *.
    destruct (addLeafHash_frame t (leaf_hash x)) as (Hc1 & Hg1 & _).
    split.
    + rewrite Hc, Hc1. cbn [length]. lia.
    + intros i Hi. rewrite Hg by lia. rewrite Hg1. rewrite decide_False by lia. reflexivity.
Qed.

(** C10.  An append on a tree of [n] leaves, by [addLeaf] or
    [addLeafHash], whether or not [rebuildPath] throws: the new hash is
    stored at level 0, index [n]; [leafCount] becomes [n + 1]; the index
    returned is [n]; every other entry of level 0 is as it was; and
    no later sequence of appends changes an entry at an index up to
    [n], since each one goes to the next index. *)
Theorem append_frame (t : MerkleTree) (x : LeafInput) (later : list LeafInput) :
  let n := leafCount t in
  let t' := fst (append t x) in
  getLevel t' 0 !! n = Some (leaf_hash x)
  /\ leafCount t' = n + 1
  /\ (forall idx, snd (addLeafHash t (leaf_hash x)) = Some idx -> idx = n)
  /\ (forall i, i <> n -> getLevel t' 0 !! i = getLevel t 0 !! i)
  /\ (forall i, i <= n -> getLevel (appendEach t' later) 0 !! i = getLevel t' 0 !! i)
  /\ leafCount (appendEach t' later) = n + 1 + Z.of_nat (length later).
Proof.
  intros n t'. subst n t'. unfold leafCount. rewrite append_addLeafHash.
  destruct (addLeafHash_frame t (leaf_hash x)) as (Hc & Hg & Hidx).
  destruct (appendEach_frame later (fst (addLeafHash t (leaf_hash x)))) as [Hc' Hg'].
  repeat split.
  - rewrite Hg, decide_True by reflexivity. reflexivity.
  - exact Hc.
  - exact Hidx.
  - intros i Hi. rewrite Hg, decide_False by exact Hi. reflexivity.
  - intros i Hi. apply Hg'. lia.
  - rewrite Hc', Hc. reflexivity.
Qed.

Lemma append_frame_witness :
  getLevel (fst (append (appendEach Merkle.empty [LeafHash "zz"]) (LeafHash "yy"))) 0 !! 0
  = Some "zz".
Proof.
  destruct (append_frame (appendEach Merkle.empty [LeafHash "zz"]) (LeafHash "yy") [])
    as (_ & _ & _ & Hother & _).
  rewrite Hother; [|vm_compute; discriminate]. vm_compute. reflexivity.
Defined.

End MerkleFacts.

(** ** The anchor store *)

Module StoreFacts.
Import Hex Json Merkle Types Db Store MerkleSpec StoreSpec HexFacts MerkleFacts Samples.

(** *** The database steps *)

Lemma saveTreeState_run (st : TreeState) (d : Database) :
  saveTreeState st d
  = Some (mkDb (commitments d) (tree_nodes d)
               (mkTreeStateTable (Some (default EmptyString (ts_rootHash st)))
                                 (Some (ts_leafCount st)) (Some (ts_lastAnchorIndex st)))
               (anchors d) (config d)).
Proof. reflexivity. Qed.

Lemma saveTreeNodes_run (ns : list TreeNode) :
  forall d, exists d', saveTreeNodes ns d = Some d'
    /\ commitments d' = commitments d /\ tree_state d' = tree_state d
    /\ anchors d' = anchors d /\ config d' = config d.
Proof.
  unfold saveTreeNodes, transaction.
  induction ns as [|n ns IH]; intros d; [exists d; repeat split|].
  cbn [fmap list_fmap run_all upsertTreeNode].
  destruct (IH (mkDb (commitments d) (<[(n_level n, n_index n):=n_hash n]> (tree_nodes d))
                     (tree_state d) (anchors d) (config d))) as (d' & E & ?).
  exists d'. split; [exact E|assumption].
Qed.

(** The writes of [commit] are one step: they happen together or not at all. *)
Lemma commit_writes_run (c : Commitment) (t : MerkleTree) (d : Database) :
  (exists d', run_steps (commit_writes c t) d = (d', true)
      /\ find_row (c_id c) (commitments d) = None
      /\ commitments d' = (commitments d ++ [row_of_commitment c])%list
      /\ anchors d' = anchors d /\ config d' = config d
      /\ tree_state d'
         = mkTreeStateTable (Some (default EmptyString (ts_rootHash (getState t))))
                            (Some (ts_leafCount (getState t))) (Some (-1)))
  \/ (run_steps (commit_writes c t) d = (d, false)
      /\ is_Some (find_row (c_id c) (commitments d))).
Proof.
  unfold commit_writes, transaction. cbn [run_steps run_all]. unfold insertCommitment.
  destruct (find_row (c_id c) (commitments d)) as [row|] eqn:Hfind; [right; eauto|left].
  rewrite saveTreeState_run. cbn [commitments tree_nodes tree_state anchors config].
  match goal with
  | |- context [saveTreeNodes ?ns ?d0] =>
      destruct (saveTreeNodes_run ns d0) as (d' & E & Hc & Hts & Ha & Hcfg)
  end.
  rewrite E. exists d'. cbn in Hc, Hts, Ha, Hcfg. repeat split; assumption.
Qed.

(** The writes of [recordAnchor] are two steps. *)
Lemma recordAnchor_writes_run (a : Anchor) (d : Database) :
  let conflict := existsb (fun b => (a_anchorIndex b =? a_anchorIndex a)
                                    || String.eqb (a_txid b) (a_txid a)) (anchors d) in
  run_steps (recordAnchor_writes a) d
  = if conflict then (d, false)
    else (mkDb (commitments d) (tree_nodes d)
               (mkTreeStateTable
                  (Some (default EmptyString (ts_rootHash (Db.getTreeState d))))
                  (Some (ts_leafCount (Db.getTreeState d)))
                  (Some (a_anchorIndex a)))
               (anchors d ++ [a]) (config d), true).
Proof.
  unfold recordAnchor_writes. cbn [run_steps]. unfold insertAnchor.
  destruct (existsb _ (anchors d)); reflexivity.
Qed.

(** *** The invariant of a store *)

Lemma digests_hex (hs : list string) : Forall is_digest hs -> Forall is_hex hs.
Proof. intros H. eapply Forall_impl; [exact H|exact digest_is_hex]. Qed.

Lemma addLeaf_returns (hs : list string) (t : MerkleTree) (data : string) :
  tree_ok hs t -> Forall is_hex hs ->
  exists t', addLeaf t data = (t', Some (hashLeaf data, Z.of_nat (length hs)))
             /\ tree_ok (hs ++ [hashLeaf data]) t'.
Proof.
  intros Hok Hhs.
  destruct (addLeafHash_returns hs t (hashLeaf data) Hok Hhs (leaf_hash_data_hex data))
    as [t' E].
  exists t'. unfold addLeaf. rewrite E. split; [reflexivity|].
  apply (addLeafHash_ok _ _ _ _ _ Hok (is_hex_truthy _ (leaf_hash_data_hex data)) E).
Qed.

Lemma store_inv_fresh (kp : KeyPair) : store_inv [] (fresh kp).
Proof. split; [apply tree_ok_empty|constructor|constructor]. Qed.

Section WithSigner.
Variable sign : string -> string -> string.

(** What [commit] does to a store that satisfies the invariant. *)
Lemma commit_spec (hs : list string) (s : AnchorStore) (input : CommitmentInput)
                  (rnd : string) (now : Z) :
  store_inv hs s ->
  exists (c : Commitment) (t' : MerkleTree),
    c_id c = "commit_" +:+ rnd
    /\ c_leafHash c = Some (hashLeaf (canonicalizeCommitment (canon_input c)))
    /\ c_treeIndex c = Some (Z.of_nat (length hs))
    /\ tree_ok (hs ++ [default EmptyString (c_leafHash c)]) t'
    /\ ((commit sign s input rnd now
         = (mkStore (fst (run_steps (commit_writes c t') (db s))) t' (keyPair s)
                    (anchorStrategy s), Some c)
         /\ find_row (c_id c) (commitments (db s)) = None
         /\ commitments (fst (run_steps (commit_writes c t') (db s)))
            = (commitments (db s) ++ [row_of_commitment c])%list
         /\ anchors (fst (run_steps (commit_writes c t') (db s))) = anchors (db s))
        \/ (commit sign s input rnd now
            = (mkStore (db s) t' (keyPair s) (anchorStrategy s), None)
            /\ is_Some (find_row (c_id c) (commitments (db s))))).
Proof.
  intros Hinv. unfold commit.
  set (id := "commit_" +:+ rnd).
  set (sig := sign _ _).
  set (c0 := mkCommitment id (in_type input) (in_payload input) sig now None None).
  destruct (addLeaf_returns hs (tree s) (canonicalizeCommitment (canon_input c0))
              (inv_tree _ _ Hinv) (digests_hex _ (inv_digests _ _ Hinv)))
    as (t' & E & Hok').
  rewrite E.
  set (c := mkCommitment id (in_type input) (in_payload input) sig now
                         (Some (hashLeaf (canonicalizeCommitment (canon_input c0))))
                         (Some (Z.of_nat (length hs)))).
  exists c, t'. do 3 (split; [reflexivity|]). split; [exact Hok'|].
  destruct (commit_writes_run c t' (db s)) as [(d' & Hrun & Hnone & Hc & Ha & _)|[Hrun Hsome]].
  - left. rewrite Hrun. cbn [fst]. split; [reflexivity|]. split; [exact Hnone|]. split; assumption.
  - right. rewrite Hrun. split; [reflexivity|exact Hsome].
Qed.

Lemma zlookup_snoc_lt {A} (l : list A) (x : A) (i : Z) (y : A) :
  zlookup l i = Some y -> zlookup (l ++ [x]) i = Some y.
Proof.
  intros H. rewrite zlookup_snoc.
  destruct (decide (i = Z.of_nat (length l))) as [->|]; [|exact H].
  rewrite zlookup_None in H by lia. discriminate.
Qed.

Lemma commit_inv (hs : list string) (s : AnchorStore) (input : CommitmentInput)
                 (rnd : string) (now : Z) :
  store_inv hs s ->
  exists h, store_inv (hs ++ [h]) (fst (commit sign s input rnd now)).
Proof.
  intros Hinv.
  destruct (commit_spec hs s input rnd now Hinv)
    as (c & t' & Hid & Hleaf & Hidx & Hok' & Hcases).
  exists (default EmptyString (c_leafHash c)).
  assert (Hdig : Forall is_digest (hs ++ [default EmptyString (c_leafHash c)])).
  { apply Forall_app. split; [apply Hinv|]. constructor; [|constructor].
    rewrite Hleaf. apply hashLeaf_digest. }
  assert (Hrows : Forall (fun row => zlookup (hs ++ [default EmptyString (c_leafHash c)])
                                             (r_tree_index row) = Some (r_leaf_hash row))
                         (commitments (db s))).
  { eapply Forall_impl; [apply (inv_rows _ _ Hinv)|].
    intros row Hrow. apply zlookup_snoc_lt. exact Hrow. }
  destruct Hcases as [(E & _ & Hc & _)|[E _]]; rewrite E; cbn [fst];
    split; cbn [tree db]; try assumption.
  rewrite Hc. apply Forall_app. split; [exact Hrows|]. constructor; [|constructor].
  unfold row_of_commitment. cbn [r_tree_index r_leaf_hash]. rewrite Hidx. cbn [from_option id].
  rewrite zlookup_snoc, decide_True by reflexivity. reflexivity.
Qed.

Lemma recordAnchor_db (s : AnchorStore) (txid : string) (timestamp : option Z) (now : Z) :
  tree (fst (recordAnchor s txid timestamp now)) = tree s
  /\ commitments (db (fst (recordAnchor s txid timestamp now))) = commitments (db s).
Proof.
  unfold recordAnchor. destruct (ts_rootHash (getState (tree s))) as [root|]; [|split; reflexivity].
  rewrite recordAnchor_writes_run. cbv zeta.
  destruct (existsb _ (anchors (db s))); split; reflexivity.
Qed.

Lemma recordAnchor_inv (hs : list string) (s : AnchorStore) (txid : string)
                       (timestamp : option Z) (now : Z) :
  store_inv hs s -> store_inv hs (fst (recordAnchor s txid timestamp now)).
Proof.
  intros Hinv. destruct (recordAnchor_db s txid timestamp now) as [Ht Hc].
  split; [rewrite Ht; apply Hinv|apply Hinv|rewrite Hc; apply Hinv].
Qed.

Lemma reachable_inv (s : AnchorStore) : reachable sign s -> exists hs, store_inv hs s.
Proof.
  induction 1 as [kp|s input rnd now _ [hs IH]|s txid ts now _ [hs IH]].
  - exists []. apply store_inv_fresh.
  - destruct (commit_inv hs s input rnd now IH) as [h Hh]. eauto.
  - exists hs. apply recordAnchor_inv. exact IH.
Qed.

End WithSigner.

(** *** Anchors in index order *)

#[local] Instance anchor_index_le_trans : Transitive anchor_index_le.
Proof. intros a b c. unfold anchor_index_le. lia. Qed.

#[local] Instance anchor_index_le_total : Total anchor_index_le.
Proof. intros a b. unfold anchor_index_le. lia. Qed.

Lemma getAllAnchors_sorted (d : Database) : StronglySorted anchor_index_le (getAllAnchors d).
Proof. apply StronglySorted_merge_sort; apply _. Qed.

Lemma getAllAnchors_elem (d : Database) (a : Anchor) : a ∈ getAllAnchors d <-> a ∈ anchors d.
Proof. unfold getAllAnchors. rewrite merge_sort_Permutation. reflexivity. Qed.

Lemma find_first {A} (R : relation A) `{!Reflexive R} (f : A -> bool) (l : list A) (a : A) :
  StronglySorted R l -> List.find f l = Some a ->
  a ∈ l /\ f a = true /\ forall a', a' ∈ l -> f a' = true -> R a a'.
Proof.
  induction 1 as [|x l Hsorted IH Hall]; [discriminate|].
  cbn [List.find]. destruct (f x) eqn:Hfx.
  - intros [= <-]. split; [left|]. split; [exact Hfx|].
    intros a' Ha' _. apply elem_of_cons in Ha' as [->|Ha']; [reflexivity|].
    rewrite Forall_forall in Hall. apply Hall. exact Ha'.
  - intros Hfind. destruct (IH Hfind) as (Hin & Hfa & Hfirst).
    split; [right; exact Hin|]. split; [exact Hfa|].
    intros a' Ha' Hfa'. apply elem_of_cons in Ha' as [->|Ha']; [congruence|].
    apply Hfirst; assumption.
Qed.

Lemma find_none_elem {A} (f : A -> bool) (l : list A) :
  List.find f l = None <-> forall a, a ∈ l -> f a = false.
Proof.
  induction l as [|x l IH]; cbn [List.find].
  - split; [intros _ a Ha; inversion Ha|reflexivity].
  - destruct (f x) eqn:Hfx.
    + split; [discriminate|]. intros H. specialize (H x ltac:(left)). congruence.
    + rewrite IH. split.
      * intros H a Ha. apply elem_of_cons in Ha as [->|Ha]; [exact Hfx|apply H, Ha].
      * intros H a Ha. apply H. right. exact Ha.
Qed.

#[local] Instance anchor_index_le_refl : Reflexive anchor_index_le.
Proof. intros a. unfold anchor_index_le. lia. Qed.

(** *** [prove] *)

Lemma find_row_elem (id : string) (rows : list CommitmentRow) (row : CommitmentRow) :
  find_row id rows = Some row -> row ∈ rows /\ r_id row = id.
Proof.
  unfold find_row. intros H. pose proof (find_some _ _ H) as [Hin Heq].
  split; [apply list_elem_of_In, Hin|]. apply String.eqb_eq. exact Heq.
Qed.

Lemma stored_commitment (hs : list string) (s : AnchorStore) (id : string) (c : Commitment) :
  store_inv hs s -> get s id = Some c ->
  exists idx, c_treeIndex c = Some idx /\ 0 <= idx < Z.of_nat (length hs)
              /\ (exists h, c_leafHash c = Some h /\ zlookup hs idx = Some h).
Proof.
  intros Hinv. unfold get, getCommitment.
  destruct (find_row id (commitments (db s))) as [row|] eqn:Hfind; [|discriminate].
  intros [= <-]. destruct (find_row_elem _ _ _ Hfind) as [Hin _].
  pose proof (inv_rows _ _ Hinv) as Hrows. rewrite Forall_forall in Hrows.
  specialize (Hrows row Hin).
  assert (Hrange : 0 <= r_tree_index row < Z.of_nat (length hs)).
  { destruct (Z_lt_ge_dec (r_tree_index row) 0);
      [rewrite zlookup_None in Hrows by lia; discriminate|].
    destruct (Z_lt_ge_dec (r_tree_index row) (Z.of_nat (length hs))); [lia|].
    rewrite zlookup_None in Hrows by lia. discriminate. }
  exists (r_tree_index row). unfold rowToCommitment. cbn [c_treeIndex c_leafHash].
  destruct (Z.geb_spec (r_tree_index row) 0); [|lia].
  split; [reflexivity|]. split; [exact Hrange|].
  exists (r_leaf_hash row). split; [|exact Hrows].
  assert (Ht : truthy (r_leaf_hash row) = true).
  { apply digest_is_hex. pose proof (inv_digests _ _ Hinv) as Hd.
    rewrite Forall_forall in Hd. apply Hd. unfold zlookup in Hrows.
    destruct (r_tree_index row <? 0); [discriminate|].
    eapply list_elem_of_lookup_2. exact Hrows. }
  rewrite Ht. reflexivity.
Qed.

Section WithSigner2.
Variable sign : string -> string -> string.

(** In a store reached through [commit] and [recordAnchor],
    [prove(id)] returns null exactly when no commitment has that id or
    no anchor has [commitmentCount > treeIndex]; and a proof that is
    returned names, by txid, block height and timestamp, an anchor with
    [commitmentCount > treeIndex] whose [anchorIndex] is the least
    among the anchors with that property. *)
Theorem prove_binds_first_anchor (s : AnchorStore) (id : string) :
  reachable sign s ->
  (prove s id = None <->
     get s id = None
     \/ exists c idx, get s id = Some c /\ c_treeIndex c = Some idx
          /\ forall a, a ∈ listAnchors s -> ~ a_commitmentCount a > idx)
  /\ (forall p, prove s id = Some p ->
        exists idx a,
          get s id = Some (cp_commitment p)
          /\ c_treeIndex (cp_commitment p) = Some idx
          /\ a ∈ listAnchors s
          /\ cp_anchor p = mkAnchorRef (a_txid a) (a_blockHeight a) (a_timestamp a)
          /\ a_commitmentCount a > idx
          /\ forall a', a' ∈ listAnchors s -> a_commitmentCount a' > idx ->
                        a_anchorIndex a <= a_anchorIndex a').
Proof.
  intros Hreach. destruct (reachable_inv sign s Hreach) as [hs Hinv].
  unfold prove, listAnchors.
  destruct (get s id) as [c|] eqn:Hget.
  2:{ split; [split; [left; reflexivity|reflexivity]|discriminate]. }
  destruct (stored_commitment hs s id c Hinv Hget) as (idx & Hidx & Hrange & _).
  rewrite Hidx.
  destruct (generateProof_verifies hs (tree s) (inv_tree _ _ Hinv) idx Hrange)
    as (mp & Hmp & _).
  rewrite Hmp.
  destruct (List.find (fun a => a_commitmentCount a >? idx) (getAllAnchors (db s)))
    as [a|] eqn:Hfind.
  - split.
    + split; [discriminate|]. intros [?|(c' & idx' & Hc' & Hidx' & Hnone)]; [discriminate|].
      exfalso. injection Hc' as <-. rewrite Hidx in Hidx'. injection Hidx' as <-.
      destruct (find_first anchor_index_le _ _ _ (getAllAnchors_sorted (db s)) Hfind)
        as (Hin & Hfa & _).
      apply (Hnone a Hin). apply Z.gtb_lt in Hfa. lia.
    + intros p [= <-]. cbn [cp_commitment cp_anchor].
      destruct (find_first anchor_index_le _ _ _ (getAllAnchors_sorted (db s)) Hfind)
        as (Hin & Hfa & Hfirst).
      exists idx, a. split; [reflexivity|]. split; [exact Hidx|]. split; [exact Hin|].
      split; [reflexivity|]. split; [apply Z.gtb_lt in Hfa; lia|].
      intros a' Ha' Hcount. apply (Hfirst a' Ha'). apply Z.gtb_lt. lia.
  - split; [|discriminate]. split; [|reflexivity]. intros _. right.
    exists c, idx. split; [reflexivity|]. split; [exact Hidx|].
    intros a Ha Hgt. rewrite find_none_elem in Hfind. specialize (Hfind a Ha).
    destruct (Z.gtb_spec (a_commitmentCount a) idx); [discriminate|lia].
Qed.

End WithSigner2.

(** *** The anchor payload *)

Lemma Z_of_byte_of_Z (z : Z) : Z_of_byte (byte_of_Z z) = z mod 256.
Proof.
  unfold Z_of_byte, byte_of_Z.
  pose proof (Z.mod_pos_bound z 256 ltac:(lia)) as Hb.
  destruct (Byte.of_N (Z.to_N (z mod 256))) as [b|] eqn:E.
  - apply Byte.to_of_N in E. rewrite E. lia.
  - apply Byte.of_N_None_iff in E. lia.
Qed.

Lemma be_word_setUint32BE (x : Z) : Sha256.be_word (setUint32BE x) = x mod 2 ^ 32.
Proof.
  unfold setUint32BE, be_bytes, Sha256.be_word. cbn [seq map fold_left].
  rewrite !Z_of_byte_of_Z. rewrite !Z.shiftr_div_pow2 by lia.
  set (y := x mod 2 ^ 32).
  assert (0 <= y < 2 ^ 32) by (apply Z.mod_pos_bound; lia).
  change (2 ^ 32) with 4294967296 in *.
  change (2 ^ (8 * Z.of_nat (4 - 1 - 0))) with 16777216.
  change (2 ^ (8 * Z.of_nat (4 - 1 - 1))) with 65536.
  change (2 ^ (8 * Z.of_nat (4 - 1 - 2))) with 256.
  change (2 ^ (8 * Z.of_nat (4 - 1 - 3))) with 1.
  clearbody y. rewrite Z.div_1_r.
  replace (y / 65536) with (y / 256 / 256) by (rewrite Z.div_div by lia; reflexivity).
  replace (y / 16777216) with (y / 256 / 256 / 256)
    by (rewrite !Z.div_div by lia; reflexivity).
  pose proof (Z.div_mod y 256 ltac:(lia)).
  pose proof (Z.div_mod (y / 256) 256 ltac:(lia)).
  pose proof (Z.div_mod (y / 256 / 256) 256 ltac:(lia)).
  pose proof (Z.div_mod (y / 256 / 256 / 256) 256 ltac:(lia)).
  pose proof (Z.mod_pos_bound y 256 ltac:(lia)).
  pose proof (Z.mod_pos_bound (y / 256) 256 ltac:(lia)).
  pose proof (Z.mod_pos_bound (y / 256 / 256) 256 ltac:(lia)).
  pose proof (Z.mod_pos_bound (y / 256 / 256 / 256) 256 ltac:(lia)).
  assert (y / 256 / 256 / 256 / 256 = 0).
  { rewrite !Z.div_div by lia. apply Z.div_small. lia. }
  generalize dependent (y / 256 / 256 / 256 / 256).
  generalize dependent ((y / 256 / 256 / 256) mod 256).
  generalize dependent (y / 256 / 256 / 256).
  generalize dependent ((y / 256 / 256) mod 256).
  generalize dependent (y / 256 / 256).
  generalize dependent ((y / 256) mod 256).
  generalize dependent (y / 256).
  generalize dependent (y mod 256).
  intros. lia.
Qed.

Lemma digest_decodes (h : string) :
  is_digest h -> exists bs, hexToBytes h = Some bs /\ length bs = 32%nat /\ bytesToHex bs = h.
Proof.
  intros (bs & Hlen & ->). exists bs. rewrite hexToBytes_bytesToHex. auto.
Qed.

Lemma root_digest (hs : list string) (t : MerkleTree) :
  tree_ok hs t -> Forall is_digest hs -> 0 < _leafCount t ->
  exists root, Merkle.getRoot t = Some root /\ is_digest root.
Proof.
  intros Hok Hd Hn. rewrite (ok_count _ _ Hok) in Hn.
  rewrite (root_is_top hs t Hok Hn).
  destruct (ok_defined _ _ Hok (Z.to_nat (height (Z.of_nat (length hs)))) 0) as [root Hroot].
  - pose proof (height_nonneg (Z.of_nat (length hs))). lia.
  - lia.
  - lia.
  - exists root. split; [exact Hroot|]. apply (node_digest _ _ _ _ Hd Hroot).
Qed.

Section WithSigner3.
Variable sign : string -> string -> string.

(** C6 (as amended).  In a store reached through [commit] and
    [recordAnchor] whose tree is not empty, and whose latest anchor, if
    any, has a txid of 64 hexadecimal digits, [buildAnchorPayload]
    returns 79 bytes: the 10 bytes of [BSV-ANCHOR], the byte [0x01], the
    32 bytes of the root, the number of stored commitments modulo 2^32
    as 4 big-endian bytes, and the 32 bytes of the latest anchor's txid
    or 32 zero bytes when there is no anchor. *)
Theorem payload_layout (s : AnchorStore) :
  reachable sign s ->
  0 < leafCount (tree s) ->
  (forall l, Store.getLatestAnchor s = Some l ->
             exists b, hexToBytes (a_txid l) = Some b /\ length b = 32%nat) ->
  exists (root : string) (rootBytes prevBytes : list byte),
    Store.getRoot s = Some root
    /\ buildAnchorPayload s
       = Some (utf8 "BSV-ANCHOR" ++ [x01] ++ rootBytes
               ++ setUint32BE (count s) ++ prevBytes)%list
    /\ length (utf8 "BSV-ANCHOR") = 10%nat
    /\ length rootBytes = 32%nat /\ bytesToHex rootBytes = root
    /\ length (setUint32BE (count s)) = 4%nat
    /\ Sha256.be_word (setUint32BE (count s)) = count s mod 2 ^ 32
    /\ length prevBytes = 32%nat
    /\ match Store.getLatestAnchor s with
       | Some l => hexToBytes (a_txid l) = Some prevBytes
       | None => prevBytes = repeat x00 32
       end
    /\ length (utf8 "BSV-ANCHOR" ++ [x01] ++ rootBytes
               ++ setUint32BE (count s) ++ prevBytes)%list = 79%nat.
Proof.
  intros Hreach Hn Htxid. destruct (reachable_inv sign s Hreach) as [hs Hinv].
  destruct (root_digest hs (tree s) (inv_tree _ _ Hinv) (inv_digests _ _ Hinv) Hn)
    as (root & Hroot & Hdig).
  destruct (digest_decodes root Hdig) as (rootBytes & Hdec & Hlen & Hhex).
  assert (Hprev : exists prevBytes, length prevBytes = 32%nat /\
            match Store.getLatestAnchor s with
            | Some l => hexToBytes (a_txid l) = Some prevBytes
            | None => prevBytes = repeat x00 32
            end).
  { destruct (Store.getLatestAnchor s) as [l|] eqn:Hl.
    - destruct (Htxid l eq_refl) as (b & Hb & Hbl). exists b. auto.
    - exists (repeat x00 32). split; reflexivity. }
  destruct Hprev as (prevBytes & Hplen & Hp).
  exists root, rootBytes, prevBytes.
  split; [exact Hroot|]. split.
  - unfold buildAnchorPayload. unfold Store.getRoot in Hroot. rewrite Hroot.
    rewrite (proj2 (digest_is_hex root Hdig)). cbn [negb]. rewrite Hdec.
    destruct (Store.getLatestAnchor s) as [l|]; [rewrite Hp|rewrite Hp]; reflexivity.
  - split; [reflexivity|]. split; [exact Hlen|]. split; [exact Hhex|].
    split; [reflexivity|]. split; [apply be_word_setUint32BE|].
    split; [exact Hplen|]. split; [exact Hp|].
    rewrite !length_app, Hlen, Hplen. reflexivity.
Qed.

End WithSigner3.

(** *** [recordAnchor] *)

(** The anchor that [recordAnchor(txid)] returns
    carries the root and the leaf count of the tree at the time of the
    call, the index of the latest anchor plus one (0 when there is
    none) and the latest anchor's txid as [previousAnchor]; it is
    appended to the anchors and [lastAnchorIndex] is set to its index. *)
Theorem recordAnchor_snapshot (s s' : AnchorStore) (txid : string) (timestamp : option Z)
                              (now : Z) (a : Anchor) :
  recordAnchor s txid timestamp now = (s', Some a) ->
  Merkle.getRoot (tree s) = Some (a_rootHash a)
  /\ a_commitmentCount a = leafCount (tree s)
  /\ a_anchorIndex a = match Db.getLatestAnchor (db s) with
                       | Some l => a_anchorIndex l + 1
                       | None => 0
                       end
  /\ a_previousAnchor a = a_txid <$> Db.getLatestAnchor (db s)
  /\ a_txid a = txid
  /\ anchors (db s') = (anchors (db s) ++ [a])%list
  /\ last_anchor_index (tree_state (db s')) = Some (a_anchorIndex a).
Proof.
  unfold recordAnchor.
  change (ts_rootHash (getState (tree s))) with (Merkle.getRoot (tree s)).
  destruct (Merkle.getRoot (tree s)) as [root|]; [|discriminate].
  rewrite recordAnchor_writes_run. cbv zeta.
  destruct (existsb _ (anchors (db s))); [discriminate|].
  intros [= <- <-]. cbn.
  destruct (Db.getLatestAnchor (db s)); repeat split; reflexivity.
Qed.

(** *** [open] *)

Lemma replay_rows (rows : list CommitmentRow) :
  forall (hs : list string) (t : MerkleTree),
    tree_ok hs t -> Forall is_hex hs ->
    Forall (fun row => r_leaf_hash row = EmptyString \/ is_hex (r_leaf_hash row)) rows ->
    exists t', replay (rowToCommitment <$> rows) t = Some t'
               /\ tree_ok (hs ++ List.filter truthy (r_leaf_hash <$> rows)) t'.
Proof.
  induction rows as [|row rows IH]; intros hs t Hok Hhs Hrows.
  - exists t. cbn. rewrite app_nil_r. auto.
  - inversion Hrows as [|? ? Hrow Hrest]; subst.
    cbn [fmap list_fmap replay List.filter]. unfold rowToCommitment at 1. cbn [c_leafHash].
    destruct (truthy (r_leaf_hash row)) eqn:Ht.
    + rewrite Ht.
      assert (Hx : is_hex (r_leaf_hash row)).
      { destruct Hrow as [E|H]; [rewrite E in Ht; discriminate|exact H]. }
      destruct (addLeafHash_returns hs t _ Hok Hhs Hx) as [t1 E]. rewrite E.
      destruct (addLeafHash_ok _ _ _ _ _ Hok Ht E) as [_ Hok1].
      destruct (IH (hs ++ [r_leaf_hash row])%list t1 Hok1) as (t' & Hrun & Hok').
      * apply Forall_app. split; [exact Hhs|]. constructor; [exact Hx|constructor].
      * exact Hrest.
      * exists t'. split; [exact Hrun|]. rewrite <- app_assoc in Hok'. exact Hok'.
    + apply (IH hs t Hok Hhs Hrest).
Qed.

(** C3 (as amended).  [open] does not read the persisted root: when
    every stored leaf hash is empty or hexadecimal it returns a store on
    the same database whose tree is the tree over the non-empty stored
    leaf hashes in [tree_index] order, and it returns the same tree
    whatever the [tree_state] table holds. *)
Theorem open_replays_leaves (d : Database) (kp : KeyPair) :
  Forall (fun row => r_leaf_hash row = EmptyString \/ is_hex (r_leaf_hash row)) (commitments d) ->
  exists s, open d kp = Some s
            /\ db s = d
            /\ tree_ok (stored_leaves d) (tree s)
            /\ forall ts : TreeStateTable,
                 open (with_tree_state d ts) kp
                 = Some (mkStore (with_tree_state d ts) (tree s) kp (anchorStrategy s)).
Proof.
  intros Hrows. unfold open.
  destruct (replay_rows (merge_sort tree_index_le (commitments d)) [] Merkle.empty
              tree_ok_empty ltac:(constructor)) as (t & Hrun & Hok).
  { rewrite merge_sort_Permutation. exact Hrows. }
  unfold getAllCommitments. rewrite Hrun.
  eexists. split; [reflexivity|]. split; [reflexivity|]. split; [exact Hok|].
  intros ts. cbn [commitments with_tree_state tree anchorStrategy]. rewrite Hrun. reflexivity.
Qed.

(** *** Atomicity of the writes *)

(** The writes of [commit] are atomic: a stop leaves the database as
    it was, or with all of them. *)
Lemma commit_writes_atomic (c : Commitment) (t : MerkleTree) (d : Database) (k : nat) :
  crash_after k (commit_writes c t) d = d
  \/ crash_after k (commit_writes c t) d = fst (run_steps (commit_writes c t) d).
Proof.
  unfold crash_after. destruct k as [|k]; [left; reflexivity|right].
  unfold commit_writes. cbn [take]. destruct k; reflexivity.
Qed.

Lemma recordAnchor_writes_torn (a : Anchor) (d : Database) :
  existsb (fun b => (a_anchorIndex b =? a_anchorIndex a)
                    || String.eqb (a_txid b) (a_txid a)) (anchors d) = false ->
  crash_after 1 (recordAnchor_writes a) d
  = mkDb (commitments d) (tree_nodes d) (tree_state d) (anchors d ++ [a]) (config d).
Proof.
  intros H. unfold crash_after, recordAnchor_writes. cbn [take run_steps].
  unfold insertAnchor. rewrite H. reflexivity.
Qed.

(** C3 as stated fails: the persisted root differs from the rebuilt
    one and [open] returns a store. *)
Lemma open_accepts_mismatch :
  exists s, open d_corrupt sample_key = Some s
            /\ ts_rootHash (Db.getTreeState d_corrupt) = Some "00"
            /\ Merkle.getRoot (tree s) <> ts_rootHash (Db.getTreeState d_corrupt).
Proof.
  eexists. split; [vm_compute; reflexivity|]. split; [reflexivity|].
  vm_compute. discriminate.
Qed.

(** C4 (the code departs from the claim).  The payload is assembled
    over one leaf and carries that root and the count 1; a commit
    follows; the anchor that [recordAnchor] then stores has the count 2
    and the root over two leaves, not the ones of the payload. *)
Lemma recordAnchor_uses_current_tree :
  exists (payload : list byte) (parsed : Wallet.ParsedPayload) (a : Anchor) (root : string),
    (buildAnchorPayload s1, Merkle.getRoot (tree s1), snd (recordAnchor s1b "t1" None 4000))
    = (Some payload, Some root, Some a)
    /\ Wallet.parseAnchorPayload payload = inl parsed
    /\ Wallet.pp_rootHash parsed = root
    /\ Wallet.pp_commitmentCount parsed = 1
    /\ a_commitmentCount a = 2
    /\ a_rootHash a <> root.
Proof.
  eexists. eexists. eexists. eexists. split; [vm_compute; reflexivity|].
  split; [vm_compute; reflexivity|]. split; [reflexivity|]. split; [reflexivity|].
  split; [reflexivity|]. vm_compute. discriminate.
Qed.

(** C7 (the code departs from the claim).  A commit throws in its
    transaction after its leaf was added to the tree; the next
    commitment gets the tree index 2 and an anchor counting three
    commitments is recorded.  In that process [prove] binds the
    commitment to the anchor.  Once the store is opened again the tree
    is rebuilt from the two stored commitments, and [prove] returns
    null for the same commitment, although it is stored and the stored
    anchor has [commitmentCount = 3 > 2]. *)
Lemma prove_null_after_reopen :
  exists (c : Commitment) (a : Anchor) (p : CommitmentProof) (s' : AnchorStore),
    (snd (commit sample_sign s1 input2 "000000000000000000000001" 2000),
     get s_gap id2, anchors (db s_gap), prove s_gap id2, open (db s_gap) sample_key)
    = (None, Some c, [a], Some p, Some s')
    /\ c_treeIndex c = Some 2
    /\ a_txid a = "t1" /\ a_commitmentCount a = 3
    /\ ar_txid (cp_anchor p) = "t1"
    /\ leafCount (tree s') = 2
    /\ get s' id2 = Some c
    /\ prove s' id2 = None.
Proof.
  eexists. eexists. eexists. eexists. split; [vm_compute; reflexivity|].
  repeat split; vm_compute; reflexivity.
Qed.

(** C6 as stated fails: after an anchor whose txid is ["abcd"] the
    payload has 49 bytes; after one whose txid is ["t1"] the call throws. *)
Lemma payload_not_79_bytes :
  0 < leafCount (tree s2_short)
  /\ (exists payload, buildAnchorPayload s2_short = Some payload /\ length payload = 49%nat)
  /\ 0 < leafCount (tree s2) /\ buildAnchorPayload s2 = None.
Proof.
  split; [reflexivity|]. split; [|split; [reflexivity|vm_compute; reflexivity]].
  eexists. split; vm_compute; reflexivity.
Qed.

(** C2 (the code departs from the claim).  After a commit, an anchor and
    a second commit, [prove] binds the first commitment to that anchor
    and [verifyInclusion] and [verify] accept the proof, although the
    root the proof folds to is not the anchor's [rootHash]. *)
Theorem proof_root_differs_from_anchor :
  exists p a,
    prove s3 id1 = Some p
    /\ verifyInclusion p = Some true
    /\ verify sample_verify p (publicKey sample_key) = Some true
    /\ getAnchorByTxid (db s3) (ar_txid (cp_anchor p)) = Some a
    /\ a_commitmentCount a > 0
    /\ rootHash (cp_merkleProof p) <> a_rootHash a.
Proof.
  eexists. eexists. split; [vm_compute; reflexivity|].
  split; [vm_compute; reflexivity|]. split; [vm_compute; reflexivity|].
  split; [vm_compute; reflexivity|]. split; [reflexivity|].
  vm_compute. discriminate.
Qed.

(** C5 (the code departs from the claim).  [recordAnchor] inserts the
    anchor and saves the tree state as two separate steps: a stop
    between them leaves the anchor row stored while [lastAnchorIndex]
    still has its old value. *)
Theorem recordAnchor_torn_write :
  exists a,
    snd (recordAnchor s1 "t1" None 2000) = Some a
    /\ anchors (crash_after 1 (recordAnchor_writes a) (db s1)) = [a]
    /\ last_anchor_index (tree_state (crash_after 1 (recordAnchor_writes a) (db s1)))
       = Some (-1)
    /\ last_anchor_index (tree_state (crash_after 2 (recordAnchor_writes a) (db s1)))
       = Some 0.
Proof.
  eexists. split; [vm_compute; reflexivity|].
  split; [vm_compute; reflexivity|]. split; vm_compute; reflexivity.
Qed.

Lemma payload_layout_witness :
  reachable sample_sign s2_hex
  /\ 0 < leafCount (tree s2_hex)
  /\ exists payload, buildAnchorPayload s2_hex = Some payload /\ length payload = 79%nat.
Proof.
  assert (Hr : reachable sample_sign s2_hex) by (apply reach_record, reach_commit, reach_fresh).
  assert (Hn : 0 < leafCount (tree s2_hex)) by reflexivity.
  assert (Ha : exists a b, Store.getLatestAnchor s2_hex = Some a
                           /\ hexToBytes (a_txid a) = Some b /\ length b = 32%nat).
  { eexists. eexists. split; [vm_compute; reflexivity|]. split; vm_compute; reflexivity. }
  split; [exact Hr|]. split; [exact Hn|].
  destruct (payload_layout sample_sign s2_hex Hr Hn)
    as (root & rootBytes & prevBytes & _ & Hpayload & _ & _ & _ & _ & _ & _ & _ & Hlen).
  - intros l Hl. destruct Ha as (a & b & Ea & Eb & El). rewrite Ea in Hl.
    injection Hl as <-. exists b. split; assumption.
  - eexists. split; [exact Hpayload|exact Hlen].
Defined.

Lemma open_replays_leaves_witness :
  exists s, open (db s3) sample_key = Some s
            /\ tree_ok (stored_leaves (db s3)) (tree s).
Proof.
  assert (H1 : exists rows, commitments (db s3) = rows
                 /\ Forall (fun row => r_leaf_hash row = EmptyString \/ is_hex (r_leaf_hash row)) rows).
  { eexists. split; [vm_compute; reflexivity|].
    repeat (constructor; [right; split; [vm_compute; eauto|reflexivity]|]).
    constructor. }
  destruct H1 as (rows & Erows & Hrows). rewrite <- Erows in Hrows.
  destruct (open_replays_leaves (db s3) sample_key Hrows) as (s & Hopen & _ & Hok & _).
  exists s. split; [exact Hopen|exact Hok].
Defined.

End StoreFacts.

(** ** Canonicalization *)

Module JsonFacts.
Import Hex Json JsonSpec Samples.

Section JsvalInd.
Variable P : jsval -> Prop.
Hypothesis Hundef : P JUndefined.
Hypothesis Hnull : P JNull.
Hypothesis Hbool : forall b, P (JBool b).
Hypothesis Hnum : forall z, P (JNum z).
Hypothesis Hstr : forall s, P (JStr s).
Hypothesis Harr : forall items, Forall P items -> P (JArr items).
Hypothesis Hobj : forall fields, Forall (fun kv => P (snd kv)) fields -> P (JObj fields).

Fixpoint jsval_induction (v : jsval) : P v :=
  match v with
  | JUndefined => Hundef
  | JNull => Hnull
  | JBool b => Hbool b
  | JNum z => Hnum z
  | JStr s => Hstr s
  | JArr items =>
      Harr items
        ((fix go (l : list jsval) : Forall P l :=
            match l with
            | [] => @List.Forall_nil _ P
            | x :: rest => @List.Forall_cons _ P x rest (jsval_induction x) (go rest)
            end) items)
  | JObj fields =>
      Hobj fields
        ((fix go (l : list (string * jsval)) : Forall (fun kv => P (snd kv)) l :=
            match l with
            | [] => @List.Forall_nil _ (fun kv => P (snd kv))
            | kv :: rest => @List.Forall_cons _ (fun kv => P (snd kv)) kv rest (jsval_induction (snd kv)) (go rest)
            end) fields)
  end.
End JsvalInd.

(** *** The order of keys *)

Lemma leb_trans (s1 s2 s3 : string) :
  String.leb s1 s2 = true -> String.leb s2 s3 = true -> String.leb s1 s3 = true.
Proof.
  unfold String.leb. revert s2 s3.
  induction s1 as [|c1 t1 IH]; intros [|c2 t2] [|c3 t3]; cbn [String.compare];
    try reflexivity; try discriminate.
  unfold Ascii.compare.
  destruct (N.compare_spec (N_of_ascii c1) (N_of_ascii c2)) as [E12|L12|G12];
    destruct (N.compare_spec (N_of_ascii c2) (N_of_ascii c3)) as [E23|L23|G23];
    destruct (N.compare_spec (N_of_ascii c1) (N_of_ascii c3)) as [E13|L13|G13];
    try reflexivity; try discriminate; try lia.
  apply IH.
Qed.

Lemma units_compare_refl (a : list Z) : units_compare a a = Eq.
Proof.
  induction a as [|x a IH]; [reflexivity|]. cbn [units_compare].
  rewrite Z.compare_refl. exact IH.
Qed.

Lemma units_compare_eq (a b : list Z) : units_compare a b = Eq -> a = b.
Proof.
  revert b. induction a as [|x a IH]; intros [|y b]; cbn [units_compare]; try discriminate;
    [reflexivity|].
  destruct (Z.compare_spec x y) as [->| |]; try discriminate. intros H. f_equal. apply IH, H.
Qed.

Lemma units_compare_antisym (a b : list Z) :
  units_compare b a = CompOpp (units_compare a b).
Proof.
  revert b. induction a as [|x a IH]; intros [|y b]; cbn [units_compare CompOpp];
    try reflexivity.
  rewrite (Z.compare_antisym x y).
  destruct (x ?= y); cbn [CompOpp]; [apply IH|reflexivity|reflexivity].
Qed.

Lemma units_compare_trans (a b c : list Z) :
  units_compare a b = Lt -> units_compare b c = Lt -> units_compare a c = Lt.
Proof.
  revert b c. induction a as [|x a IH]; intros [|y b] [|z c]; cbn [units_compare];
    try discriminate; try reflexivity.
  destruct (Z.compare_spec x y) as [->|Hxy|]; try discriminate;
    destruct (Z.compare_spec y z) as [->|Hyz|]; try discriminate;
    try (intros _ _; reflexivity); try apply IH.
  - intros _ _. destruct (Z.compare_spec x z); [lia|reflexivity|lia].
  - intros _ _. destruct (Z.compare_spec x z); [lia|reflexivity|lia].
Qed.

#[local] Instance key_le_trans : Transitive key_le.
Proof.
  intros a b c. unfold key_le, key_leb.
  destruct (units_compare (code_units a) (code_units b)) eqn:Hab; try discriminate;
    destruct (units_compare (code_units b) (code_units c)) eqn:Hbc; try discriminate.
  - apply units_compare_eq in Hab. apply units_compare_eq in Hbc.
    rewrite Hab, Hbc, units_compare_refl. apply leb_trans.
  - apply units_compare_eq in Hab. rewrite Hab, Hbc. reflexivity.
  - apply units_compare_eq in Hbc. rewrite <- Hbc, Hab. reflexivity.
  - rewrite (units_compare_trans _ _ _ Hab Hbc). reflexivity.
Qed.

#[local] Instance key_le_total : Total key_le.
Proof.
  intros a b. unfold key_le, key_leb.
  rewrite (units_compare_antisym (code_units a) (code_units b)).
  destruct (units_compare (code_units a) (code_units b)); cbn; auto.
  apply String.leb_total.
Qed.

#[local] Instance key_le_antisym : AntiSymm (=) key_le.
Proof.
  intros a b. unfold key_le, key_leb.
  rewrite (units_compare_antisym (code_units a) (code_units b)).
  destruct (units_compare (code_units a) (code_units b)); cbn; try discriminate.
  apply String.leb_antisym.
Qed.

Lemma sort_keys_sorted (keys : list string) : StronglySorted key_le (sort_keys keys).
Proof. apply StronglySorted_merge_sort; apply _. Qed.

Lemma sort_keys_perm (keys : list string) : sort_keys keys ≡ₚ keys.
Proof. apply merge_sort_Permutation. Qed.

Lemma sort_keys_unique (k1 k2 : list string) : k1 ≡ₚ k2 -> sort_keys k1 = sort_keys k2.
Proof.
  intros H. apply (StronglySorted_unique key_le); try apply sort_keys_sorted.
  rewrite !sort_keys_perm. exact H.
Qed.

(** *** Reading a field *)

Lemma obj_get_elem (l : list (string * jsval)) (k : string) (v : jsval) :
  NoDup (map fst l) -> (k, v) ∈ l -> obj_get l k = v.
Proof.
  induction l as [|[k0 v0] l IH]; intros Hnd Hin; [inversion Hin|].
  cbn [obj_get]. cbn [map fst] in Hnd. apply NoDup_cons in Hnd as [Hk0 Hnd].
  apply elem_of_cons in Hin as [[= -> ->]|Hin].
  - rewrite String.eqb_refl. reflexivity.
  - destruct (String.eqb_spec k0 k) as [->|_]; [|apply IH; assumption].
    exfalso. apply Hk0. apply list_elem_of_fmap. exists (k, v). auto.
Qed.

Lemma obj_get_missing (l : list (string * jsval)) (k : string) :
  k ∉ map fst l -> obj_get l k = JUndefined.
Proof.
  induction l as [|[k0 v0] l IH]; intros Hk; [reflexivity|].
  cbn [obj_get]. cbn [map fst] in Hk. apply not_elem_of_cons in Hk as [Hne Hk].
  destruct (String.eqb_spec k0 k) as [->|_]; [congruence|apply IH, Hk].
Qed.

Lemma obj_get_perm (l1 l2 : list (string * jsval)) (k : string) :
  NoDup (map fst l1) -> l1 ≡ₚ l2 -> obj_get l1 k = obj_get l2 k.
Proof.
  intros Hnd Hperm.
  assert (Hnd2 : NoDup (map fst l2)) by (rewrite <- Hperm; exact Hnd).
  destruct (decide (k ∈ map fst l1)) as [Hin|Hout].
  - apply list_elem_of_fmap in Hin as ([k' v] & -> & Hin). cbn [fst].
    rewrite (obj_get_elem l1 k' v Hnd Hin).
    rewrite Hperm in Hin. rewrite (obj_get_elem l2 k' v Hnd2 Hin). reflexivity.
  - rewrite (obj_get_missing l1 k Hout).
    rewrite Hperm in Hout. rewrite (obj_get_missing l2 k Hout). reflexivity.
Qed.

(** *** Determinism *)

Lemma sorted_fields_keys (fields : list (string * jsval)) :
  map fst (sorted_fields fields) = map fst fields.
Proof. unfold sorted_fields. rewrite map_map. reflexivity. Qed.

Lemma fold_left_ext_in {A B} (f g : A -> B -> A) (l : list B) (a : A) :
  (forall a b, b ∈ l -> f a b = g a b) -> fold_left f l a = fold_left g l a.
Proof.
  revert a. induction l as [|b l IH]; intros a H; [reflexivity|].
  cbn [fold_left]. rewrite (H a b) by left. apply IH.
  intros a' b' Hb'. apply H. right. exact Hb'.
Qed.

Lemma sortObjectKeys_perm (v : jsval) : forall w, jperm v w -> sortObjectKeys v = sortObjectKeys w.
Proof.
  induction v as [| |b|z|s|items IH|fields IH] using jsval_induction;
    intros w Hvw; inversion Hvw as [v' Hatom|l1 l2 Hall|fs gs gs' Hnd Hperm Hall]; subst;
    try reflexivity; try (cbn in Hatom; contradiction).
  - cbn [sortObjectKeys]. f_equal.
    clear Hvw. revert l2 Hall. induction IH as [|x items Hx _ IHitems]; intros l2 Hall.
    + inversion Hall. reflexivity.
    + inversion Hall as [|? y ? l2' Hxy Hrest]; subst. cbn [map].
      rewrite (Hx y Hxy). f_equal. apply IHitems. exact Hrest.
  - cbn [sortObjectKeys]. fold (sorted_fields fields). fold (sorted_fields gs). f_equal.
    assert (Hdone : sorted_fields fields = sorted_fields gs').
    { clear Hvw Hperm Hnd. revert gs' Hall.
      induction IH as [|kv fields Hkv _ IHfields]; intros gs' Hall.
      - inversion Hall. reflexivity.
      - inversion Hall as [|? kv' ? gs'' [Hk Hv] Hrest]; subst. cbn [sorted_fields map].
        rewrite Hk, (Hkv _ Hv). f_equal. apply IHfields. exact Hrest. }
    assert (Hkeys : map fst gs' = map fst fields).
    { rewrite <- (sorted_fields_keys gs'), <- Hdone. apply sorted_fields_keys. }
    assert (Hsort : sort_keys (obj_keys gs) = sort_keys (obj_keys fields)).
    { apply sort_keys_unique. unfold obj_keys. rewrite Hperm, Hkeys. reflexivity. }
    rewrite Hsort. apply fold_left_ext_in. intros o k _. f_equal.
    rewrite Hdone. apply obj_get_perm.
    + rewrite sorted_fields_keys, Hkeys. exact Hnd.
    + unfold sorted_fields. apply Permutation_map. symmetry. exact Hperm.
Qed.

(** *** The order of the keys of a sorted object *)

Lemma has_key_false (o : list (string * jsval)) (key : string) :
  key ∉ map fst o -> has_key key o = false.
Proof.
  induction o as [|[k w] o IH]; intros H; [reflexivity|].
  cbn [has_key]. cbn [map fst] in H. apply not_elem_of_cons in H as [Hne H].
  destruct (String.eqb_spec k key) as [->|_]; [congruence|apply IH, H].
Qed.

Lemma insert_index_spec (n : Z) (key : string) (v : jsval) (I R : list (string * jsval)) :
  array_index key = Some n ->
  Forall (fun k => is_Some (array_index k)) (map fst I) ->
  StronglySorted index_le (map fst I) ->
  Forall (fun k => array_index k = None) (map fst R) ->
  exists I', insert_index n key v (I ++ R) = (I' ++ R)%list
             /\ Forall (fun k => is_Some (array_index k)) (map fst I')
             /\ StronglySorted index_le (map fst I')
             /\ (forall x, x ∈ I' <-> x = (key, v) \/ x ∈ I).
Proof.
  intros Hkey HI Hsorted HR.
  induction I as [|[k w] I IH].
  - exists [(key, v)]. cbn [app]. split.
    + destruct R as [|[k w] R]; [reflexivity|]. cbn [insert_index].
      cbn [map fst] in HR. apply Forall_cons in HR as [Hk _]. rewrite Hk. reflexivity.
    + cbn [map fst]. split; [constructor; [rewrite Hkey; eauto|constructor]|].
      split; [repeat constructor|]. intros x. rewrite list_elem_of_singleton.
      split; [auto|intros [?|H]; [assumption|inversion H]].
  - cbn [map fst] in HI, Hsorted. apply Forall_cons in HI as [[m Hm] HI].
    apply StronglySorted_inv in Hsorted as [Hsorted Hhd].
    cbn [app insert_index]. rewrite Hm. destruct (Z.ltb_spec m n) as [Hlt|Hge].
    + destruct (IH HI Hsorted) as (I' & E & HI' & Hs' & Hmem).
      exists ((k, w) :: I'). rewrite E. split; [reflexivity|]. cbn [map fst].
      split; [constructor; [rewrite Hm; eauto|exact HI']|]. split.
      * constructor; [exact Hs'|]. apply Forall_forall. intros x Hx.
        apply list_elem_of_fmap in Hx as ([k' v'] & -> & Hx). cbn [fst].
        apply Hmem in Hx as [[= -> ->]|Hx].
        -- unfold index_le. rewrite Hm, Hkey. lia.
        -- rewrite Forall_forall in Hhd. apply Hhd.
           apply list_elem_of_fmap. exists (k', v'). auto.
      * intros x. rewrite !elem_of_cons, Hmem. tauto.
    + exists ((key, v) :: (k, w) :: I). split; [reflexivity|]. cbn [map fst].
      split; [constructor; [rewrite Hkey; eauto|constructor; [rewrite Hm; eauto|exact HI]]|].
      split.
      * constructor; [constructor; assumption|].
        constructor; [unfold index_le; rewrite Hkey, Hm; lia|].
        apply Forall_forall. intros x Hx. rewrite Forall_forall in Hhd.
        specialize (Hhd x Hx). unfold index_le in *. rewrite Hkey. rewrite Hm in Hhd.
        destruct (array_index x); [lia|contradiction].
      * intros x. rewrite !elem_of_cons. tauto.
Qed.

Lemma obj_set_enumerated (Q : jsval -> Prop) (o : list (string * jsval)) (rk : list string)
                         (key : string) (v : jsval) :
  enumerated Q o rk -> key ∉ map fst o -> Q v ->
  enumerated Q (obj_set o key v) (rk ++ List.filter plain_key [key])
  /\ (forall k, k ∈ map fst (obj_set o key v) -> k = key \/ k ∈ map fst o).
Proof.
  intros (I & R & -> & HI & Hs & Hrk & Hnone & HQ) Hnew Hv.
  unfold obj_set, plain_key. cbn [List.filter].
  destruct (String.eqb_spec key "__proto__") as [->|Hproto]; cbn [negb andb].
  - rewrite app_nil_r. split; [|intros k Hk; right; exact Hk].
    exists I, R. do 5 (split; [assumption || reflexivity|]). assumption.
  - rewrite (has_key_false _ _ Hnew).
    destruct (array_index key) as [n|] eqn:Hkey.
    + rewrite bool_decide_eq_true_2 by eauto. cbn [negb]. rewrite app_nil_r.
      rewrite <- Hrk in Hnone.
      destruct (insert_index_spec n key v I R Hkey HI Hs Hnone) as (I' & E & HI' & Hs' & Hmem).
      rewrite E. split.
      * exists I', R. split; [reflexivity|]. split; [exact HI'|]. split; [exact Hs'|].
        split; [exact Hrk|]. split; [rewrite Hrk in Hnone; exact Hnone|].
        apply Forall_app. apply Forall_app in HQ as [HQI HQR]. split; [|exact HQR].
        apply Forall_forall. intros x Hx. apply Hmem in Hx as [->|Hx]; [exact Hv|].
        rewrite Forall_forall in HQI. apply HQI, Hx.
      * intros k Hk. apply list_elem_of_fmap in Hk as (x & -> & Hx).
        apply elem_of_app in Hx as [Hx|Hx].
        -- apply Hmem in Hx as [->|Hx]; [left; reflexivity|right].
           apply list_elem_of_fmap. exists x. split; [reflexivity|].
           apply elem_of_app. left. exact Hx.
        -- right. apply list_elem_of_fmap. exists x. split; [reflexivity|].
           apply elem_of_app. right. exact Hx.
    + rewrite bool_decide_eq_false_2 by (intros [? ?]; discriminate). cbn [negb]. split.
      * exists I, (R ++ [(key, v)])%list. split; [rewrite app_assoc; reflexivity|].
        split; [exact HI|]. split; [exact Hs|]. split; [rewrite map_app, Hrk; reflexivity|].
        split; [apply Forall_app; split; [exact Hnone|repeat constructor; exact Hkey]|].
        apply Forall_app. split; [exact HQ|repeat constructor; exact Hv].
      * intros k Hk. rewrite map_app in Hk. apply elem_of_app in Hk as [Hk|Hk]; [right; exact Hk|].
        left. cbn in Hk. apply list_elem_of_singleton in Hk. exact Hk.
Qed.

Lemma fold_obj_set_enumerated (Q : jsval -> Prop) (f : string -> jsval) (ks : list string) :
  (forall k, Q (f k)) -> NoDup ks ->
  forall (o : list (string * jsval)) (rk : list string),
    enumerated Q o rk -> (forall k, k ∈ ks -> k ∉ map fst o) ->
    enumerated Q (fold_left (fun sorted key => obj_set sorted key (f key)) ks o)
               (rk ++ List.filter plain_key ks).
Proof.
  intros Hf. induction ks as [|k ks IH]; intros Hnd o rk Henum Hnew.
  - cbn. rewrite app_nil_r. exact Henum.
  - apply NoDup_cons in Hnd as [Hk Hnd]. cbn [fold_left].
    destruct (obj_set_enumerated Q o rk k (f k) Henum (Hnew k ltac:(left)) (Hf k))
      as [Henum' Hkeys].
    replace (rk ++ List.filter plain_key (k :: ks))%list
      with ((rk ++ List.filter plain_key [k]) ++ List.filter plain_key ks)%list
      by (rewrite <- app_assoc; cbn [List.filter]; destruct (plain_key k); reflexivity).
    apply (IH Hnd); [exact Henum'|].
    intros k' Hk' Hin. apply Hkeys in Hin as [->|Hin]; [contradiction|].
    apply (Hnew k'); [right; exact Hk'|exact Hin].
Qed.

Lemma StronglySorted_filter {A} (R : relation A) (p : A -> bool) (l : list A) :
  StronglySorted R l -> StronglySorted R (List.filter p l).
Proof.
  induction 1 as [|x l Hs IH Hall]; [constructor|].
  cbn [List.filter]. destruct (p x); [|exact IH].
  constructor; [exact IH|]. rewrite Forall_forall in *. intros y Hy.
  apply Hall. apply list_elem_of_In in Hy. apply filter_In in Hy as [Hy _].
  apply list_elem_of_In. exact Hy.
Qed.

Lemma sorted_object_keys (Q : jsval -> Prop) (f : string -> jsval) (keys : list string) :
  (forall k, Q (f k)) -> NoDup keys ->
  let o := fold_left (fun sorted key => obj_set sorted key (f key)) (sort_keys keys) [] in
  js_ordered (map fst o) /\ Forall (fun kv => Q (snd kv)) o.
Proof.
  intros Hf Hnd o.
  assert (Hnd' : NoDup (sort_keys keys)) by (rewrite sort_keys_perm; exact Hnd).
  destruct (fold_obj_set_enumerated Q f (sort_keys keys) Hf Hnd' [] [])
    as (I & R & Ho & HI & Hs & Hrk & Hnone & HQ).
  { exists [], []. repeat split; constructor. }
  { intros k _ Hk. inversion Hk. }
  fold o in Ho, HQ. split; [|exact HQ].
  exists (map fst I), (map fst R). rewrite Ho, map_app.
  split; [reflexivity|]. split; [exact HI|]. split; [exact Hs|].
  rewrite Hrk. split; [exact Hnone|].
  cbn [app]. apply StronglySorted_filter, sort_keys_sorted.
Qed.

Lemma obj_get_cases (l : list (string * jsval)) (k : string) :
  obj_get l k = JUndefined \/ (k, obj_get l k) ∈ l.
Proof.
  induction l as [|[k0 v0] l IH]; [left; reflexivity|].
  cbn [obj_get]. destruct (String.eqb_spec k0 k) as [->|_].
  - right. left.
  - destruct IH as [IH|IH]; [left; exact IH|right; right; exact IH].
Qed.

Lemma all_objects_items (P : list string -> Prop) (items : list jsval) :
  fold_right (fun x acc => all_objects P x /\ acc) True items
  <-> Forall (all_objects P) items.
Proof.
  induction items as [|x items IH]; cbn [fold_right].
  - split; [constructor|trivial].
  - rewrite IH, Forall_cons. reflexivity.
Qed.

Lemma all_objects_fields (P : list string -> Prop) (fields : list (string * jsval)) :
  fold_right (fun kv acc => all_objects P (snd kv) /\ acc) True fields
  <-> Forall (fun kv => all_objects P (snd kv)) fields.
Proof.
  induction fields as [|x fields IH]; cbn [fold_right].
  - split; [constructor|trivial].
  - rewrite IH, Forall_cons. reflexivity.
Qed.

Lemma sortObjectKeys_ordered (v : jsval) :
  forall w, jperm v w -> all_objects js_ordered (sortObjectKeys v).
Proof.
  induction v as [| |b|z|s|items IH|fields IH] using jsval_induction;
    intros w Hvw; inversion Hvw as [v' Hatom|l1 l2 Hall|fs gs gs' Hnd Hperm Hall]; subst;
    try exact I; try (cbn in Hatom; contradiction).
  - cbn [sortObjectKeys all_objects]. apply all_objects_items.
    clear Hvw. revert l2 Hall. induction IH as [|x items Hx _ IHitems]; intros l2 Hall.
    + constructor.
    + inversion Hall as [|? y ? l2' Hxy Hrest]; subst. cbn [map].
      constructor; [apply (Hx y Hxy)|apply (IHitems l2' Hrest)].
  - cbn [sortObjectKeys all_objects]. fold (sorted_fields fields).
    assert (Hvals : forall k, all_objects js_ordered (obj_get (sorted_fields fields) k)).
    { intros k. destruct (obj_get_cases (sorted_fields fields) k) as [E|Hin];
        [rewrite E; exact I|].
      remember (obj_get (sorted_fields fields) k) as x eqn:Ex. clear Ex.
      unfold sorted_fields in Hin. apply list_elem_of_fmap in Hin as ([k' v'] & E & Hin).
      cbn [fst snd] in E. injection E as -> ->.
      clear Hvw Hperm Hnd. revert gs' Hall Hin.
      induction IH as [|kv fields Hkv _ IHfields]; intros gs' Hall Hin; [inversion Hin|].
      inversion Hall as [|? kv' ? gs'' [_ Hv] Hrest]; subst.
      apply elem_of_cons in Hin as [<-|Hin]; [apply (Hkv _ Hv)|].
      apply (IHfields gs'' Hrest Hin). }
    destruct (sorted_object_keys (all_objects js_ordered) (obj_get (sorted_fields fields))
                (obj_keys fields) Hvals Hnd) as [Hord HQ].
    split; [exact Hord|]. apply all_objects_fields. exact HQ.
Qed.

(** *** [canonicalizeCommitment] *)

Lemma is_undefined_sortObjectKeys (v : jsval) :
  is_undefined (sortObjectKeys v) = is_undefined v.
Proof. destruct v; reflexivity. Qed.

Lemma string_app_assoc (a b c : string) : (a +:+ b) +:+ c = a +:+ (b +:+ c).
Proof.
  induction a as [|x a IH]; [reflexivity|].
  change (String x ((a +:+ b) +:+ c) = String x (a +:+ (b +:+ c))). f_equal. exact IH.
Qed.

Lemma canonicalize_text (c : CanonInput) :
  is_undefined (ci_payload c) = false -> canonicalizeCommitment c = canonical_text c.
Proof.
  intros H. unfold canonicalizeCommitment, canonical_object, canonical_text.
  cbn [stringify flat_map snd fst is_undefined app].
  rewrite is_undefined_sortObjectKeys, H. cbn [app join].
  rewrite !string_app_assoc. reflexivity.
Qed.

Lemma all_objects_impl (P Q : list string -> Prop) (v : jsval) :
  (forall keys, P keys -> Q keys) -> all_objects P v -> all_objects Q v.
Proof.
  intros HPQ. induction v as [| |b|z|s|items IH|fields IH] using jsval_induction;
    try (intros _; exact I).
  - cbn [all_objects]. rewrite !all_objects_items. intros H.
    induction IH as [|x items Hx _ IHitems]; [constructor|].
    inversion H as [|? ? H1 H2]; subst. constructor; [apply Hx, H1|apply IHitems, H2].
  - cbn [all_objects]. rewrite !all_objects_fields. intros [HP H]. split; [apply HPQ, HP|].
    clear HP. induction IH as [|x fields Hx _ IHfields]; [constructor|].
    inversion H as [|? ? H1 H2]; subst. constructor; [apply Hx, H1|apply IHfields, H2].
Qed.

Lemma js_ordered_named (keys : list string) : js_ordered keys -> named_keys_sorted keys.
Proof.
  intros (idx & rest & -> & Hidx & _ & Hrest & Hsorted).
  unfold named_keys_sorted, named_keys. rewrite List.filter_app.
  replace (List.filter _ idx) with (@nil string).
  - cbn [app]. replace (List.filter _ rest) with rest; [exact Hsorted|].
    clear Hsorted. induction Hrest as [|k rest Hk _ IH]; [reflexivity|].
    cbn [List.filter]. rewrite bool_decide_eq_true_2 by exact Hk. f_equal. exact IH.
  - induction Hidx as [|k idx Hk _ IH]; [reflexivity|].
    cbn [List.filter]. rewrite bool_decide_eq_false_2; [exact IH|].
    intros E. rewrite E in Hk. destruct Hk; discriminate.
Qed.

(** C8 (as amended).  Two commitments with the same id, type, timestamp
    and signature whose payloads are equal up to the order of the keys
    of their objects, at any depth, have the same canonical text.  The
    text lists the keys [id], [payload], [signature], [timestamp],
    [type] in this order.  In every object of the sorted payload the
    keys that are not array indices are in ascending order of their
    UTF-16 code units. *)
Theorem canonicalize_deterministic (c1 c2 : CanonInput) :
  ci_id c1 = ci_id c2 -> ci_type c1 = ci_type c2 ->
  ci_timestamp c1 = ci_timestamp c2 -> ci_signature c1 = ci_signature c2 ->
  jperm (ci_payload c1) (ci_payload c2) ->
  canonicalizeCommitment c1 = canonicalizeCommitment c2
  /\ (is_undefined (ci_payload c1) = false -> canonicalizeCommitment c1 = canonical_text c1)
  /\ all_objects named_keys_sorted (sortObjectKeys (ci_payload c1)).
Proof.
  intros Hid Htype Hts Hsig Hperm. split; [|split].
  - unfold canonicalizeCommitment, canonical_object.
    rewrite Hid, Htype, Hts, Hsig, (sortObjectKeys_perm _ _ Hperm). reflexivity.
  - apply canonicalize_text.
  - apply (all_objects_impl js_ordered); [exact js_ordered_named|].
    apply (sortObjectKeys_ordered _ _ Hperm).
Qed.

Lemma payloads_permuted : jperm payload_a payload_b.
Proof.
  unfold payload_a, payload_b.
  eapply (jperm_obj _ _ [("subject", JStr "s"); ("content", JStr "c"); ("metadata", JObj [("a", JNum 1); ("z", JNum 3)])]).
  - apply (bool_decide_unpack _). vm_compute. exact I.
  - apply (Permutation_rev [("metadata", JObj [("a", JNum 1); ("z", JNum 3)]); ("content", JStr "c"); ("subject", JStr "s")]).
  - repeat constructor; try (apply jperm_atom; exact I).
    cbn [snd]. eapply (jperm_obj _ _ [("z", JNum 3); ("a", JNum 1)]).
    + apply (bool_decide_unpack _). vm_compute. exact I.
    + apply perm_swap.
    + repeat constructor; apply jperm_atom; exact I.
Qed.

Lemma canonicalize_deterministic_witness :
  jperm payload_a payload_b
  /\ canonicalizeCommitment (mkCanonInput "i" "custom" payload_a 5 "sg")
     = canonicalizeCommitment (mkCanonInput "i" "custom" payload_b 5 "sg").
Proof.
  split; [exact payloads_permuted|].
  destruct (canonicalize_deterministic (mkCanonInput "i" "custom" payload_a 5 "sg")
              (mkCanonInput "i" "custom" payload_b 5 "sg") eq_refl eq_refl eq_refl eq_refl
              payloads_permuted) as [H _].
  exact H.
Defined.

(** C8 as stated fails: the keys U+FF5E and U+1F600 come out with
    U+1F600 first, in the order of their code units (0xD83D comes
    before 0xFF5E), which is not the order of their code points. *)
Lemma keys_not_in_code_point_order :
  code_points key_FF5E = [65374] /\ code_points key_1F600 = [128512]
  /\ code_units key_FF5E = [65374] /\ code_units key_1F600 = [55357; 56832]
  /\ sortObjectKeys astral_obj = JObj [(key_1F600, JNum 2); (key_FF5E, JNum 1)]
  /\ ~ StronglySorted code_point_le (obj_keys [(key_1F600, JNum 2); (key_FF5E, JNum 1)]).
Proof.
  repeat (split; [vm_compute; reflexivity|]).
  intros H. inversion H as [|? ? _ Hall]; subst. inversion Hall as [|? ? Hle _]; subst.
  apply Hle. vm_compute. reflexivity.
Qed.

(** Keys that are array indices: ["10"] and ["9"] come out as ["9"],
    ["10"], the numeric order in which JavaScript enumerates them,
    which is not their order as strings. *)
Lemma index_keys_not_sorted :
  sortObjectKeys meta_idx = JObj [("9", JNum 2); ("10", JNum 1)]
  /\ String.leb "9" "10" = false
  /\ ~ Sorted key_le (obj_keys [("9", JNum 2); ("10", JNum 1)]).
Proof.
  split; [vm_compute; reflexivity|]. split; [reflexivity|].
  intros H. inversion H as [|? ? _ Hhd]; subst. inversion Hhd as [|? ? Hle]; subst.
  unfold key_le in Hle. vm_compute in Hle. discriminate.
Qed.

End JsonFacts.

(** ** The proof handler *)

Module P2pFacts.
Import Types P2p P2pSpec Samples.

(** *** One request *)

Lemma handleRequest_limited (h : ProofHandler) (request : ProofRequest) (peer : string) (now : Z) :
  let ts := List.filter (recent now) (default [] (rateLimits h !! peer)) in
  if Z.of_nat (length ts) >=? rateLimitPerMinute h
  then handleRequest h request peer now = (h, rate_limited_reply request, [])
  else exists reply calls,
         handleRequest h request peer now
         = (mkHandler (store h) (maxProofsPerRequest h) (cfg_includePublicKey h)
                      (rateLimitPerMinute h)
                      (<[ peer := (ts ++ [now])%list ]> (rateLimits h)),
            reply, calls)
         /\ is_rate_limited reply = false.
Proof.
  intros ts. unfold handleRequest, checkRateLimit. fold (recent now). fold ts.
  destruct (Z.of_nat (length ts) >=? rateLimitPerMinute h); [reflexivity|].
  cbn [negb]. destruct (validateRequest request) as [err|].
  - eexists. eexists. split; reflexivity.
  - destruct (collectProofs _ request) as [[proofs|msg] calls].
    + eexists. eexists. split; reflexivity.
    + eexists. eexists. split; reflexivity.
Qed.

(** *** Counting served requests *)

Lemma recent_mono (now now' t : Z) : now <= now' -> recent now' t = true -> recent now t = true.
Proof. unfold recent. intros H. rewrite !Z.ltb_lt. lia. Qed.

Lemma filter_recent_twice (now now' : Z) (l : list Z) :
  now <= now' ->
  List.filter (recent now') (List.filter (recent now) l) = List.filter (recent now') l.
Proof.
  intros H. induction l as [|t l IH]; [reflexivity|]. cbn [List.filter].
  destruct (recent now t) eqn:E; cbn [List.filter]; rewrite IH; [reflexivity|].
  destruct (recent now' t) eqn:E'; [|reflexivity].
  rewrite (recent_mono now now' t H E') in E. discriminate.
Qed.

Lemma times_served_app (peer : string) (a b : list Observed) :
  times_served peer (a ++ b) = (times_served peer a ++ times_served peer b)%list.
Proof. unfold times_served. rewrite List.filter_app, List.map_app. reflexivity. Qed.

Lemma served_recently_times (peer : string) (now : Z) (obs : list Observed) :
  served_recently peer now obs
  = Z.of_nat (length (List.filter (recent now) (times_served peer obs))).
Proof.
  unfold served_recently, times_served. f_equal.
  induction obs as [|o obs IH]; [reflexivity|]. cbn [List.filter].
  destruct (served o && String.eqb (ev_peer (ob_event o)) peer); cbn [andb map List.filter].
  - fold (recent now (ev_now (ob_event o))).
    destruct (recent now (ev_now (ob_event o))); cbn [length]; rewrite IH; reflexivity.
  - exact IH.
Qed.

Lemma length_filter_le {A} (p q : A -> bool) (l : list A) :
  (forall x, p x = true -> q x = true) ->
  (length (List.filter p l) <= length (List.filter q l))%nat.
Proof.
  intros H. induction l as [|x l IH]; [reflexivity|]. cbn [List.filter].
  destruct (p x) eqn:E.
  - rewrite (H x E). cbn [length]. lia.
  - destruct (q x); cbn [length]; lia.
Qed.

Lemma window_le_recent (peer : string) (from now : Z) (obs : list Observed) :
  from <= now < from + windowMs ->
  served_in_window peer from obs <= served_recently peer now obs.
Proof.
  intros H. unfold served_in_window, served_recently. apply inj_le.
  apply length_filter_le. intros o Ho.
  apply andb_true_iff in Ho as [Ho Hhi]. apply andb_true_iff in Ho as [Ho Hlo].
  rewrite Ho. cbn [andb]. apply Z.leb_le in Hlo. apply Z.ltb_lt in Hhi.
  apply Z.ltb_lt. lia.
Qed.

Lemma served_in_window_snoc (peer : string) (from : Z) (obs : list Observed) (o : Observed) :
  served_in_window peer from (obs ++ [o])
  = served_in_window peer from obs
    + (if served o && String.eqb (ev_peer (ob_event o)) peer
          && (from <=? ev_now (ob_event o)) && (ev_now (ob_event o) <? from + windowMs)
       then 1 else 0).
Proof.
  unfold served_in_window. rewrite List.filter_app, List.length_app. cbn [List.filter].
  destruct (_ && _ && _ && _); cbn [length]; lia.
Qed.

(** *** A session *)

Lemma session_step (h : ProofHandler) (pre : list Observed) (tprev : Z) (e : Event) :
  limiter_inv h pre tprev -> tprev <= ev_now e ->
  0 <= rateLimitPerMinute h -> window_ok (rateLimitPerMinute h) pre ->
  let '(h1, reply, calls) := handleRequest h (ev_request e) (ev_peer e) (ev_now e) in
  let o := mkObserved e reply calls in
  rateLimitPerMinute h1 = rateLimitPerMinute h
  /\ limiter_inv h1 (pre ++ [o]) (ev_now e)
  /\ window_ok (rateLimitPerMinute h) (pre ++ [o])
  /\ decided (rateLimitPerMinute h) pre o.
Proof.
  intros Hinv Ht Hcap Hwin.
  pose proof (handleRequest_limited h (ev_request e) (ev_peer e) (ev_now e)) as Hreq.
  cbv zeta in Hreq.
  pose proof (served_recently_times (ev_peer e) (ev_now e) pre) as Hrecent.
  rewrite <- (Hinv (ev_peer e) (ev_now e) Ht) in Hrecent.
  set (ts := List.filter (recent (ev_now e)) (default [] (rateLimits h !! ev_peer e))) in *.
  destruct (Z.geb_spec (Z.of_nat (length ts)) (rateLimitPerMinute h)) as [Hfull|Hroom].
  - rewrite Hreq. cbv zeta. split; [reflexivity|]. split; [|split].
    + intros peer now Hnow. rewrite times_served_app.
      unfold times_served at 2. cbn [List.filter served ob_reply rate_limited_reply
                                     is_rate_limited negb andb map].
      rewrite app_nil_r. apply Hinv. lia.
    + intros peer from. rewrite served_in_window_snoc.
      cbn [served ob_reply rate_limited_reply is_rate_limited negb andb].
      specialize (Hwin peer from). lia.
    + unfold decided. cbn [ob_event ob_reply ob_calls]. rewrite Hrecent.
      destruct (Z.leb_spec (rateLimitPerMinute h) (Z.of_nat (length ts))); [auto|lia].
  - destruct Hreq as (reply & calls & -> & Hreply). cbv zeta.
    assert (Hserved : served (mkObserved e reply calls) = true)
      by (unfold served; cbn [ob_reply]; rewrite Hreply; reflexivity).
    split; [reflexivity|]. split; [|split].
    + intros peer now Hnow. rewrite times_served_app. cbn [rateLimits].
      unfold times_served at 2. cbn [List.filter]. rewrite Hserved. cbn [andb ob_event].
      destruct (String.eqb_spec (ev_peer e) peer) as [<-|Hne].
      * rewrite lookup_insert_eq. cbn [from_option id map].
        rewrite !List.filter_app. f_equal.
        unfold ts. rewrite filter_recent_twice by exact Hnow. apply Hinv. lia.
      * rewrite lookup_insert_ne by exact Hne. cbn [map]. rewrite app_nil_r.
        apply Hinv. lia.
    + intros peer from. rewrite served_in_window_snoc. rewrite Hserved. cbn [andb ob_event].
      specialize (Hwin peer from).
      destruct (String.eqb_spec (ev_peer e) peer) as [<-|Hne]; cbn [andb]; [|lia].
      destruct (Z.leb_spec from (ev_now e)); cbn [andb]; [|lia].
      destruct (Z.ltb_spec (ev_now e) (from + windowMs)); [|lia].
      pose proof (window_le_recent (ev_peer e) from (ev_now e) pre ltac:(lia)). lia.
    + unfold decided. cbn [ob_event]. rewrite Hrecent.
      destruct (Z.leb_spec (rateLimitPerMinute h) (Z.of_nat (length ts))); [lia|exact Hserved].
Qed.

Lemma session_spec (events : list Event) :
  forall (h : ProofHandler) (pre : list Observed) (tprev : Z),
    limiter_inv h pre tprev ->
    0 <= rateLimitPerMinute h -> window_ok (rateLimitPerMinute h) pre ->
    StronglySorted Z.le (tprev :: map ev_now events) ->
    window_ok (rateLimitPerMinute h) (pre ++ snd (session h events))
    /\ (forall before o after,
          snd (session h events) = (before ++ o :: after)%list ->
          decided (rateLimitPerMinute h) (pre ++ before) o)
    /\ map ob_event (snd (session h events)) = events.
Proof.
  induction events as [|e events IH]; intros h pre tprev Hinv Hcap Hwin Hsorted.
  - cbn. rewrite app_nil_r. split; [exact Hwin|]. split; [|reflexivity].
    intros before o after E. destruct before; discriminate.
  - cbn [map] in Hsorted. apply StronglySorted_inv in Hsorted as [Hsorted Hhd].
    assert (Ht : tprev <= ev_now e) by (apply Forall_cons in Hhd as [H _]; exact H).
    pose proof (session_step h pre tprev e Hinv Ht Hcap Hwin) as Hstep.
    cbn [session].
    destruct (handleRequest h (ev_request e) (ev_peer e) (ev_now e)) as [[h1 reply] calls].
    destruct Hstep as (Hcap1 & Hinv1 & Hwin1 & Hdec).
    specialize (IH h1 (pre ++ [mkObserved e reply calls])%list (ev_now e) Hinv1).
    rewrite Hcap1 in IH. specialize (IH Hcap Hwin1 Hsorted).
    destruct (session h1 events) as [h2 obs]. cbn [snd] in *.
    destruct IH as (Hwin2 & Hdec2 & Hev).
    rewrite <- app_assoc in Hwin2. cbn [app] in Hwin2.
    split; [exact Hwin2|]. split; [|cbn [map ob_event]; rewrite Hev; reflexivity].
    intros [|o' before] o after E; cbn [app] in E; injection E as <- E.
    + rewrite app_nil_r. exact Hdec.
    + specialize (Hdec2 before o after E). rewrite <- app_assoc in Hdec2. exact Hdec2.
Qed.

Lemma limiter_inv_initial (h : ProofHandler) (tprev : Z) :
  rateLimits h = ∅ -> limiter_inv h [] tprev.
Proof. intros E peer now _. rewrite E, lookup_empty. reflexivity. Qed.

Lemma window_ok_nil (cap : Z) : 0 <= cap -> window_ok cap [].
Proof. intros H peer from. exact H. Qed.

Lemma sorted_with_head (events : list Event) :
  Sorted Z.le (map ev_now events) ->
  exists tprev, StronglySorted Z.le (tprev :: map ev_now events).
Proof.
  intros H. apply Sorted_StronglySorted in H; [|intros a b c; lia].
  destruct events as [|e events].
  - exists 0. repeat constructor.
  - exists (ev_now e). constructor; [exact H|]. cbn [map].
    constructor; [lia|]. apply StronglySorted_inv in H as [_ H]. exact H.
Qed.

(** C9.  A handler that has served nothing yet, with a cap [N >= 0],
    receives requests at times that do not decrease.  Then no peer has
    more than [N] of its requests served at times within any window of
    60 s; a request that arrives when [N] or more requests of its peer
    were served in the 60 s before it is answered with the
    [RATE_LIMITED] error and no call is made on the store; and a
    request that arrives when fewer were served is served. *)
Theorem rate_limit (h : ProofHandler) (events : list Event) :
  rateLimits h = ∅ ->
  0 <= rateLimitPerMinute h ->
  Sorted Z.le (map ev_now events) ->
  map ob_event (snd (session h events)) = events
  /\ (forall peer from,
        served_in_window peer from (snd (session h events)) <= rateLimitPerMinute h)
  /\ (forall before o after,
        snd (session h events) = (before ++ o :: after)%list ->
        (rateLimitPerMinute h
           <= served_recently (ev_peer (ob_event o)) (ev_now (ob_event o)) before ->
         ob_reply o = rate_limited_reply (ev_request (ob_event o)) /\ ob_calls o = [])
        /\ (served_recently (ev_peer (ob_event o)) (ev_now (ob_event o)) before
              < rateLimitPerMinute h ->
            served o = true)).
Proof.
  intros Hempty Hcap Hsorted.
  destruct (sorted_with_head events Hsorted) as [tprev Hs].
  destruct (session_spec events h [] tprev (limiter_inv_initial h tprev Hempty) Hcap
              (window_ok_nil _ Hcap) Hs) as (Hwin & Hdec & Hev).
  cbn [app] in Hwin. split; [exact Hev|]. split; [exact Hwin|].
  intros before o after E. specialize (Hdec before o after E). cbn [app] in Hdec.
  unfold decided in Hdec.
  destruct (Z.leb_spec (rateLimitPerMinute h)
              (served_recently (ev_peer (ob_event o)) (ev_now (ob_event o)) before));
    split; intros; try lia; exact Hdec.
Qed.

(** With a cap of 2 the first two requests reach the store and the
    third is answered [RATE_LIMITED] without a store call. *)
Lemma rate_limit_witness :
  map (fun o => (served o, ob_calls o))
      (snd (session (newHandler sample_api None None (Some 2)) three_requests))
  = [ (true, [CallQuery (mkCommitmentQuery (Some "agreement") None None None None (Some 50));
              CallGetPublicKey]);
      (true, [CallQuery (mkCommitmentQuery (Some "agreement") None None None None (Some 50));
              CallGetPublicKey]);
      (false, []) ]
  /\ forall peer from,
       served_in_window peer from
         (snd (session (newHandler sample_api None None (Some 2)) three_requests)) <= 2.
Proof.
  split; [vm_compute; reflexivity|].
  apply (rate_limit (newHandler sample_api None None (Some 2)) three_requests).
  - reflexivity.
  - vm_compute. discriminate.
  - repeat constructor; vm_compute; discriminate.
Defined.

End P2pFacts.

(** ** The Merkle tree: proof size, the root, stored nodes *)

Module MerkleProps.
Import Hex Merkle MerkleSpec HexFacts MerkleFacts.

(** *** The size of a proof *)

Lemma length_proofLoop (fuel : nat) :
  forall (level c : Z) (t : MerkleTree), length (proofLoop fuel level c t) = fuel.
Proof.
  induction fuel as [|fuel IH]; intros level c t; [reflexivity|].
  cbn [proofLoop length]. rewrite IH. reflexivity.
Qed.

(** X1. [generateProof]: a proof that is produced has exactly [getHeight()]
    siblings, one per level below the root, and that number [k] is the
    least one with [leafCount <= 2^k]: a proof over [n] leaves holds
    [ceil(log2 n)] hashes, whatever the leaf. *)
Theorem proof_length (t : MerkleTree) (i : Z) (p : MerkleProof) :
  generateProof t i = Some p ->
  let k := Z.of_nat (length (siblings p)) in
  k = getHeight t
  /\ leafCount t <= 2 ^ k
  /\ (0 < k -> 2 ^ (k - 1) < leafCount t).
Proof.
  unfold generateProof, leafCount.
  destruct (Z.ltb_spec i 0); [discriminate|].
  destruct (Z.geb_spec i (_leafCount t)); [discriminate|]. cbn [orb].
  destruct (getRoot t) as [root|]; [|discriminate].
  destruct (negb (truthy root)); [discriminate|].
  destruct (getLevel t 0 !! i) as [lh|]; [|discriminate].
  destruct (negb (truthy lh)); [discriminate|].
  intros [= <-]. cbn [siblings]. rewrite length_proofLoop.
  pose proof (height_nonneg (_leafCount t)) as Hh.
  rewrite getHeight_height. rewrite Z2Nat.id by exact Hh.
  split; [reflexivity|]. split; [apply height_bound|].
  unfold height in *. destruct (Z.leb_spec (_leafCount t) 1); [lia|].
  intros _. replace (Z.log2_up (_leafCount t) - 1) with (Z.pred (Z.log2_up (_leafCount t))) by lia.
  apply Z.log2_up_spec. lia.
Qed.

Lemma proof_length_witness :
  exists p, generateProof (appendEach Merkle.empty Samples.three_leaves) 2 = Some p
            /\ Z.of_nat (length (siblings p)) = 2.
Proof.
  assert (E : exists p, generateProof (appendEach Merkle.empty Samples.three_leaves) 2 = Some p)
    by (eexists; vm_compute; reflexivity).
  destruct E as [p E]. exists p. split; [exact E|].
  destruct (proof_length _ _ _ E) as [-> _]. reflexivity.
Defined.

(** *** The root *)

(** X2. [addLeaf], [addLeafHash], [getRoot]: after appending any non-empty
    sequence of leaves to an empty tree (hashes handed to [addLeafHash]
    being hexadecimal text), every append returns and [getRoot] is the
    top node of the ideal tree over the leaf hashes, in which a node
    whose right child is missing is paired with itself. *)
Theorem root_is_merkle_root (xs : list LeafInput) :
  xs <> [] ->
  (forall h, In (LeafHash h) xs -> is_hex h) ->
  exists (t : MerkleTree) (root : string),
    appendAll Merkle.empty xs = Some t
    /\ getRoot t = Some root
    /\ node (map leaf_hash xs) (Z.to_nat (height (Z.of_nat (length xs)))) 0 = Some root.
Proof.
  intros Hne Hhex.
  assert (Hall : Forall (fun x => is_hex (leaf_hash x)) xs).
  { apply Forall_forall. intros [data|h] Hin; cbn [leaf_hash].
    - apply leaf_hash_data_hex.
    - apply Hhex, list_elem_of_In, Hin. }
  destruct (appendAll_returns xs [] Merkle.empty tree_ok_empty ltac:(constructor) Hall)
    as [t Hrun].
  assert (Htr : Forall (fun x => truthy (leaf_hash x) = true) xs).
  { eapply Forall_impl; [exact Hall|]. intros x Hx. apply is_hex_truthy, Hx. }
  pose proof (appendAll_ok xs [] Merkle.empty t tree_ok_empty Htr Hrun) as Hok.
  cbn [app] in Hok.
  assert (Hn : 0 < Z.of_nat (length (map leaf_hash xs))).
  { rewrite length_map. destruct xs; [congruence|simpl; lia]. }
  pose proof (root_is_top _ t Hok Hn) as Hroot. rewrite length_map in Hroot.
  destruct (ok_defined _ _ Hok (Z.to_nat (height (Z.of_nat (length (map leaf_hash xs))))) 0)
    as [root Hr].
  - pose proof (height_nonneg (Z.of_nat (length (map leaf_hash xs)))). lia.
  - lia.
  - lia.
  - rewrite length_map in Hr. exists t, root. rewrite Hroot. auto.
Qed.

Lemma root_is_merkle_root_witness :
  exists (t : MerkleTree) (root : string),
    appendAll Merkle.empty Samples.three_leaves = Some t
    /\ getRoot t = Some root
    /\ node (map leaf_hash Samples.three_leaves) 2 0 = Some root.
Proof.
  apply (root_is_merkle_root Samples.three_leaves).
  - discriminate.
  - intros h [E|[E|[E|[]]]]; inversion E; subst.
    split; [vm_compute; eauto|reflexivity].
Defined.

(** *** Repeating the last leaf *)

Lemma node_dup_last (hs : list string) (x : string) (m : Z) :
  Z.of_nat (length (hs ++ [x])) = 2 * m + 1 ->
  forall (l : nat) (i : Z),
    node ((hs ++ [x]) ++ [x]) (S l) i = node (hs ++ [x]) (S l) i.
Proof.
  intros Hlen. induction l as [|l IH]; intros i.
  - cbn [node]. rewrite !(zlookup_snoc (hs ++ [x])).
    destruct (decide (2 * i = Z.of_nat (length (hs ++ [x])))) as [E|_]; [lia|].
    destruct (decide (2 * i + 1 = Z.of_nat (length (hs ++ [x])))) as [E|_]; [|reflexivity].
    assert (Hi : 2 * i = Z.of_nat (length hs)) by (rewrite length_app in E; simpl in E; lia).
    rewrite (zlookup_snoc hs), decide_True by exact Hi.
    rewrite (zlookup_None (hs ++ [x]) (2 * i + 1)) by lia. reflexivity.
  - change (node ((hs ++ [x]) ++ [x]) (S (S l)) i)
      with (match node ((hs ++ [x]) ++ [x]) (S l) (2 * i) with
            | None => None
            | Some a =>
                match node ((hs ++ [x]) ++ [x]) (S l) (2 * i + 1) with
                | Some b => hashInternal a b
                | None => hashInternal a a
                end
            end).
    rewrite !IH. reflexivity.
Qed.

Lemma height_odd_succ (m : Z) : 1 <= m -> height (2 * m + 1 + 1) = height (2 * m + 1).
Proof.
  intros Hm. set (n := 2 * m + 1). unfold height.
  destruct (Z.leb_spec (n + 1) 1); [lia|]. destruct (Z.leb_spec n 1); [lia|].
  pose proof (Z.log2_up_spec n ltac:(lia)) as [Hlo Hhi].
  assert (Hk : 2 <= Z.log2_up n).
  { destruct (Z_lt_ge_dec (Z.log2_up n) 2) as [Hlt|]; [|lia].
    assert (2 ^ Z.log2_up n <= 2 ^ 1) by (apply Z.pow_le_mono_r; lia).
    change (2 ^ 1) with 2 in *. lia. }
  apply Z.log2_up_unique; [lia|]. split; [lia|].
  assert (Hpow : 2 ^ Z.log2_up n = 2 * 2 ^ Z.pred (Z.log2_up n)).
  { rewrite <- Z.pow_succ_r by lia. f_equal. lia. }
  lia.
Qed.

(** X3. [rebuildPath], [hashSingle]: a tree with an odd number [2m+1 >= 3] of
    leaves has the same root as the tree with [2m+2] leaves whose last
    leaf repeats the one before it; the root does not tell the two leaf
    counts apart. *)
Theorem duplicate_last_leaf_same_root (xs : list LeafInput) (x : LeafInput) (m : nat) :
  (forall h, In (LeafHash h) (xs ++ [x]) -> is_hex h) ->
  (1 <= m)%nat -> length xs = (2 * m)%nat ->
  exists (t t' : MerkleTree) (root : string),
    appendAll Merkle.empty (xs ++ [x]) = Some t
    /\ appendAll t [LeafHash (leaf_hash x)] = Some t'
    /\ leafCount t = Z.of_nat (2 * m + 1)
    /\ leafCount t' = Z.of_nat (2 * m + 2)
    /\ getRoot t = Some root
    /\ getRoot t' = Some root.
Proof.
  intros Hhex Hm Hlen.
  assert (Hall : Forall (fun y => is_hex (leaf_hash y)) (xs ++ [x])).
  { apply Forall_forall. intros [data|h] Hin; cbn [leaf_hash].
    - apply leaf_hash_data_hex.
    - apply Hhex, list_elem_of_In, Hin. }
  assert (Hx : is_hex (leaf_hash x)).
  { apply Forall_app in Hall as [_ Hx]. inversion Hx; assumption. }
  destruct (appendAll_returns (xs ++ [x]) [] Merkle.empty tree_ok_empty ltac:(constructor) Hall)
    as [t Hrun].
  assert (Htr : Forall (fun y => truthy (leaf_hash y) = true) (xs ++ [x])).
  { eapply Forall_impl; [exact Hall|]. intros y Hy. apply is_hex_truthy, Hy. }
  pose proof (appendAll_ok _ [] Merkle.empty t tree_ok_empty Htr Hrun) as Hok.
  cbn [app] in Hok. rewrite map_app in Hok. cbn [map] in Hok.
  set (hs := map leaf_hash xs) in *.
  assert (Hhs : Forall is_hex (hs ++ [leaf_hash x])).
  { replace (hs ++ [leaf_hash x])%list with (map leaf_hash (xs ++ [x]))
      by (rewrite map_app; reflexivity).
    apply Forall_fmap. exact Hall. }
  destruct (appendAll_returns [LeafHash (leaf_hash x)] _ t Hok Hhs) as [t' Hrun'].
  { constructor; [exact Hx|constructor]. }
  pose proof (appendAll_ok [LeafHash (leaf_hash x)] _ t t' Hok
                ltac:(constructor; [apply is_hex_truthy, Hx|constructor]) Hrun') as Hok'.
  cbn [map leaf_hash] in Hok'.
  assert (Hn : Z.of_nat (length (hs ++ [leaf_hash x])) = 2 * Z.of_nat m + 1).
  { rewrite length_app. unfold hs. rewrite length_map, Hlen. simpl length. lia. }
  assert (Hn' : Z.of_nat (length ((hs ++ [leaf_hash x]) ++ [leaf_hash x]))
                = 2 * Z.of_nat m + 1 + 1).
  { rewrite length_app, Nat2Z.inj_add, Hn. reflexivity. }
  pose proof (root_is_top _ t Hok ltac:(lia)) as Hroot.
  pose proof (root_is_top _ t' Hok' ltac:(lia)) as Hroot'.
  rewrite Hn in Hroot. rewrite Hn', height_odd_succ in Hroot' by lia.
  assert (Hh : exists k, Z.to_nat (height (2 * Z.of_nat m + 1)) = S k).
  { assert (1 <= height (2 * Z.of_nat m + 1)).
    { apply height_ge; [lia|]. change (2 ^ 1) with 2. lia. }
    exists (Z.to_nat (height (2 * Z.of_nat m + 1) - 1)). lia. }
  destruct Hh as [k Hk]. rewrite Hk in Hroot, Hroot'.
  rewrite (node_dup_last hs (leaf_hash x) (Z.of_nat m) Hn) in Hroot'.
  destruct (ok_defined _ _ Hok (S k) 0) as [root Hr].
  { rewrite <- Hk, Hn. pose proof (height_nonneg (2 * Z.of_nat m + 1)). lia. }
  { lia. }
  { lia. }
  exists t, t', root. split; [exact Hrun|]. split; [exact Hrun'|].
  unfold leafCount. rewrite (ok_count _ _ Hok), (ok_count _ _ Hok'), Hn, Hn'.
  split; [lia|]. split; [lia|]. rewrite Hroot, Hroot'. auto.
Qed.

Lemma duplicate_last_leaf_same_root_witness :
  exists (t t' : MerkleTree) (root : string),
    appendAll Merkle.empty Samples.three_leaves = Some t
    /\ appendAll t [LeafHash (hashLeaf "leaf 3")] = Some t'
    /\ leafCount t = 3 /\ leafCount t' = 4
    /\ getRoot t = Some root /\ getRoot t' = Some root.
Proof.
  apply (duplicate_last_leaf_same_root
           [LeafData "leaf 1";
            LeafHash "ba7816bf8f01cfea414140de5dae2223b00361a396177a9cb410ff61f20015ad"]
           (LeafData "leaf 3") 1%nat).
  - intros h [E|[E|[E|[]]]]; inversion E; subst.
    split; [vm_compute; eauto|reflexivity].
  - lia.
  - reflexivity.
Defined.

(** *** When [verifyProof] throws *)

Lemma string_pair_ind (P : string -> Prop) :
  P EmptyString -> (forall c, P (String c EmptyString)) ->
  (forall c1 c2 s, P s -> P (String c1 (String c2 s))) ->
  forall s, P s.
Proof.
  intros H0 H1 H2.
  assert (H : forall s, P s /\ forall c, P (String c s)).
  { induction s as [|c s [IH1 IH2]]; [split; [exact H0|exact H1]|].
    split; [apply IH2|]. intros c'. apply H2. exact IH1. }
  intros s. apply H.
Qed.

Lemma hexToBytes_Some (s : string) :
  is_Some (hexToBytes s) <-> Nat.even (String.length s) = true /\ all_hex s = true.
Proof.
  induction s as [|c|c1 c2 s IH] using string_pair_ind.
  - cbn. split; [auto|eauto].
  - cbn. split; [intros [? ?]; discriminate|intros [? _]; discriminate].
  - cbn [hexToBytes String.length Nat.even all_hex]. unfold hex_char.
    destruct (asciiToBase16 c1); [|split; [intros [? ?]; discriminate|intros [_ ?]; discriminate]].
    destruct (asciiToBase16 c2); [|split; [intros [? ?]; discriminate|intros [_ ?]; discriminate]].
    cbn [andb]. rewrite <- IH.
    destruct (hexToBytes s); split; eauto; intros [? ?]; discriminate.
Qed.

Lemma length_string_app (a b : string) :
  String.length (a +:+ b) = (String.length a + String.length b)%nat.
Proof.
  induction a as [|c a IH]; [reflexivity|].
  change (S (String.length (a +:+ b)) = S (String.length a + String.length b)).
  f_equal. exact IH.
Qed.

Lemma all_hex_app (a b : string) : all_hex (a +:+ b) = all_hex a && all_hex b.
Proof.
  induction a as [|c a IH]; [reflexivity|].
  change (hex_char c && all_hex (a +:+ b) = hex_char c && all_hex a && all_hex b).
  rewrite IH, andb_assoc. reflexivity.
Qed.

Lemma hexToBytes_app_Some (a b : string) :
  is_Some (hexToBytes a) ->
  (is_Some (hexToBytes (a +:+ b)) <-> is_Some (hexToBytes b))
  /\ (is_Some (hexToBytes (b +:+ a)) <-> is_Some (hexToBytes b)).
Proof.
  rewrite !hexToBytes_Some, !length_string_app, !all_hex_app, !Nat.even_add.
  intros [-> ->]. rewrite andb_true_r. cbn [andb].
  destruct (Nat.even (String.length b)); cbn; tauto.
Qed.

Lemma hashInternal_Some (l r : string) :
  is_Some (hashInternal l r) <-> is_Some (hexToBytes (l +:+ r)).
Proof.
  unfold hashInternal. destruct (hexToBytes (l +:+ r)); split; eauto; intros [? ?]; discriminate.
Qed.

Lemma foldSiblings_Some (sibs : list ProofSibling) :
  forall cur : string,
    is_Some (hexToBytes cur) ->
    (is_Some (foldSiblings cur sibs)
     <-> Forall (fun s => is_Some (hexToBytes (js_string (hash s)))) sibs).
Proof.
  induction sibs as [|s sibs IH]; intros cur Hcur.
  - cbn. split; [constructor|eauto].
  - cbn [foldSiblings]. rewrite Forall_cons.
    destruct (hexToBytes_app_Some cur (js_string (hash s)) Hcur) as [Hr Hl].
    set (next := match position s with
                 | left => hashInternal (js_string (hash s)) cur
                 | right => hashInternal cur (js_string (hash s))
                 end).
    assert (Hnext : is_Some next <-> is_Some (hexToBytes (js_string (hash s)))).
    { unfold next. destruct (position s); rewrite hashInternal_Some; assumption. }
    assert (Hdig : forall v, next = Some v -> is_Some (hexToBytes v)).
    { intros v Hv. unfold next in Hv.
      destruct (position s); apply hashInternal_digest, digest_is_hex in Hv; apply Hv. }
    destruct next as [v|].
    + rewrite (IH v (Hdig v eq_refl)). split; [intros H; split; [apply Hnext; eauto|exact H]|tauto].
    + split; [intros [? ?]; discriminate|]. intros [H _]. apply Hnext in H as [? ?]. discriminate.
Qed.

(** X4. [verifyProof]: when the leaf hash of the proof is hexadecimal text,
    the call throws exactly when some sibling hash is not (odd length or
    a character that is no hexadecimal digit); otherwise it returns a
    boolean. *)
Theorem verifyProof_throws_iff (p : MerkleProof) :
  is_Some (hexToBytes (leafHash p)) ->
  (verifyProof p = None
   <-> exists s, s ∈ siblings p /\ hexToBytes (js_string (hash s)) = None).
Proof.
  intros Hleaf. unfold verifyProof.
  pose proof (foldSiblings_Some (siblings p) (leafHash p) Hleaf) as H.
  destruct (foldSiblings (leafHash p) (siblings p)) as [v|].
  - split; [discriminate|]. intros (s & Hs & Hnone).
    assert (Hall : Forall (fun s => is_Some (hexToBytes (js_string (hash s)))) (siblings p))
      by (apply H; eauto).
    rewrite Forall_forall in Hall. destruct (Hall s Hs) as [? E]. congruence.
  - split; [|reflexivity]. intros _.
    destruct (decide (Forall (fun s => is_Some (hexToBytes (js_string (hash s)))) (siblings p)))
      as [Hall|Hnot].
    + apply H in Hall as [? ?]. discriminate.
    + apply not_Forall_Exists in Hnot; [|intros s; apply _].
      apply Exists_exists in Hnot as (s & Hs & Hns). exists s. split; [exact Hs|].
      destruct (hexToBytes (js_string (hash s))) eqn:E; [|reflexivity].
      exfalso. apply Hns. rewrite E. eauto.
Qed.

Lemma verifyProof_throws_iff_witness :
  verifyProof (mkProof "00" 0 [mkSibling None right] "00") = None.
Proof.
  apply (verifyProof_throws_iff (mkProof "00" 0 [mkSibling None right] "00")).
  - vm_compute. eauto.
  - exists (mkSibling None right). split; [left|reflexivity].
Defined.

Lemma sortInsert_perm (n : TreeNode) (l : list TreeNode) : sortInsert n l ≡ₚ n :: l.
Proof.
  induction l as [|m l IH]; [reflexivity|]. cbn [sortInsert].
  destruct (compareNodes n m <=? 0); [reflexivity|].
  rewrite IH. apply perm_swap.
Qed.

Lemma sortNodes_perm (ns : list TreeNode) : sortNodes ns ≡ₚ ns.
Proof.
  induction ns as [|n ns IH]; [reflexivity|]. cbn [sortNodes fold_right].
  fold (sortNodes ns). rewrite sortInsert_perm, IH. reflexivity.
Qed.

Lemma length_filter_perm {A} (p : A -> bool) (l1 l2 : list A) :
  l1 ≡ₚ l2 -> length (List.filter p l1) = length (List.filter p l2).
Proof.
  induction 1 as [|x l1 l2 _ IH|x y l|l1 l2 l3 _ IH1 _ IH2]; cbn [List.filter].
  - reflexivity.
  - destruct (p x); cbn [length]; rewrite IH; reflexivity.
  - destruct (p x), (p y); reflexivity.
  - rewrite IH1. exact IH2.
Qed.

Lemma setNodes_leafCount (ns : list TreeNode) :
  forall t, _leafCount (setNodes ns t) = _leafCount t.
Proof.
  induction ns as [|n ns IH]; intros t; [reflexivity|].
  cbn [setNodes fold_left]. fold (setNodes ns). rewrite IH. reflexivity.
Qed.

Lemma setNodes_other (ns : list TreeNode) (l i : Z) :
  forall t,
    (forall n, n ∈ ns -> ~ (n_level n = l /\ n_index n = i)) ->
    getLevel (setNodes ns t) l !! i = getLevel t l !! i.
Proof.
  induction ns as [|n ns IH]; intros t Hno; [reflexivity|].
  cbn [setNodes fold_left]. fold (setNodes ns).
  rewrite IH by (intros n' Hn'; apply Hno; right; exact Hn').
  rewrite getLevel_setNode. rewrite decide_False; [reflexivity|].
  apply Hno. left.
Qed.

Lemma setNodes_same (ns : list TreeNode) (l i : Z) (h : string) :
  forall t,
    (forall n, n ∈ ns -> n_level n = l -> n_index n = i -> n_hash n = h) ->
    (getLevel t l !! i = Some h \/ exists n, n ∈ ns /\ n_level n = l /\ n_index n = i) ->
    getLevel (setNodes ns t) l !! i = Some h.
Proof.
  induction ns as [|n ns IH]; intros t Hall Hsome.
  - destruct Hsome as [H|(n & Hn & _)]; [exact H|inversion Hn].
  - cbn [setNodes fold_left]. fold (setNodes ns).
    apply IH; [intros n' Hn'; apply Hall; right; exact Hn'|].
    rewrite getLevel_setNode.
    destruct (decide (n_level n = l /\ n_index n = i)) as [[Hl Hi]|Hne].
    + left. f_equal. apply Hall; [left|exact Hl|exact Hi].
    + destruct Hsome as [H|(n' & Hn' & Hl & Hi)]; [left; exact H|].
      apply elem_of_cons in Hn' as [->|Hn']; [tauto|].
      right. exists n'. auto.
Qed.

Lemma elem_of_getAllNodes (t : MerkleTree) (n : TreeNode) :
  n ∈ getAllNodes t <-> getLevel t (n_level n) !! n_index n = Some (n_hash n).
Proof.
  unfold getAllNodes, getLevel. rewrite list_elem_of_bind. split.
  - intros ([l m] & Hn & Hlm). apply elem_of_map_to_list in Hlm.
    apply list_elem_of_fmap in Hn as ([i h] & -> & Hih). apply elem_of_map_to_list in Hih.
    cbn [fst snd n_level n_index n_hash]. rewrite Hlm. exact Hih.
  - intros H. destruct (nodes t !! n_level n) as [m|] eqn:Hm; cbn [from_option id] in H;
      [|rewrite lookup_empty in H; discriminate].
    exists (n_level n, m). split; [|apply elem_of_map_to_list; exact Hm].
    apply list_elem_of_fmap. exists (n_index n, n_hash n). cbn [fst snd].
    split; [destruct n; reflexivity|]. apply elem_of_map_to_list. exact H.
Qed.

Lemma fromNodes_lookup (t : MerkleTree) (l i : Z) :
  getLevel (fromNodes (getAllNodes t)) l !! i = getLevel t l !! i.
Proof.
  unfold fromNodes. fold (setNodes (sortNodes (getAllNodes t))).
  set (t0 := mkTree _ _).
  destruct (getLevel t l !! i) as [h|] eqn:Hlook.
  - apply setNodes_same.
    + intros n Hn Hl Hi. rewrite sortNodes_perm in Hn. apply elem_of_getAllNodes in Hn.
      rewrite Hl, Hi in Hn. congruence.
    + right. exists (mkNode l i h). split; [|split; reflexivity].
      rewrite sortNodes_perm. apply elem_of_getAllNodes. exact Hlook.
  - rewrite setNodes_other.
    + unfold getLevel, t0, Merkle.empty. cbn [nodes].
      destruct (decide (l = 0)) as [->|Hne].
      * rewrite lookup_singleton_eq. reflexivity.
      * rewrite lookup_singleton_ne by congruence. reflexivity.
    + intros n Hn [Hl Hi]. rewrite sortNodes_perm in Hn. apply elem_of_getAllNodes in Hn.
      rewrite Hl, Hi in Hn. congruence.
Qed.

Lemma length_filter_level (L : list (Z * gmap Z string)) :
  NoDup L.*1 ->
  length (List.filter (fun n => n_level n =? 0)
            (L ≫= (fun lm => (fun ih => mkNode (fst lm) (fst ih) (snd ih)) <$> map_to_list (snd lm))))
  = size (default ∅ (list_to_map (M:=gmap Z (gmap Z string)) L !! 0)).
Proof.
  induction L as [|[l m] L IH]; intros Hnd; [reflexivity|].
  cbn [fmap list_fmap fst] in Hnd. apply NoDup_cons in Hnd as [Hl Hnd].
  cbn [mbind list_bind fst snd]. rewrite List.filter_app, length_app, (IH Hnd).
  cbn [list_to_map foldr uncurry fst snd]. (* insert l m ... *)
  destruct (decide (l = 0)) as [->|Hne].
  - rewrite lookup_insert_eq. cbn [from_option id].
    rewrite (not_elem_of_list_to_map_1 L 0 Hl). cbn [from_option id]. rewrite map_size_empty.
    rewrite Nat.add_0_r.
    rewrite <- (length_map_to_list m).
    generalize (map_to_list m). intros ihs.
    induction ihs as [|ih ihs IHi]; [reflexivity|].
    cbn [fmap list_fmap List.filter n_level]. cbn. f_equal. exact IHi.
  - rewrite lookup_insert_ne by exact Hne.
    replace (length (List.filter _ _)) with 0%nat; [reflexivity|].
    generalize (map_to_list m). intros ihs.
    induction ihs as [|ih ihs IHi]; [reflexivity|].
    cbn [fmap list_fmap List.filter n_level].
    destruct (Z.eqb_spec l 0); [contradiction|]. exact IHi.
Qed.

Lemma fromNodes_leafCount (t : MerkleTree) :
  leafCount (fromNodes (getAllNodes t)) = Z.of_nat (size (getLevel t 0)).
Proof.
  unfold fromNodes, leafCount. fold (setNodes (sortNodes (getAllNodes t))).
  rewrite setNodes_leafCount. cbn [_leafCount]. f_equal.
  rewrite (length_filter_perm _ _ _ (sortNodes_perm (getAllNodes t))).
  unfold getAllNodes. rewrite length_filter_level by apply NoDup_fst_map_to_list.
  rewrite list_to_map_to_list. reflexivity.
Qed.

Lemma size_zlookup {A} (hs : list A) :
  forall m : gmap Z A, (forall i, m !! i = zlookup hs i) -> size m = length hs.
Proof.
  induction hs as [|x hs IH] using rev_ind; intros m Hm.
  - apply map_size_empty_iff. apply map_eq. intros i. rewrite Hm, lookup_empty.
    apply zlookup_None. simpl. lia.
  - assert (Hn : m !! Z.of_nat (length hs) = Some x).
    { rewrite Hm, zlookup_snoc, decide_True by reflexivity. reflexivity. }
    rewrite <- (insert_delete_id m _ _ Hn).
    rewrite map_size_insert_None by apply lookup_delete_eq.
    rewrite (IH (delete (Z.of_nat (length hs)) m)).
    + rewrite length_app. simpl. lia.
    + intros i. destruct (decide (i = Z.of_nat (length hs))) as [->|Hne].
      * rewrite lookup_delete_eq. symmetry. apply zlookup_None. lia.
      * rewrite lookup_delete_ne by congruence. rewrite Hm, zlookup_snoc.
        rewrite decide_False by exact Hne. reflexivity.
Qed.

Lemma proofLoop_ext (t t' : MerkleTree) :
  (forall l i, getLevel t' l !! i = getLevel t l !! i) ->
  forall (fuel : nat) (level c : Z), proofLoop fuel level c t' = proofLoop fuel level c t.
Proof.
  intros H. induction fuel as [|fuel IH]; intros level c; [reflexivity|].
  cbn [proofLoop]. rewrite !H, IH. reflexivity.
Qed.

Lemma tree_ext (t t' : MerkleTree) :
  _leafCount t' = _leafCount t ->
  (forall l i, getLevel t' l !! i = getLevel t l !! i) ->
  getRoot t' = getRoot t /\ forall i, generateProof t' i = generateProof t i.
Proof.
  intros Hc H.
  assert (Hh : getHeight t' = getHeight t) by (unfold getHeight; rewrite Hc; reflexivity).
  assert (Hr : getRoot t' = getRoot t) by (unfold getRoot; rewrite Hc, Hh, H; reflexivity).
  split; [exact Hr|]. intros i. unfold generateProof.
  rewrite Hc, Hr, Hh, H, (proofLoop_ext t t' H). reflexivity.
Qed.

(** X5. [fromNodes], [getAllNodes]: rebuilding a tree from the nodes of a tree
    built by appends (no leaf hash empty) gives a tree with the same
    leaf count, the same node at every position, the same root and the
    same proof for every index. *)
Theorem fromNodes_getAllNodes (xs : list LeafInput) (t : MerkleTree) :
  appendAll Merkle.empty xs = Some t ->
  (forall h, In (LeafHash h) xs -> h <> EmptyString) ->
  let t' := fromNodes (getAllNodes t) in
  leafCount t' = leafCount t
  /\ (forall l i, getLevel t' l !! i = getLevel t l !! i)
  /\ getRoot t' = getRoot t
  /\ (forall i, generateProof t' i = generateProof t i).
Proof.
  intros Hrun Hne t'.
  pose proof (appendAll_ok xs [] Merkle.empty t tree_ok_empty
                (leaf_inputs_truthy xs Hne) Hrun) as Hok.
  cbn [app] in Hok.
  assert (Hcount : leafCount t' = leafCount t).
  { unfold t'. rewrite fromNodes_leafCount. unfold leafCount. rewrite (ok_count _ _ Hok).
    f_equal. apply size_zlookup. intros i.
    apply (ok_nodes _ _ Hok 0%nat). pose proof (height_nonneg (Z.of_nat (length (map leaf_hash xs)))).
    lia. }
  split; [exact Hcount|]. split; [intros l i; apply fromNodes_lookup|].
  apply tree_ext; [exact Hcount|]. intros l i. apply fromNodes_lookup.
Qed.

Lemma fromNodes_getAllNodes_witness :
  exists t, appendAll Merkle.empty Samples.three_leaves = Some t
            /\ getRoot (fromNodes (getAllNodes t)) = getRoot t
            /\ leafCount (fromNodes (getAllNodes t)) = 3.
Proof.
  assert (E : exists t, appendAll Merkle.empty Samples.three_leaves = Some t
                        /\ leafCount t = 3).
  { eexists. split; vm_compute; reflexivity. }
  destruct E as (t & E & Hc). exists t. split; [exact E|].
  destruct (fromNodes_getAllNodes Samples.three_leaves t E) as (Hcount & _ & Hroot & _).
  - intros h [H|[H|[H|[]]]]; inversion H; discriminate.
  - split; [exact Hroot|]. rewrite Hcount. exact Hc.
Defined.

End MerkleProps.

(** ** Canonical form: what [sortObjectKeys] keeps *)

Module JsonProps.
Import Hex Json JsonSpec JsonFacts.

Lemma insert_index_perm (n : Z) (key : string) (v : jsval) (o : list (string * jsval)) :
  insert_index n key v o ≡ₚ (key, v) :: o.
Proof.
  induction o as [|[k w] o IH]; [reflexivity|]. cbn [insert_index].
  destruct (array_index k) as [m|]; [|reflexivity].
  destruct (m <? n); [|reflexivity]. rewrite IH. apply perm_swap.
Qed.

Lemma obj_set_new (o : list (string * jsval)) (key : string) (v : jsval) :
  own_key key = true -> key ∉ map fst o -> obj_set o key v ≡ₚ (key, v) :: o.
Proof.
  intros Hown Hnew. unfold obj_set. unfold own_key in Hown.
  destruct (String.eqb key "__proto__"); [discriminate|].
  rewrite (has_key_false _ _ Hnew).
  destruct (array_index key) as [n|]; [apply insert_index_perm|].
  symmetry. apply Permutation_cons_append.
Qed.

Lemma assign_all_cons (f : string -> jsval) (k : string) (keys : list string)
                      (o : list (string * jsval)) :
  assign_all f (k :: keys) o = assign_all f keys (obj_set o k (f k)).
Proof. reflexivity. Qed.

Lemma obj_set_proto (o : list (string * jsval)) (v : jsval) : obj_set o "__proto__" v = o.
Proof. reflexivity. Qed.

Lemma assign_all_own (f : string -> jsval) (keys : list string) :
  forall o, assign_all f keys o = assign_all f (List.filter own_key keys) o.
Proof.
  induction keys as [|k keys IH]; intros o; [reflexivity|].
  rewrite assign_all_cons. cbn [List.filter].
  unfold own_key at 1. destruct (String.eqb_spec k "__proto__") as [->|Hne]; cbn [negb].
  - rewrite obj_set_proto. apply IH.
  - rewrite assign_all_cons. apply IH.
Qed.

Lemma assign_all_perm (f : string -> jsval) (keys : list string) :
  forall o,
    NoDup keys -> Forall (fun k => own_key k = true) keys ->
    (forall k, k ∈ keys -> k ∉ map fst o) ->
    assign_all f keys o ≡ₚ (map (fun k => (k, f k)) keys ++ o)%list.
Proof.
  induction keys as [|k keys IH]; intros o Hnd Hown Hnew; [reflexivity|].
  apply NoDup_cons in Hnd as [Hk Hnd]. apply Forall_cons in Hown as [Hko Hown].
  rewrite assign_all_cons.
  pose proof (obj_set_new o k (f k) Hko (Hnew k ltac:(left))) as Hset.
  rewrite IH; [|exact Hnd|exact Hown|].
  - rewrite Hset. cbn [map app]. symmetry. apply Permutation_middle.
  - intros k' Hk' Hin. rewrite Hset in Hin. cbn [map fst] in Hin.
    apply elem_of_cons in Hin as [->|Hin]; [contradiction|].
    apply (Hnew k'); [right; exact Hk'|exact Hin].
Qed.

Lemma obj_get_sorted_fields (o : list (string * jsval)) (k : string) :
  obj_get (sorted_fields o) k = sortObjectKeys (obj_get o k).
Proof.
  induction o as [|[k0 v0] o IH]; [reflexivity|].
  cbn [sorted_fields map obj_get fst snd]. destruct (String.eqb k0 k); [reflexivity|exact IH].
Qed.

Lemma obj_get_pairs (f : string -> jsval) (keys : list string) (k : string) :
  k ∈ keys -> obj_get (map (fun k => (k, f k)) keys) k = f k.
Proof.
  induction keys as [|k0 keys IH]; intros Hin; [inversion Hin|].
  cbn [map obj_get]. destruct (String.eqb_spec k0 k) as [->|Hne]; [reflexivity|].
  apply IH. apply elem_of_cons in Hin as [->|Hin]; [congruence|exact Hin].
Qed.

Lemma filter_own_sorted (keys : list string) :
  StronglySorted key_le (List.filter own_key (sort_keys keys)).
Proof. apply StronglySorted_filter, sort_keys_sorted. Qed.

Lemma NoDup_filter_list {A} (p : A -> bool) (l : list A) : NoDup l -> NoDup (List.filter p l).
Proof.
  induction 1 as [|x l Hx _ IH]; [constructor|]. cbn [List.filter].
  destruct (p x); [|exact IH]. constructor; [|exact IH].
  intros Hin. apply Hx. apply list_elem_of_In in Hin. apply filter_In in Hin as [Hin _].
  apply list_elem_of_In. exact Hin.
Qed.

Lemma sortObjectKeys_idem (v : jsval) :
  all_objects (fun keys => NoDup keys) v ->
  sortObjectKeys (sortObjectKeys v) = sortObjectKeys v.
Proof.
  induction v as [| |b|z|s|items IH|fields IH] using jsval_induction; intros Hwf;
    try reflexivity.
  - cbn [sortObjectKeys]. f_equal. rewrite map_map.
    cbn [all_objects] in Hwf. apply all_objects_items in Hwf.
    induction IH as [|x items Hx _ IHitems]; [reflexivity|].
    apply Forall_cons in Hwf as [Hwx Hwf]. cbn [map]. rewrite (Hx Hwx), (IHitems Hwf). reflexivity.
  - cbn [all_objects] in Hwf. destruct Hwf as [Hnd Hwf]. apply all_objects_fields in Hwf.
    cbn [sortObjectKeys]. fold (sorted_fields fields).
    set (f := obj_get (sorted_fields fields)).
    set (K := sort_keys (obj_keys fields)).
    fold (assign_all f K []). set (o1 := assign_all f K []).
    fold (sorted_fields o1). fold (assign_all (obj_get (sorted_fields o1)) (sort_keys (obj_keys o1)) []).
    f_equal.
    set (K' := List.filter own_key K).
    assert (HndK : NoDup K) by (unfold K; rewrite sort_keys_perm; exact Hnd).
    assert (HndK' : NoDup K') by (apply NoDup_filter_list, HndK).
    assert (HownK' : Forall (fun k => own_key k = true) K').
    { apply Forall_forall. intros k Hk. apply list_elem_of_In, filter_In in Hk as [_ Hk]. exact Hk. }
    assert (Ho1 : o1 ≡ₚ map (fun k => (k, f k)) K').
    { unfold o1. rewrite assign_all_own. fold K'.
      rewrite (assign_all_perm f K' [] HndK' HownK'); [rewrite app_nil_r; reflexivity|].
      intros k _ Hin. inversion Hin. }
    assert (Hkeys1 : obj_keys o1 ≡ₚ K').
    { unfold obj_keys. rewrite Ho1, map_map. cbn [fst]. rewrite map_id. reflexivity. }
    assert (Hsort1 : sort_keys (obj_keys o1) = K').
    { apply (@StronglySorted_unique _ key_le key_le_antisym).
      - apply sort_keys_sorted.
      - apply filter_own_sorted.
      - rewrite sort_keys_perm. exact Hkeys1. }
    rewrite Hsort1. transitivity (assign_all f K' []);
      [|unfold o1, K'; symmetry; apply assign_all_own].
    unfold assign_all. apply fold_left_ext_in. intros acc k Hk. f_equal.
    rewrite obj_get_sorted_fields.
    assert (Hget : obj_get o1 k = f k).
    { rewrite (obj_get_perm o1 (map (fun k => (k, f k)) K') k).
      - apply obj_get_pairs. exact Hk.
      - fold (obj_keys o1). rewrite Hkeys1. exact HndK'.
      - exact Ho1. }
    rewrite Hget. unfold f. rewrite obj_get_sorted_fields.
    destruct (obj_get_cases fields k) as [E|Hin]; [rewrite E; reflexivity|].
    rewrite Forall_forall in IH, Hwf. apply (IH _ Hin), (Hwf _ Hin).
Qed.

Lemma sorted_object_perm (fields : list (string * jsval)) :
  NoDup (map fst fields) ->
  let f := obj_get (sorted_fields fields) in
  let K' := List.filter own_key (sort_keys (obj_keys fields)) in
  exists sorted,
    sortObjectKeys (JObj fields) = JObj sorted
    /\ sorted ≡ₚ map (fun k => (k, f k)) K'
    /\ NoDup K' /\ obj_keys sorted ≡ₚ K'.
Proof.
  intros Hnd f K'. cbn [sortObjectKeys]. fold (sorted_fields fields). fold f.
  fold (assign_all f (sort_keys (obj_keys fields)) []). eexists. split; [reflexivity|].
  assert (HndK' : NoDup K').
  { apply NoDup_filter_list. rewrite sort_keys_perm. exact Hnd. }
  assert (Hperm : assign_all f (sort_keys (obj_keys fields)) [] ≡ₚ map (fun k => (k, f k)) K').
  { rewrite assign_all_own. fold K'.
    rewrite (assign_all_perm f K' [] HndK'); [rewrite app_nil_r; reflexivity| |].
    - apply Forall_forall. intros k Hk. apply list_elem_of_In, filter_In in Hk as [_ Hk]. exact Hk.
    - intros k _ Hin. inversion Hin. }
  split; [exact Hperm|]. split; [exact HndK'|].
  unfold obj_keys. rewrite Hperm, map_map. cbn [fst]. rewrite map_id. reflexivity.
Qed.

(** X6. [sortObjectKeys] on an object with distinct keys: the result has
    distinct keys, namely the keys of the object other than [__proto__];
    each of them reads as the sorted value of the original field, and
    [__proto__] reads as undefined: no other field is lost or added. *)
Theorem sortObjectKeys_keeps_fields (fields : list (string * jsval)) :
  NoDup (obj_keys fields) ->
  exists sorted : list (string * jsval),
    sortObjectKeys (JObj fields) = JObj sorted
    /\ NoDup (obj_keys sorted)
    /\ (forall k, k ∈ obj_keys sorted <-> k ∈ obj_keys fields /\ k <> "__proto__")
    /\ (forall k, k <> "__proto__" -> obj_get sorted k = sortObjectKeys (obj_get fields k))
    /\ obj_get sorted "__proto__" = JUndefined.
Proof.
  intros Hnd. destruct (sorted_object_perm fields Hnd) as (sorted & E & Hperm & HndK' & Hkeys).
  cbv zeta in *. set (K' := List.filter own_key (sort_keys (obj_keys fields))) in *.
  assert (HK' : forall k, k ∈ K' <-> k ∈ obj_keys fields /\ k <> "__proto__").
  { intros k. unfold K'. rewrite list_elem_of_In, filter_In, <- list_elem_of_In, sort_keys_perm.
    unfold own_key. destruct (String.eqb_spec k "__proto__"); cbn [negb]; intuition congruence. }
  exists sorted. split; [exact E|]. split; [rewrite Hkeys; exact HndK'|].
  split; [intros k; rewrite Hkeys; apply HK'|].
  assert (Hget : forall k, obj_get sorted k = obj_get (map (fun k => (k, obj_get (sorted_fields fields) k)) K') k).
  { intros k. apply obj_get_perm; [fold (obj_keys sorted); rewrite Hkeys; exact HndK'|exact Hperm]. }
  split.
  - intros k Hk. rewrite Hget. destruct (decide (k ∈ K')) as [Hin|Hout].
    + rewrite obj_get_pairs by exact Hin. apply obj_get_sorted_fields.
    + rewrite obj_get_missing by (rewrite map_map; cbn [fst]; rewrite map_id; exact Hout).
      rewrite obj_get_missing; [reflexivity|].
      intros Hin. apply Hout, HK'. split; [exact Hin|exact Hk].
  - rewrite Hget. apply obj_get_missing. rewrite map_map. cbn [fst]. rewrite map_id.
    intros Hin. apply HK' in Hin as [_ Hne]. congruence.
Qed.

Lemma sortObjectKeys_keeps_fields_witness :
  exists sorted,
    sortObjectKeys (JObj [("b", JNum 2); ("__proto__", JNull); ("a", JNum 1)]) = JObj sorted
    /\ obj_get sorted "b" = JNum 2 /\ obj_get sorted "__proto__" = JUndefined.
Proof.
  destruct (sortObjectKeys_keeps_fields [("b", JNum 2); ("__proto__", JNull); ("a", JNum 1)])
    as (sorted & E & _ & _ & Hget & Hproto).
  - apply (bool_decide_unpack _). vm_compute. exact I.
  - exists sorted. split; [exact E|]. split; [|exact Hproto].
    rewrite Hget by discriminate. reflexivity.
Defined.

(** X7. [sortObjectKeys], [canonicalizeCommitment]: sorting a sorted value
    changes nothing, so a commitment whose payload was sorted beforehand
    has the same canonical text as the original (objects having distinct
    keys, as JavaScript objects do). *)
Theorem sortObjectKeys_idempotent (c : CanonInput) :
  all_objects (fun keys => NoDup keys) (ci_payload c) ->
  sortObjectKeys (sortObjectKeys (ci_payload c)) = sortObjectKeys (ci_payload c)
  /\ canonicalizeCommitment
       (mkCanonInput (ci_id c) (ci_type c) (sortObjectKeys (ci_payload c))
                     (ci_timestamp c) (ci_signature c))
     = canonicalizeCommitment c.
Proof.
  intros Hwf. pose proof (sortObjectKeys_idem _ Hwf) as H. split; [exact H|].
  unfold canonicalizeCommitment, canonical_object.
  cbn [ci_id ci_type ci_payload ci_timestamp ci_signature]. rewrite H. reflexivity.
Qed.

Lemma sortObjectKeys_idempotent_witness :
  sortObjectKeys (sortObjectKeys Samples.payload_a) = sortObjectKeys Samples.payload_a.
Proof.
  apply (sortObjectKeys_idempotent (mkCanonInput "i" "custom" Samples.payload_a 5 "sg")).
  cbn [all_objects ci_payload Samples.payload_a fold_right map fst snd].
  repeat split; apply (bool_decide_unpack _); vm_compute; exact I.
Defined.

End JsonProps.

(** ** The anchor payload and its parser *)

Module WalletProps.
Import Hex Json Merkle Types Db Store MerkleSpec StoreSpec HexFacts MerkleFacts StoreFacts Wallet.

Lemma slice_app_mid (a b c : list byte) (from to : nat) :
  length a = from -> length b = (to - from)%nat ->
  slice (a ++ b ++ c) from to = b.
Proof.
  intros Ha Hb. unfold slice. rewrite <- Hb. subst from.
  change (take (length b) (drop (length a) (a ++ b ++ c)) = b).
  rewrite drop_app_length. apply take_app_length.
Qed.

Lemma getUint32BE_setUint32BE (x : Z) : getUint32BE (setUint32BE x) = x mod 2 ^ 32.
Proof. apply be_word_setUint32BE. Qed.

Section ParseBuilt.
Variable sign : string -> string -> string.

(** X8. [buildAnchorPayload] then [parseAnchorPayload]: on a store reached by
    commits and recorded anchors, a payload that is built has
    47 + (length of the decoded latest txid) bytes; when that part has
    32 bytes the parser accepts it and gives back version 1, the tree
    root, the commitment count modulo 2^32 and the latest txid
    (lower-cased; none when all bytes are zero); otherwise it answers
    with the payload-length error. *)
Theorem parse_buildAnchorPayload (s : AnchorStore) (payload : list byte) :
  reachable sign s ->
  buildAnchorPayload s = Some payload ->
  exists (root : string) (prevBytes : list byte),
    Store.getRoot s = Some root
    /\ match Store.getLatestAnchor s with
       | Some l => hexToBytes (a_txid l) = Some prevBytes
       | None => prevBytes = repeat x00 32
       end
    /\ length payload = (47 + length prevBytes)%nat
    /\ (length prevBytes = 32%nat ->
        parseAnchorPayload payload
        = inl (mkParsed 1 root (count s mod 2 ^ 32)
                 (if forallb is_zero prevBytes then None else Some (bytesToHex prevBytes))))
    /\ (length prevBytes <> 32%nat ->
        parseAnchorPayload payload
        = inr ("Invalid payload length: " +:+ render_num (Z.of_nat (length payload))
               +:+ " (expected 79)")).
Proof.
  intros Hreach. destruct (reachable_inv sign s Hreach) as [hs Hinv].
  unfold buildAnchorPayload.
  destruct (Merkle.getRoot (tree s)) as [root|] eqn:Hroot; [|discriminate].
  destruct (negb (truthy root)); [discriminate|].
  assert (Hn : 0 < _leafCount (tree s)).
  { unfold Merkle.getRoot in Hroot. destruct (Z.eqb_spec (_leafCount (tree s)) 0); [discriminate|].
    pose proof (ok_count _ _ (inv_tree _ _ Hinv)). lia. }
  destruct (root_digest hs (tree s) (inv_tree _ _ Hinv) (inv_digests _ _ Hinv) Hn)
    as (root' & Hroot' & Hdig).
  rewrite Hroot in Hroot'. injection Hroot' as <-.
  destruct (digest_decodes root Hdig) as (rootBytes & Hdec & Hlen & Hhex).
  rewrite Hdec.
  set (prev := match Store.getLatestAnchor s with
               | Some l => hexToBytes (a_txid l)
               | None => Some (repeat x00 32)
               end).
  destruct prev as [prevBytes|] eqn:Hprev; [|discriminate].
  intros H.
  assert (E : payload = (utf8 "BSV-ANCHOR" ++ [x01] ++ rootBytes
                         ++ setUint32BE (count s) ++ prevBytes)%list) by congruence.
  clear H. subst payload. exists root, prevBytes.
  split; [exact Hroot|]. split.
  { subst prev. destruct (Store.getLatestAnchor s); [exact Hprev|congruence]. }
  assert (Hlen_all : length (utf8 "BSV-ANCHOR" ++ [x01] ++ rootBytes
                             ++ setUint32BE (count s) ++ prevBytes)
                     = (47 + length prevBytes)%nat).
  { rewrite !length_app, Hlen. reflexivity. }
  split; [exact Hlen_all|]. split.
  - intros Hp. unfold parseAnchorPayload. rewrite Hlen_all, Hp. cbn [Nat.add Nat.eqb negb].
    set (proto := utf8 "BSV-ANCHOR").
    assert (E1 : slice (proto ++ [x01] ++ rootBytes ++ setUint32BE (count s) ++ prevBytes) 0 10
                 = proto).
    { apply (slice_app_mid [] proto _ 0 10); reflexivity. }
    rewrite E1. rewrite bool_decide_eq_true_2 by reflexivity. cbn [negb].
    replace (nth 10 (proto ++ [x01] ++ rootBytes ++ setUint32BE (count s) ++ prevBytes) x00)
      with x01 by reflexivity.
    change (Z_of_byte x01 =? 1) with true. cbn [negb].
    assert (E2 : slice (proto ++ [x01] ++ rootBytes ++ setUint32BE (count s) ++ prevBytes) 11 43
                 = rootBytes).
    { replace (proto ++ [x01] ++ rootBytes ++ setUint32BE (count s) ++ prevBytes)%list
        with ((proto ++ [x01]) ++ rootBytes ++ setUint32BE (count s) ++ prevBytes)%list
        by (rewrite <- app_assoc; reflexivity).
      apply slice_app_mid; [reflexivity|rewrite Hlen; reflexivity]. }
    assert (E3 : slice (proto ++ [x01] ++ rootBytes ++ setUint32BE (count s) ++ prevBytes) 43 47
                 = setUint32BE (count s)).
    { replace (proto ++ [x01] ++ rootBytes ++ setUint32BE (count s) ++ prevBytes)%list
        with ((proto ++ [x01] ++ rootBytes) ++ setUint32BE (count s) ++ prevBytes)%list
        by (rewrite <- !app_assoc; reflexivity).
      apply slice_app_mid; [rewrite !length_app, Hlen; reflexivity|reflexivity]. }
    assert (E4 : slice (proto ++ [x01] ++ rootBytes ++ setUint32BE (count s) ++ prevBytes) 47 79
                 = prevBytes).
    { replace (proto ++ [x01] ++ rootBytes ++ setUint32BE (count s) ++ prevBytes)%list
        with ((proto ++ [x01] ++ rootBytes ++ setUint32BE (count s)) ++ prevBytes ++ [])%list
        by (rewrite <- !app_assoc, app_nil_r; reflexivity).
      apply slice_app_mid; [rewrite !length_app, Hlen; reflexivity|rewrite Hp; reflexivity]. }
    rewrite E2, E3, E4, Hhex, getUint32BE_setUint32BE. reflexivity.
  - intros Hp. unfold parseAnchorPayload. rewrite Hlen_all.
    destruct (Nat.eqb_spec (47 + length prevBytes) 79); [lia|]. reflexivity.
Qed.

End ParseBuilt.

Lemma parse_buildAnchorPayload_witness :
  exists (payload : list byte) (root : string),
    buildAnchorPayload Samples.s2_hex = Some payload
    /\ Store.getRoot Samples.s2_hex = Some root
    /\ length payload = 79%nat.
Proof.
  assert (Hr : reachable Samples.sample_sign Samples.s2_hex)
    by (apply reach_record, reach_commit, reach_fresh).
  assert (E : exists payload, buildAnchorPayload Samples.s2_hex = Some payload
                              /\ length payload = 79%nat).
  { eexists. split; vm_compute; reflexivity. }
  destruct E as (payload & E & Hlen).
  destruct (parse_buildAnchorPayload Samples.sample_sign Samples.s2_hex payload Hr E)
    as (root & prevBytes & Hroot & _).
  exists payload, root. split; [exact E|]. split; [exact Hroot|exact Hlen].
Defined.

(** *** A payload that parses is the encoding of its fields *)

Lemma Z_of_byte_range (b : byte) : 0 <= Z_of_byte b < 256.
Proof. unfold Z_of_byte. pose proof (Byte.to_N_bounded b). lia. Qed.

Lemma byte_of_Z_add (b : byte) (k : Z) : byte_of_Z (k * 256 + Z_of_byte b) = b.
Proof.
  rewrite <- (byte_of_Z_of_byte b) at 2. unfold byte_of_Z.
  rewrite Z.add_comm, Z.mod_add by lia. reflexivity.
Qed.

Lemma setUint32BE_getUint32BE (b0 b1 b2 b3 : byte) :
  setUint32BE (getUint32BE [b0; b1; b2; b3]) = [b0; b1; b2; b3]
  /\ 0 <= getUint32BE [b0; b1; b2; b3] < 2 ^ 32.
Proof.
  unfold getUint32BE. cbn [fold_left].
  pose proof (Z_of_byte_range b0). pose proof (Z_of_byte_range b1).
  pose proof (Z_of_byte_range b2). pose proof (Z_of_byte_range b3).
  set (x := ((0 * 256 + Z_of_byte b0) * 256 + Z_of_byte b1) * 256 + Z_of_byte b2).
  assert (Hx : 0 <= x * 256 + Z_of_byte b3 < 2 ^ 32) by (unfold x; lia).
  split; [|exact Hx].
  unfold setUint32BE. rewrite (Z.mod_small _ _ Hx).
  unfold be_bytes. cbn [seq map]. rewrite !Z.shiftr_div_pow2 by lia.
  change (2 ^ (8 * Z.of_nat (4 - 1 - 0))) with (256 * (256 * 256)).
  change (2 ^ (8 * Z.of_nat (4 - 1 - 1))) with (256 * 256).
  change (2 ^ (8 * Z.of_nat (4 - 1 - 2))) with 256.
  change (2 ^ (8 * Z.of_nat (4 - 1 - 3))) with 1.
  rewrite Z.div_1_r. rewrite <- !Z.div_div by lia.
  assert (D3 : (x * 256 + Z_of_byte b3) / 256 = x).
  { rewrite Z.div_add_l by lia. rewrite (Z.div_small (Z_of_byte b3)) by lia. lia. }
  rewrite !D3. rewrite byte_of_Z_add.
  unfold x at 1 2 3.
  set (y := (0 * 256 + Z_of_byte b0) * 256 + Z_of_byte b1).
  assert (D2 : (y * 256 + Z_of_byte b2) / 256 = y).
  { rewrite Z.div_add_l by lia. rewrite (Z.div_small (Z_of_byte b2)) by lia. lia. }
  rewrite !D2. rewrite byte_of_Z_add.
  unfold y at 1 2.
  assert (D1 : ((0 * 256 + Z_of_byte b0) * 256 + Z_of_byte b1) / 256 = 0 * 256 + Z_of_byte b0).
  { rewrite Z.div_add_l by lia. rewrite (Z.div_small (Z_of_byte b1)) by lia. lia. }
  rewrite D1. rewrite !byte_of_Z_add. reflexivity.
Qed.

Lemma length_slice (l : list byte) (from to : nat) :
  (to <= length l)%nat -> length (slice l from to) = (to - from)%nat.
Proof. intros H. unfold slice. rewrite length_take, length_drop. lia. Qed.

Lemma payload_split (payload : list byte) :
  length payload = 79%nat ->
  payload = (slice payload 0 10 ++ [nth 10 payload x00] ++ slice payload 11 43
             ++ slice payload 43 47 ++ slice payload 47 79)%list.
Proof.
  intros Hlen. unfold slice. cbn [Nat.sub drop].
  rewrite <- (take_drop 10 payload) at 1. f_equal.
  rewrite <- (take_drop 1 (drop 10 payload)) at 1. rewrite drop_drop. cbn [Nat.add]. f_equal.
  - destruct (drop 10 payload) as [|b rest] eqn:E.
    + apply (f_equal length) in E. rewrite length_drop in E. simpl in E. lia.
    + cbn [take]. f_equal. symmetry. apply nth_lookup_Some.
      pose proof (lookup_drop payload 10 0) as Hl. rewrite E in Hl. cbn in Hl.
      symmetry. exact Hl.
  - change (firstn ?n ?l) with (take n l).
    rewrite <- (take_drop 32 (drop 11 payload)) at 1. rewrite drop_drop. cbn [Nat.add]. f_equal.
    rewrite <- (take_drop 4 (drop 43 payload)) at 1. rewrite drop_drop. cbn [Nat.add]. f_equal.
    symmetry. apply take_ge. rewrite length_drop. lia.
Qed.

(** X9. [parseAnchorPayload]: whatever is accepted has version 1, a count
    below 2^32, and is exactly the ten bytes of [BSV-ANCHOR], the byte
    1, the 32 bytes of the reported root, the count as four big-endian
    bytes and 32 bytes that are all zero exactly when no previous anchor
    is reported. *)
Theorem parseAnchorPayload_valid (payload : list byte) (p : ParsedPayload) :
  parseAnchorPayload payload = inl p ->
  pp_version p = 1
  /\ 0 <= pp_commitmentCount p < 2 ^ 32
  /\ exists rootBytes prevBytes : list byte,
       length rootBytes = 32%nat /\ length prevBytes = 32%nat
       /\ pp_rootHash p = bytesToHex rootBytes
       /\ pp_previousAnchor p
          = (if forallb is_zero prevBytes then None else Some (bytesToHex prevBytes))
       /\ payload = (utf8 "BSV-ANCHOR" ++ [x01] ++ rootBytes
                     ++ setUint32BE (pp_commitmentCount p) ++ prevBytes)%list.
Proof.
  unfold parseAnchorPayload.
  destruct (Nat.eqb_spec (length payload) 79) as [Hlen|]; [|discriminate]. cbn [negb].
  destruct (bool_decide (slice payload 0 10 = utf8 "BSV-ANCHOR")) eqn:Hproto; [|discriminate].
  apply bool_decide_eq_true_1 in Hproto. cbn [negb].
  destruct (Z.eqb_spec (Z_of_byte (nth 10 payload x00)) 1) as [Hv|]; [|discriminate].
  cbn [negb]. intros [= <-]. cbn [pp_version pp_rootHash pp_commitmentCount pp_previousAnchor].
  assert (Hb : nth 10 payload x00 = x01).
  { rewrite <- (byte_of_Z_of_byte (nth 10 payload x00)), Hv. reflexivity. }
  pose proof (length_slice payload 43 47 ltac:(lia)) as H4.
  destruct (slice payload 43 47) as [|b0 [|b1 [|b2 [|b3 [|]]]]] eqn:Ecount; try discriminate.
  destruct (setUint32BE_getUint32BE b0 b1 b2 b3) as [Hset Hrange].
  split; [exact Hv|]. split; [exact Hrange|].
  exists (slice payload 11 43), (slice payload 47 79).
  split; [apply length_slice; lia|]. split; [apply length_slice; lia|].
  split; [reflexivity|]. split; [reflexivity|].
  rewrite Hset, <- Ecount, <- Hproto, <- Hb. apply payload_split. exact Hlen.
Qed.

Lemma parseAnchorPayload_valid_witness :
  exists p, parseAnchorPayload Samples.zero_payload = inl p
            /\ pp_version p = 1 /\ pp_commitmentCount p = 5 /\ pp_previousAnchor p = None.
Proof.
  assert (E : exists p, parseAnchorPayload Samples.zero_payload = inl p
                        /\ pp_commitmentCount p = 5 /\ pp_previousAnchor p = None).
  { eexists. split; [vm_compute; reflexivity|]. split; reflexivity. }
  destruct E as (p & E & Hc & Hp). exists p. split; [exact E|].
  destruct (parseAnchorPayload_valid Samples.zero_payload p E) as (Hv & _).
  split; [exact Hv|]. split; [exact Hc|exact Hp].
Defined.

End WalletProps.

(** ** The store: anchors, rows, reopening, anchoring *)

Module StoreProps.
Import Hex Json Merkle Types Db Store MerkleSpec StoreSpec HexFacts MerkleFacts StoreFacts.
Import Wallet MerkleProps.

Lemma StronglySorted_of_lookup {A} (R : relation A) (l : list A) :
  (forall (i j : nat) (a b : A), l !! i = Some a -> l !! j = Some b -> (i < j)%nat -> R a b) ->
  StronglySorted R l.
Proof.
  induction l as [|x l IH]; intros H; constructor.
  - apply IH. intros i j a b Ha Hb Hij. apply (H (S i) (S j)); [exact Ha|exact Hb|lia].
  - apply Forall_forall. intros y Hy. apply list_elem_of_lookup in Hy as [j Hj].
    apply (H 0%nat (S j)); [reflexivity|exact Hj|lia].
Qed.

Lemma chain_sorted (n : Z) (l : list Anchor) :
  anchor_chain n l -> StronglySorted anchor_index_le l.
Proof.
  intros [_ H]. apply StronglySorted_of_lookup. intros i j a b Ha Hb Hij.
  unfold anchor_index_le. destruct (H i a Ha) as [-> _]. destruct (H j b Hb) as [-> _]. lia.
Qed.

Lemma chain_getAllAnchors (n : Z) (d : Database) :
  anchor_chain n (anchors d) -> getAllAnchors d = anchors d.
Proof.
  intros Hchain. unfold getAllAnchors. apply (StronglySorted_unique_strong anchor_index_le).
  - intros a b Ha Hb Hab Hba. rewrite merge_sort_Permutation in Ha.
    apply list_elem_of_lookup in Ha as [i Ha]. apply list_elem_of_lookup in Hb as [j Hb].
    destruct Hchain as [_ H]. destruct (H i a Ha) as [Hi _]. destruct (H j b Hb) as [Hj _].
    unfold anchor_index_le in *. assert (i = j) by lia. subst j. congruence.
  - apply getAllAnchors_sorted.
  - apply (chain_sorted n), Hchain.
  - apply merge_sort_Permutation.
Qed.

Lemma chain_latest (n : Z) (d : Database) :
  anchor_chain n (anchors d) -> Db.getLatestAnchor d = last (anchors d).
Proof. intros H. unfold Db.getLatestAnchor. rewrite (chain_getAllAnchors n d H). reflexivity. Qed.

Lemma chain_nil (n : Z) : anchor_chain n [].
Proof. split; [constructor|]. intros i a H. rewrite lookup_nil in H. discriminate. Qed.

Lemma chain_grow (n n' : Z) (l : list Anchor) :
  n <= n' -> anchor_chain n l -> anchor_chain n' l.
Proof.
  intros Hn [Hnd H]. split; [exact Hnd|]. intros i a Ha.
  destruct (H i a Ha) as (H1 & H2 & H3 & H4). repeat split; try assumption; lia.
Qed.

Lemma getAnchorByTxid_None (d : Database) (txid : string) :
  getAnchorByTxid d txid = None <-> txid ∉ a_txid <$> anchors d.
Proof.
  unfold getAnchorByTxid. rewrite find_none_elem. split.
  - intros H Hin. apply list_elem_of_fmap in Hin as (a & -> & Ha).
    specialize (H a Ha). rewrite String.eqb_refl in H. discriminate.
  - intros H a Ha. destruct (String.eqb_spec (a_txid a) txid) as [<-|]; [|reflexivity].
    exfalso. apply H. apply list_elem_of_fmap. eauto.
Qed.

(** In a chain the only conflict an insert can hit is a txid recorded before. *)
Lemma chain_conflict (n : Z) (l : list Anchor) (a : Anchor) :
  anchor_chain n l -> a_anchorIndex a = Z.of_nat (length l) ->
  existsb (fun b => (a_anchorIndex b =? a_anchorIndex a) || String.eqb (a_txid b) (a_txid a)) l
  = bool_decide (a_txid a ∈ a_txid <$> l).
Proof.
  intros [_ H] Hidx. destruct (bool_decide_reflect (a_txid a ∈ a_txid <$> l)) as [Hin|Hout].
  - apply existsb_exists. apply list_elem_of_fmap in Hin as (b & Hb & Hin).
    exists b. split; [apply list_elem_of_In, Hin|]. rewrite Hb, String.eqb_refl. apply orb_true_r.
  - apply not_true_is_false. intros Hex. apply existsb_exists in Hex as (b & Hb & Hor).
    apply list_elem_of_In in Hb. apply orb_true_iff in Hor as [Hi|Ht].
    + apply list_elem_of_lookup in Hb as [i Hb]. destruct (H i b Hb) as [Hbi _].
      apply lookup_lt_Some in Hb. apply Z.eqb_eq in Hi. lia.
    + apply String.eqb_eq in Ht. apply Hout. rewrite <- Ht. apply list_elem_of_fmap. eauto.
Qed.

Lemma chain_snoc (n : Z) (l : list Anchor) (a : Anchor) :
  anchor_chain n l ->
  a_anchorIndex a = Z.of_nat (length l) ->
  a_previousAnchor a = a_txid <$> last l ->
  a_commitmentCount a = n -> 1 <= n ->
  a_txid a ∉ a_txid <$> l ->
  anchor_chain n (l ++ [a]).
Proof.
  intros [Hnd H] Hidx Hprev Hcount Hn Hnew. split.
  - rewrite fmap_app. apply NoDup_app. split; [exact Hnd|]. split.
    + intros x Hx Hx'. cbn in Hx'. apply list_elem_of_singleton in Hx'. subst x. contradiction.
    + cbn. apply NoDup_singleton.
  - intros i b Hb. destruct (decide (i < length l)%nat) as [Hlt|Hge].
    + rewrite lookup_app_l in Hb by exact Hlt. destruct (H i b Hb) as (H1 & H2 & H3 & H4).
      split; [exact H1|]. split.
      { rewrite H2. destruct i as [|j]; [reflexivity|]. rewrite lookup_app_l by lia. reflexivity. }
      split; [exact H3|]. intros j c Hj Hc. rewrite lookup_app_l in Hc by lia. apply (H4 j c Hj Hc).
    + assert (i = length l).
      { apply lookup_lt_Some in Hb. rewrite length_app in Hb. simpl in Hb. lia. }
      subst i. rewrite list_lookup_middle in Hb by reflexivity. injection Hb as <-.
      split; [exact Hidx|]. split.
      { rewrite Hprev, last_lookup. destruct (length l) as [|k] eqn:Hk.
        - destruct l; [reflexivity|discriminate].
        - cbn [pred]. rewrite lookup_app_l by lia. reflexivity. }
      split; [lia|]. intros j c Hj Hc.
      destruct (decide (j < length l)%nat) as [Hlt|Hge'].
      * rewrite lookup_app_l in Hc by exact Hlt. destruct (H j c Hc) as (_ & _ & H3 & _). lia.
      * assert (j = length l) by lia. subst j.
        rewrite list_lookup_middle in Hc by reflexivity. injection Hc as <-. lia.
Qed.

Section Chain.
Variable sign : string -> string -> string.

Lemma commit_leafCount (hs : list string) (s : AnchorStore) (input : CommitmentInput)
                       (rnd : string) (now : Z) :
  store_inv hs s ->
  leafCount (tree (fst (commit sign s input rnd now))) = leafCount (tree s) + 1
  /\ anchors (db (fst (commit sign s input rnd now))) = anchors (db s).
Proof.
  intros Hinv.
  destruct (commit_spec sign hs s input rnd now Hinv)
    as (c & t' & _ & _ & _ & Hok' & Hcases).
  assert (Hc : leafCount t' = leafCount (tree s) + 1).
  { unfold leafCount. rewrite (ok_count _ _ Hok'), (ok_count _ _ (inv_tree _ _ Hinv)).
    rewrite length_app. simpl. lia. }
  destruct Hcases as [(E & _ & _ & Ha)|[E _]]; rewrite E; cbn [fst tree db]; auto.
Qed.

Lemma reachable_chain (s : AnchorStore) :
  reachable sign s -> anchor_chain (leafCount (tree s)) (anchors (db s)).
Proof.
  induction 1 as [kp|s input rnd now Hreach IH|s txid ts now Hreach IH].
  - apply chain_nil.
  - destruct (reachable_inv sign s Hreach) as [hs Hinv].
    destruct (commit_leafCount hs s input rnd now Hinv) as [-> ->].
    apply (chain_grow (leafCount (tree s))); [lia|exact IH].
  - destruct (reachable_inv sign s Hreach) as [hs Hinv].
    unfold recordAnchor.
    change (ts_rootHash (getState (tree s))) with (Merkle.getRoot (tree s)).
    destruct (Merkle.getRoot (tree s)) as [root|] eqn:Hroot; [|exact IH].
    rewrite recordAnchor_writes_run. cbv zeta.
    rewrite (chain_latest _ _ IH).
    match goal with |- context [existsb ?f ?l] => destruct (existsb f l) eqn:Hconf end;
      cbn [fst tree db anchors]; [exact IH|].
    assert (Hn : 1 <= leafCount (tree s)).
    { unfold Merkle.getRoot in Hroot. unfold leafCount.
      destruct (Z.eqb_spec (_leafCount (tree s)) 0); [discriminate|].
      pose proof (ok_count _ _ (inv_tree _ _ Hinv)). lia. }
    set (a := mkAnchor _ _ _ _ _ _ _) in *.
    assert (Hidx : a_anchorIndex a = Z.of_nat (length (anchors (db s)))).
    { unfold a. cbn [a_anchorIndex]. rewrite last_lookup.
      destruct IH as [_ H].
      destruct (anchors (db s) !! pred (length (anchors (db s)))) as [b|] eqn:Hb.
      - destruct (H _ _ Hb) as [-> _]. apply lookup_lt_Some in Hb. lia.
      - apply lookup_ge_None in Hb. destruct (anchors (db s)); simpl in *; lia. }
    apply chain_snoc; try assumption; try reflexivity.
    rewrite (chain_conflict _ _ a IH Hidx) in Hconf.
    apply bool_decide_eq_false_1 in Hconf. exact Hconf.
Qed.

End Chain.

Section Anchors.
Variable sign : string -> string -> string.

(** X10. [recordAnchor], [listAnchors], [getLatestAnchor]: on a store reached
    by commits and recorded anchors, the anchors listed have distinct
    txids and indices 0, 1, 2, ... in order, each names the txid of the
    one before it (the first names none), counts between 1 and the
    number of tree leaves, counts never decrease along the list, and the
    latest anchor is the last one listed. *)
Theorem anchors_form_chain (s : AnchorStore) :
  reachable sign s ->
  listAnchors s = anchors (db s)
  /\ Store.getLatestAnchor s = last (listAnchors s)
  /\ NoDup (a_txid <$> listAnchors s)
  /\ forall (i : nat) (a : Anchor), listAnchors s !! i = Some a ->
       a_anchorIndex a = Z.of_nat i
       /\ a_previousAnchor a
          = a_txid <$> (match i with O => None | S j => listAnchors s !! j end)
       /\ 1 <= a_commitmentCount a <= leafCount (tree s)
       /\ forall (j : nat) (b : Anchor), (j <= i)%nat -> listAnchors s !! j = Some b ->
            a_commitmentCount b <= a_commitmentCount a.
Proof.
  intros Hreach. pose proof (reachable_chain sign s Hreach) as Hchain.
  unfold listAnchors, Store.getLatestAnchor.
  rewrite (chain_latest _ _ Hchain), (chain_getAllAnchors _ _ Hchain).
  split; [reflexivity|]. split; [reflexivity|]. exact Hchain.
Qed.

(** X11. [recordAnchor] on such a store throws exactly when the tree is empty
    or the txid is already recorded, and a call that throws leaves the
    store as it was. *)
Theorem recordAnchor_throws_iff (s : AnchorStore) (txid : string) (timestamp : option Z)
                                (now : Z) :
  reachable sign s ->
  (snd (recordAnchor s txid timestamp now) = None
   <-> leafCount (tree s) = 0 \/ is_Some (getAnchorByTxid (db s) txid))
  /\ (snd (recordAnchor s txid timestamp now) = None ->
      fst (recordAnchor s txid timestamp now) = s).
Proof.
  intros Hreach. pose proof (reachable_chain sign s Hreach) as Hchain.
  destruct (reachable_inv sign s Hreach) as [hs Hinv].
  pose proof (ok_count _ _ (inv_tree _ _ Hinv)) as Hcount.
  unfold recordAnchor.
  change (ts_rootHash (getState (tree s))) with (Merkle.getRoot (tree s)).
  destruct (Merkle.getRoot (tree s)) as [root|] eqn:Hroot.
  - assert (Hn : leafCount (tree s) <> 0).
    { unfold Merkle.getRoot in Hroot. unfold leafCount.
      destruct (Z.eqb_spec (_leafCount (tree s)) 0); [discriminate|assumption]. }
    rewrite recordAnchor_writes_run. cbv zeta. rewrite (chain_latest _ _ Hchain).
    set (a := mkAnchor _ _ _ _ _ _ _).
    assert (Hidx : a_anchorIndex a = Z.of_nat (length (anchors (db s)))).
    { unfold a. cbn [a_anchorIndex]. rewrite last_lookup.
      destruct Hchain as [_ H].
      destruct (anchors (db s) !! pred (length (anchors (db s)))) as [b|] eqn:Hb.
      - destruct (H _ _ Hb) as [-> _]. apply lookup_lt_Some in Hb. lia.
      - apply lookup_ge_None in Hb. destruct (anchors (db s)); simpl in *; lia. }
    rewrite (chain_conflict _ _ a Hchain Hidx). cbn [a_txid a].
    destruct (bool_decide_reflect (txid ∈ a_txid <$> anchors (db s))) as [Hin|Hout];
      cbn [fst snd].
    + split; [|intros _; destruct s; reflexivity].
      split; [|reflexivity]. intros _. right.
      destruct (getAnchorByTxid (db s) txid) eqn:E; [eauto|].
      apply getAnchorByTxid_None in E. contradiction.
    + split; [|discriminate]. split; [discriminate|].
      intros [H0|[b Hb]]; [contradiction|].
      apply getAnchorByTxid_None in Hout. congruence.
  - cbn [fst snd]. split; [|reflexivity]. split; [|reflexivity]. intros _. left.
    destruct (Z.eq_dec (leafCount (tree s)) 0) as [E|Hne]; [exact E|].
    destruct (root_digest hs (tree s) (inv_tree _ _ Hinv) (inv_digests _ _ Hinv))
      as (root & Hr & _); [unfold leafCount in Hne; lia|congruence].
Qed.

(** X12. [commit], [getTreeState]: after a commit that returns, the tree state
    read back has the current root and leaf count, and its
    [lastAnchorIndex] is -1 whatever anchors are recorded: [commit]
    saves [tree.getState()], which carries -1; the anchors listed are
    unchanged. *)
Theorem commit_resets_lastAnchorIndex (s s' : AnchorStore) (input : CommitmentInput)
                                      (rnd : string) (now : Z) (c : Commitment) :
  commit sign s input rnd now = (s', Some c) ->
  ts_lastAnchorIndex (Store.getTreeState s') = -1
  /\ ts_rootHash (Store.getTreeState s') = Store.getRoot s'
  /\ ts_leafCount (Store.getTreeState s') = leafCount (tree s')
  /\ Store.listAnchors s' = Store.listAnchors s.
Proof.
  unfold commit.
  destruct (addLeaf (tree s) _) as [t' [[hash index]|]]; [|discriminate].
  match goal with
  | |- context [run_steps (commit_writes ?c0 ?t0) ?d0] =>
      destruct (commit_writes_run c0 t0 d0) as [(d' & Hrun & _ & _ & Ha & _ & Hts)|[Hrun _]];
      rewrite Hrun
  end; [|discriminate].
  intros [= <- _]. unfold Store.getTreeState, Db.getTreeState, Store.listAnchors, getAllAnchors.
  cbn [db tree ts_lastAnchorIndex ts_rootHash ts_leafCount]. rewrite Hts, Ha.
  repeat split.
Qed.

End Anchors.

Lemma anchors_form_chain_witness :
  reachable Samples.sample_sign Samples.s3
  /\ NoDup (a_txid <$> listAnchors Samples.s3)
  /\ Store.getLatestAnchor Samples.s3 = last (listAnchors Samples.s3).
Proof.
  assert (Hr : reachable Samples.sample_sign Samples.s3)
    by (apply reach_commit, reach_record, reach_commit, reach_fresh).
  destruct (anchors_form_chain Samples.sample_sign Samples.s3 Hr) as (_ & Hlast & Hnd & _).
  split; [exact Hr|]. split; [exact Hnd|exact Hlast].
Defined.

Lemma recordAnchor_throws_iff_witness :
  reachable Samples.sample_sign Samples.s2
  /\ snd (recordAnchor Samples.s2 "t1" None 5000) = None
  /\ fst (recordAnchor Samples.s2 "t1" None 5000) = Samples.s2.
Proof.
  assert (Hr : reachable Samples.sample_sign Samples.s2)
    by (apply reach_record, reach_commit, reach_fresh).
  destruct (recordAnchor_throws_iff Samples.sample_sign Samples.s2 "t1" None 5000 Hr) as [Hiff Hsame].
  assert (Hnone : snd (recordAnchor Samples.s2 "t1" None 5000) = None).
  { apply Hiff. right. vm_compute. eauto. }
  split; [exact Hr|]. split; [exact Hnone|exact (Hsame Hnone)].
Defined.

Lemma commit_resets_lastAnchorIndex_witness :
  exists s' c a,
    commit Samples.sample_sign Samples.s2 Samples.input2 "000000000000000000000002" 3000
    = (s', Some c)
    /\ Store.getLatestAnchor s' = Some a /\ a_anchorIndex a = 0
    /\ ts_lastAnchorIndex (Store.getTreeState s') = -1.
Proof.
  assert (E : exists s' c a,
             commit Samples.sample_sign Samples.s2 Samples.input2 "000000000000000000000002" 3000
             = (s', Some c)
             /\ Store.getLatestAnchor s' = Some a /\ a_anchorIndex a = 0).
  { eexists. eexists. eexists. split; [vm_compute; reflexivity|]. split; vm_compute; reflexivity. }
  destruct E as (s' & c & a & E & Hl & Hi). exists s', c, a.
  split; [exact E|]. split; [exact Hl|]. split; [exact Hi|].
  apply (commit_resets_lastAnchorIndex _ _ _ _ _ _ _ E).
Defined.

Lemma find_row_None (id : string) (rows : list CommitmentRow) :
  find_row id rows = None <-> id ∉ r_id <$> rows.
Proof.
  unfold find_row. rewrite find_none_elem. split.
  - intros H Hin. apply list_elem_of_fmap in Hin as (row & -> & Hrow).
    specialize (H row Hrow). rewrite String.eqb_refl in H. discriminate.
  - intros H row Hrow. destruct (String.eqb_spec (r_id row) id) as [<-|]; [|reflexivity].
    exfalso. apply H. apply list_elem_of_fmap. eauto.
Qed.

Section Rows.
Variable sign : string -> string -> string.

(** [commit], with the commitment it builds written out. *)
Lemma commit_result (hs : list string) (s : AnchorStore) (input : CommitmentInput)
                    (rnd : string) (now : Z) :
  store_inv hs s ->
  let id := "commit_" +:+ rnd in
  let sig := sign (canonicalizeCommitment
                     (mkCanonInput id (in_type input) (in_payload input) now EmptyString))
                  (privateKey (keyPair s)) in
  let hash := hashLeaf (canonicalizeCommitment
                          (mkCanonInput id (in_type input) (in_payload input) now sig)) in
  let c := mkCommitment id (in_type input) (in_payload input) sig now
                        (Some hash) (Some (Z.of_nat (length hs))) in
  exists (t' : MerkleTree) (d' : Database),
    tree_ok (hs ++ [hash]) t'
    /\ ((find_row id (commitments (db s)) = None
         /\ run_steps (commit_writes c t') (db s) = (d', true)
         /\ commit sign s input rnd now
            = (mkStore d' t' (keyPair s) (anchorStrategy s), Some c)
         /\ commitments d' = (commitments (db s) ++ [row_of_commitment c])%list
         /\ anchors d' = anchors (db s) /\ config d' = config (db s))
        \/ (is_Some (find_row id (commitments (db s)))
            /\ commit sign s input rnd now
               = (mkStore (db s) t' (keyPair s) (anchorStrategy s), None))).
Proof.
  intros Hinv id sig hash c. unfold commit. fold id. fold sig.
  change (canon_input (mkCommitment id (in_type input) (in_payload input) sig now None None))
    with (mkCanonInput id (in_type input) (in_payload input) now sig).
  destruct (addLeaf_returns hs (tree s)
              (canonicalizeCommitment
                 (mkCanonInput id (in_type input) (in_payload input) now sig))
              (inv_tree _ _ Hinv) (digests_hex _ (inv_digests _ _ Hinv)))
    as (t' & E & Hok').
  rewrite E. fold hash. fold c.
  destruct (commit_writes_run c t' (db s)) as [(d' & Hrun & Hnone & Hc & Ha & Hcfg & _)|[Hrun Hsome]].
  - exists t', d'. split; [exact Hok'|]. left. rewrite Hrun. auto 10.
  - exists t', (db s). split; [exact Hok'|]. right. rewrite Hrun. auto.
Qed.

Lemma rows_ok_grow (kp : KeyPair) (n n' : Z) (rows : list CommitmentRow) :
  n <= n' -> rows_ok sign kp n rows -> rows_ok sign kp n' rows.
Proof.
  intros Hn [H1 H2 H3]. split; [exact H1|exact H2|].
  eapply Forall_impl; [exact H3|]. intros row (Hr & Hh & Hs). repeat split; try assumption; lia.
Qed.

Lemma reachable_rows (s : AnchorStore) :
  reachable sign s ->
  rows_ok sign (keyPair s) (leafCount (tree s)) (commitments (db s))
  /\ config (db s) = ∅ /\ anchorStrategy s = "manual".
Proof.
  induction 1 as [kp|s input rnd now Hreach (IH & Hcfg & Hstrat)|s txid ts now Hreach (IH & Hcfg & Hstrat)].
  - split; [|split; reflexivity]. split; constructor.
  - destruct (reachable_inv sign s Hreach) as [hs Hinv].
    pose proof (ok_count _ _ (inv_tree _ _ Hinv)) as Hcount.
    destruct (commit_result hs s input rnd now Hinv) as (t' & d' & Hok' & Hcases).
    assert (Hc' : leafCount t' = leafCount (tree s) + 1).
    { unfold leafCount. rewrite (ok_count _ _ Hok'), Hcount, length_app. simpl. lia. }
    destruct Hcases as [(Hnone & _ & E & Hrows & _ & Hcfg')|(_ & E)]; rewrite E;
      cbn [fst tree db keyPair anchorStrategy].
    + split; [|split; [congruence|exact Hstrat]].
      rewrite Hc', Hrows. destruct IH as [H1 H2 H3]. split.
      * rewrite fmap_app. apply NoDup_app. split; [exact H1|]. split; [|apply NoDup_singleton].
        intros x Hx Hx'. cbn in Hx'. apply list_elem_of_singleton in Hx'. subst x.
        apply find_row_None in Hnone. contradiction.
      * rewrite fmap_app. apply StronglySorted_app_2; [|exact H2|repeat constructor].
        intros x1 x2 Hx1 Hx2. cbn in Hx2. apply list_elem_of_singleton in Hx2. subst x2.
        apply list_elem_of_fmap in Hx1 as (row & -> & Hrow).
        rewrite Forall_forall in H3. destruct (H3 row Hrow) as (Hr & _).
        unfold leafCount in Hr. lia.
      * apply Forall_app. split.
        -- eapply Forall_impl; [exact H3|]. intros row (Hr & Hh & Hs).
           repeat split; try assumption; lia.
        -- constructor; [|constructor]. cbn [row_of_commitment r_tree_index c_treeIndex from_option id].
           unfold leafCount. split; [lia|]. split; reflexivity.
    + split; [|split; assumption]. rewrite Hc'. apply (rows_ok_grow _ (leafCount (tree s))); [lia|exact IH].
  - destruct (recordAnchor_db s txid ts now) as [Ht Hc].
    assert (Hk : keyPair (fst (recordAnchor s txid ts now)) = keyPair s
                 /\ config (db (fst (recordAnchor s txid ts now))) = config (db s)
                 /\ anchorStrategy (fst (recordAnchor s txid ts now)) = anchorStrategy s).
    { unfold recordAnchor. destruct (ts_rootHash (getState (tree s))); [|auto].
      rewrite recordAnchor_writes_run. cbv zeta.
      destruct (existsb _ (anchors (db s))); auto. }
    destruct Hk as (Hk & Hcf & Hst). rewrite Ht, Hc, Hk, Hcf, Hst. auto.
Qed.

End Rows.

(** *** Proofs handed out by the store *)

Section Verify.
Variable sign : string -> string -> string.
Variable verifySignature : string -> string -> string -> bool.

(** X13. [prove], [verifyInclusion], [verify]: on a store reached by commits
    and recorded anchors, every proof that [prove] returns is for the
    commitment asked for and passes [verifyInclusion]; it passes
    [verify] with the store's public key whenever signatures made with
    the store's private key verify under that public key. *)
Theorem proofs_handed_out_verify (s : AnchorStore) (commitmentId : string) (p : CommitmentProof) :
  reachable sign s ->
  prove s commitmentId = Some p ->
  c_id (cp_commitment p) = commitmentId
  /\ verifyInclusion p = Some true
  /\ ((forall msg, verifySignature msg (sign msg (privateKey (keyPair s)))
                                   (publicKey (keyPair s)) = true) ->
      verify verifySignature p (publicKey (keyPair s)) = Some true).
Proof.
  intros Hreach. destruct (reachable_inv sign s Hreach) as [hs Hinv].
  destruct (reachable_rows sign s Hreach) as [[_ _ Hrows] _].
  unfold prove, get, getCommitment.
  destruct (find_row commitmentId (commitments (db s))) as [row|] eqn:Hfind; [|discriminate].
  cbn [fmap option_fmap option_map].
  destruct (find_row_elem _ _ _ Hfind) as [Hin Hid].
  rewrite Forall_forall in Hrows. destruct (Hrows row Hin) as (Hrange & Hhash & Hsig).
  pose proof (inv_rows _ _ Hinv) as Hleaf. rewrite Forall_forall in Hleaf.
  specialize (Hleaf row Hin).
  unfold rowToCommitment at 1. cbn [c_treeIndex].
  destruct (Z.geb_spec (r_tree_index row) 0); [|lia].
  assert (Hidx : 0 <= r_tree_index row < Z.of_nat (length hs)).
  { destruct (Z_lt_ge_dec (r_tree_index row) (Z.of_nat (length hs))); [lia|].
    rewrite zlookup_None in Hleaf by lia. discriminate. }
  destruct (generateProof_verifies hs (tree s) (inv_tree _ _ Hinv) (r_tree_index row) Hidx)
    as (mp & Hmp & _ & Hlh & _ & Hver).
  rewrite Hmp. rewrite Hleaf in Hlh. cbn [from_option id] in Hlh.
  destruct (List.find _ (getAllAnchors (db s))) as [a|]; [|discriminate].
  intros [= <-].
  assert (Hincl : verifyInclusion
                    (mkCommitmentProof (rowToCommitment row) mp
                       (mkAnchorRef (a_txid a) (a_blockHeight a) (a_timestamp a))) = Some true).
  { unfold verifyInclusion. cbn [cp_merkleProof cp_commitment]. rewrite Hver.
    rewrite bool_decide_eq_true_2; [reflexivity|]. rewrite Hlh. symmetry. exact Hhash. }
  split; [exact Hid|]. split; [exact Hincl|].
  intros Hscheme. unfold verify. rewrite Hincl. cbn [cp_commitment].
  f_equal. unfold rowToCommitment.
  cbn [c_id c_type c_payload c_timestamp c_signature].
  fold (unsigned_text row). rewrite Hsig. apply Hscheme.
Qed.

End Verify.

Lemma proofs_handed_out_verify_witness :
  exists p, prove Samples.s2 Samples.id1 = Some p
            /\ verifyInclusion p = Some true
            /\ verify Samples.sample_verify p (publicKey (keyPair Samples.s2)) = Some true.
Proof.
  assert (Hr : reachable Samples.sample_sign Samples.s2)
    by (apply reach_record, reach_commit, reach_fresh).
  assert (E : exists p, prove Samples.s2 Samples.id1 = Some p)
    by (eexists; vm_compute; reflexivity).
  destruct E as [p E]. exists p. split; [exact E|].
  destruct (proofs_handed_out_verify Samples.sample_sign Samples.sample_verify
              Samples.s2 Samples.id1 p Hr E) as (_ & Hincl & Hver).
  split; [exact Hincl|]. apply Hver.
  intros msg. unfold Samples.sample_verify. apply String.eqb_refl.
Defined.

(** *** Tree indices *)

Lemma sorted_lookup_lt (l : list Z) :
  StronglySorted Z.lt l ->
  forall (i j : nat) (x y : Z), l !! i = Some x -> l !! j = Some y -> (i < j)%nat -> x < y.
Proof.
  induction 1 as [|z l Hs IH Hall]; intros i j x y Hx Hy Hij.
  - rewrite lookup_nil in Hx. discriminate.
  - destruct j as [|j]; [lia|]. cbn in Hy. destruct i as [|i].
    + cbn in Hx. injection Hx as <-. rewrite Forall_forall in Hall.
      apply Hall. eapply list_elem_of_lookup_2. exact Hy.
    + cbn in Hx. apply (IH i j); [exact Hx|exact Hy|lia].
Qed.

Lemma sorted_gap (l : list Z) :
  StronglySorted Z.lt l ->
  forall (k i : nat) (x y : Z),
    l !! i = Some x -> l !! (i + k)%nat = Some y -> x + Z.of_nat k <= y.
Proof.
  intros Hs. induction k as [|k IH]; intros i x y Hx Hy.
  - rewrite Nat.add_0_r in Hy. assert (x = y) by congruence. lia.
  - assert (Hm : is_Some (l !! (i + k)%nat)).
    { apply lookup_lt_is_Some. apply lookup_lt_Some in Hy. lia. }
    destruct Hm as [m Hm]. pose proof (IH i x m Hx Hm).
    pose proof (sorted_lookup_lt l Hs (i + k) (i + S k) m y Hm Hy ltac:(lia)). lia.
Qed.

(** Increasing indices below the number of rows are 0, 1, 2, ... *)
Lemma sorted_full (l : list Z) :
  StronglySorted Z.lt l -> Forall (fun x => 0 <= x < Z.of_nat (length l)) l ->
  forall (i : nat) (x : Z), l !! i = Some x -> x = Z.of_nat i.
Proof.
  intros Hs Hall i x Hx. rewrite Forall_forall in Hall.
  pose proof (lookup_lt_Some _ _ _ Hx) as Hi.
  assert (H0 : is_Some (l !! 0%nat)) by (apply lookup_lt_is_Some; lia).
  assert (Hn : is_Some (l !! (i + (length l - 1 - i))%nat)) by (apply lookup_lt_is_Some; lia).
  destruct H0 as [a Ha]. destruct Hn as [b Hb].
  pose proof (sorted_gap l Hs i 0%nat a x Ha Hx).
  pose proof (sorted_gap l Hs (length l - 1 - i) i x b Hx Hb).
  pose proof (Hall a (list_elem_of_lookup_2 _ _ _ Ha)).
  pose proof (Hall b (list_elem_of_lookup_2 _ _ _ Hb)). lia.
Qed.

Lemma sorted_NoDup (l : list Z) : StronglySorted Z.lt l -> NoDup l.
Proof.
  induction 1 as [|z l Hs IH Hall]; constructor; [|exact IH].
  intros Hin. rewrite Forall_forall in Hall. specialize (Hall z Hin). lia.
Qed.

Lemma NoDup_fmap_eq {A B} (f : A -> B) (l : list A) (a b : A) :
  NoDup (f <$> l) -> a ∈ l -> b ∈ l -> f a = f b -> a = b.
Proof.
  induction l as [|x l IH]; intros Hnd Ha Hb Hf; [inversion Ha|].
  cbn in Hnd. apply NoDup_cons in Hnd as [Hx Hnd].
  apply elem_of_cons in Ha as [->|Ha]; apply elem_of_cons in Hb as [->|Hb].
  - reflexivity.
  - exfalso. apply Hx. rewrite Hf. apply list_elem_of_fmap. eauto.
  - exfalso. apply Hx. rewrite <- Hf. apply list_elem_of_fmap. eauto.
  - apply IH; assumption.
Qed.

#[local] Instance tree_index_le_trans : Transitive tree_index_le.
Proof. intros a b c. unfold tree_index_le. lia. Qed.

#[local] Instance tree_index_le_total : Total tree_index_le.
Proof. intros a b. unfold tree_index_le. lia. Qed.

Lemma sorted_rows_order (rows : list CommitmentRow) :
  StronglySorted Z.lt (r_tree_index <$> rows) -> merge_sort tree_index_le rows = rows.
Proof.
  intros Hs. apply (StronglySorted_unique_strong tree_index_le).
  - intros a b Ha Hb Hab Hba. rewrite merge_sort_Permutation in Ha.
    apply (NoDup_fmap_eq r_tree_index rows); [apply sorted_NoDup, Hs|assumption|assumption|].
    unfold tree_index_le in *. lia.
  - apply StronglySorted_merge_sort; apply _.
  - apply StronglySorted_of_lookup. intros i j a b Ha Hb Hij. unfold tree_index_le.
    assert (r_tree_index a < r_tree_index b); [|lia].
    apply (sorted_lookup_lt _ Hs i j); [| |exact Hij]; rewrite list_lookup_fmap.
    + rewrite Ha. reflexivity.
    + rewrite Hb. reflexivity.
  - apply merge_sort_Permutation.
Qed.

Section Index.
Variable sign : string -> string -> string.

(** X14. [getCommitmentByIndex], [get]: on such a store tree indices identify
    commitments: looking a stored commitment up by its tree index and
    by its id give the same commitment. *)
Theorem tree_index_identifies (s : AnchorStore) (c : Commitment) (i : Z) :
  reachable sign s ->
  c_treeIndex c = Some i ->
  (getCommitmentByIndex (db s) i = Some c <-> get s (c_id c) = Some c).
Proof.
  intros Hreach Hi. destruct (reachable_rows sign s Hreach) as [[Hids Hsorted Hrows] _].
  rewrite Forall_forall in Hrows.
  assert (Hidx : forall row, row ∈ commitments (db s) ->
                   c_treeIndex (rowToCommitment row) = Some (r_tree_index row)).
  { intros row Hin. destruct (Hrows row Hin) as (Hr & _).
    unfold rowToCommitment. cbn [c_treeIndex].
    destruct (Z.geb_spec (r_tree_index row) 0); [reflexivity|lia]. }
  unfold getCommitmentByIndex, get, getCommitment. split.
  - destruct (List.find _ (commitments (db s))) as [row|] eqn:Hfind; [|discriminate].
    intros [= <-]. apply find_some in Hfind as [Hin Heq]. apply list_elem_of_In in Hin.
    destruct (find_row (c_id (rowToCommitment row)) (commitments (db s))) as [row'|] eqn:Hfind'.
    + destruct (find_row_elem _ _ _ Hfind') as [Hin' Hid]. cbn. f_equal. f_equal.
      apply (NoDup_fmap_eq r_id (commitments (db s))); assumption.
    + apply find_row_None in Hfind'. exfalso. apply Hfind'.
      apply list_elem_of_fmap. exists row. auto.
  - destruct (find_row (c_id c) (commitments (db s))) as [row|] eqn:Hfind; [|discriminate].
    intros [= <-]. destruct (find_row_elem _ _ _ Hfind) as [Hin _].
    rewrite (Hidx row Hin) in Hi. injection Hi as <-.
    destruct (List.find (fun row0 => r_tree_index row0 =? r_tree_index row)
                (commitments (db s))) as [row'|] eqn:Hfind'.
    + apply find_some in Hfind' as [Hin' Heq]. apply list_elem_of_In in Hin'.
      apply Z.eqb_eq in Heq. cbn. f_equal. f_equal.
      apply (NoDup_fmap_eq r_tree_index (commitments (db s)));
        [apply sorted_NoDup, Hsorted|assumption|assumption|exact Heq].
    + exfalso. apply list_elem_of_In in Hin.
      pose proof (find_none _ _ Hfind' row Hin) as Hn. cbn in Hn.
      rewrite Z.eqb_refl in Hn. discriminate.
Qed.

End Index.

Lemma tree_index_identifies_witness :
  exists c, get Samples.s1 Samples.id1 = Some c
            /\ getCommitmentByIndex (db Samples.s1) 0 = Some c.
Proof.
  assert (Hr : reachable Samples.sample_sign Samples.s1)
    by (apply reach_commit, reach_fresh).
  assert (E : exists c, get Samples.s1 Samples.id1 = Some c
                        /\ c_id c = Samples.id1 /\ c_treeIndex c = Some 0).
  { eexists. split; [vm_compute; reflexivity|]. split; reflexivity. }
  destruct E as (c & E & Hid & Hidx). exists c. split; [exact E|].
  apply (tree_index_identifies Samples.sample_sign Samples.s1 c 0 Hr Hidx).
  rewrite Hid. exact E.
Defined.

(** *** Opening a store again *)

Lemma tree_ok_lookup (hs : list string) (t t' : MerkleTree) :
  tree_ok hs t -> tree_ok hs t' ->
  forall l i, getLevel t' l !! i = getLevel t l !! i.
Proof.
  intros Hok Hok' l i.
  destruct (Z_lt_ge_dec l 0) as [Hneg|Hpos].
  { rewrite (ok_above _ _ Hok), (ok_above _ _ Hok') by lia. reflexivity. }
  destruct (Z_lt_ge_dec (height (Z.of_nat (length hs))) l) as [Hhigh|Hlow].
  { rewrite (ok_above _ _ Hok), (ok_above _ _ Hok') by lia. reflexivity. }
  rewrite <- (Z2Nat.id l) by lia.
  rewrite (ok_nodes _ _ Hok), (ok_nodes _ _ Hok') by lia. reflexivity.
Qed.

Lemma find_app_first {A} (f : A -> bool) (l1 l2 : list A) :
  List.find f (l1 ++ l2)
  = match List.find f l1 with Some x => Some x | None => List.find f l2 end.
Proof.
  induction l1 as [|x l1 IH]; [reflexivity|]. cbn [app List.find].
  destruct (f x); [reflexivity|exact IH].
Qed.

Section Reopen.
Variable sign : string -> string -> string.

(** X15. [open] on the database of a store reached by commits and recorded
    anchors, none of whose commits threw: it returns a store over the
    same database whose tree has the same leaf count, nodes and root,
    and [prove] answers alike on both. *)
Theorem reopen_same_tree (s : AnchorStore) :
  reachable sign s ->
  count s = leafCount (tree s) ->
  exists s', open (db s) (keyPair s) = Some s'
    /\ db s' = db s /\ keyPair s' = keyPair s /\ anchorStrategy s' = anchorStrategy s
    /\ leafCount (tree s') = leafCount (tree s)
    /\ (forall l i, getLevel (tree s') l !! i = getLevel (tree s) l !! i)
    /\ Store.getRoot s' = Store.getRoot s
    /\ (forall id, prove s' id = prove s id).
Proof.
  intros Hreach Hfull. destruct (reachable_inv sign s Hreach) as [hs Hinv].
  destruct (reachable_rows sign s Hreach) as ([_ Hsorted Hrows] & Hcfg & Hstrat).
  pose proof (ok_count _ _ (inv_tree _ _ Hinv)) as Hcount.
  unfold count, getCommitmentCount, leafCount in Hfull.
  set (rows := commitments (db s)) in *.
  assert (Hlen : length rows = length hs) by lia.
  assert (Hpos : forall (i : nat) row, rows !! i = Some row -> r_tree_index row = Z.of_nat i).
  { intros i row Hrow. apply (sorted_full (r_tree_index <$> rows) Hsorted).
    - apply Forall_fmap. eapply Forall_impl; [exact Hrows|]. intros r (Hr & _). cbn.
      rewrite length_fmap. unfold leafCount in Hr. lia.
    - rewrite list_lookup_fmap, Hrow. reflexivity. }
  assert (Hleaves : r_leaf_hash <$> rows = hs).
  { apply list_eq. intros i. rewrite list_lookup_fmap.
    destruct (rows !! i) as [row|] eqn:Hrow; cbn.
    - pose proof (inv_rows _ _ Hinv) as Hl. rewrite Forall_forall in Hl.
      specialize (Hl row (list_elem_of_lookup_2 _ _ _ Hrow)).
      rewrite (Hpos i row Hrow) in Hl. unfold zlookup in Hl.
      destruct (Z.ltb_spec (Z.of_nat i) 0); [lia|]. rewrite Nat2Z.id in Hl. congruence.
    - symmetry. apply lookup_ge_None. apply lookup_ge_None in Hrow. lia. }
  assert (Htruthy : List.filter truthy hs = hs).
  { pose proof (inv_digests _ _ Hinv) as Hd. clear -Hd.
    induction Hd as [|h hs Hh _ IH]; [reflexivity|]. cbn [List.filter].
    rewrite (proj2 (digest_is_hex h Hh)), IH. reflexivity. }
  destruct (replay_rows rows [] Merkle.empty tree_ok_empty ltac:(constructor))
    as (t' & Hrun & Hok').
  { apply Forall_forall. intros row Hin. right. apply digest_is_hex.
    pose proof (inv_digests _ _ Hinv) as Hd. rewrite Forall_forall in Hd. apply Hd.
    rewrite <- Hleaves. apply list_elem_of_fmap. eauto. }
  cbn [app] in Hok'. rewrite Hleaves, Htruthy in Hok'.
  unfold open, getAllCommitments. fold rows. rewrite (sorted_rows_order rows Hsorted), Hrun.
  eexists. split; [reflexivity|]. cbn [db keyPair anchorStrategy tree].
  split; [reflexivity|]. split; [reflexivity|].
  split. { unfold getConfig. rewrite Hcfg, lookup_empty, Hstrat. reflexivity. }
  assert (Hc : _leafCount t' = _leafCount (tree s))
    by (rewrite (ok_count _ _ Hok'), Hcount; reflexivity).
  pose proof (tree_ok_lookup hs (tree s) t' (inv_tree _ _ Hinv) Hok') as Hlook.
  destruct (tree_ext (tree s) t' Hc Hlook) as [Hroot Hgen].
  split; [exact Hc|]. split; [exact Hlook|]. split; [exact Hroot|].
  intros id. unfold prove, get. cbn [db tree].
  destruct (getCommitment (db s) id) as [c|]; [|reflexivity].
  destruct (c_treeIndex c) as [idx|]; [|reflexivity]. rewrite Hgen. reflexivity.
Qed.

(** X16. [commit], [get], [count]: a commit that returns gives a commitment
    with id [commit_<random>], the input's type and payload, the next
    leaf index and the leaf hash of its canonical form; the id was not
    stored before, [get] now finds it with the same id, type, signature,
    timestamp, leaf hash and tree index, [count] and the leaf count grow
    by one, and every other id reads as before. *)
Theorem commit_then_get (s s' : AnchorStore) (input : CommitmentInput) (rnd : string)
                        (now : Z) (c : Commitment) :
  reachable sign s ->
  commit sign s input rnd now = (s', Some c) ->
  c_id c = "commit_" +:+ rnd
  /\ c_type c = in_type input /\ c_payload c = in_payload input /\ c_timestamp c = now
  /\ c_treeIndex c = Some (leafCount (tree s))
  /\ c_leafHash c = Some (hashLeaf (canonicalizeCommitment (canon_input c)))
  /\ get s (c_id c) = None
  /\ (exists stored, get s' (c_id c) = Some stored
        /\ c_id stored = c_id c /\ c_type stored = c_type c
        /\ c_signature stored = c_signature c /\ c_timestamp stored = c_timestamp c
        /\ c_leafHash stored = c_leafHash c /\ c_treeIndex stored = c_treeIndex c)
  /\ count s' = count s + 1
  /\ leafCount (tree s') = leafCount (tree s) + 1
  /\ (forall id, id <> c_id c -> get s' id = get s id).
Proof.
  intros Hreach Hcommit. destruct (reachable_inv sign s Hreach) as [hs Hinv].
  pose proof (ok_count _ _ (inv_tree _ _ Hinv)) as Hcount.
  destruct (commit_result sign hs s input rnd now Hinv) as (t' & d' & Hok' & Hcases).
  destruct Hcases as [(Hnone & _ & E & Hrows & _)|(_ & E)]; rewrite E in Hcommit; [|discriminate].
  injection Hcommit as <- <-.
  cbn [c_id c_type c_payload c_timestamp c_treeIndex c_leafHash db tree].
  split; [reflexivity|]. split; [reflexivity|]. split; [reflexivity|]. split; [reflexivity|].
  split; [unfold leafCount; rewrite Hcount; reflexivity|]. split; [reflexivity|].
  split; [unfold get, getCommitment; rewrite Hnone; reflexivity|].
  split.
  { eexists. split.
    - unfold get, getCommitment, find_row. cbn [db]. rewrite Hrows.
      rewrite find_app_first. fold (find_row ("commit_" +:+ rnd) (commitments (db s))).
      rewrite Hnone. cbn [List.find row_of_commitment r_id c_id]. rewrite String.eqb_refl.
      cbn [fmap option_fmap option_map]. reflexivity.
    - unfold rowToCommitment, row_of_commitment.
      cbn [r_id r_type r_payload r_signature r_timestamp r_leaf_hash r_tree_index
           c_id c_type c_payload c_signature c_timestamp c_leafHash c_treeIndex from_option id].
      match goal with
      | |- context [truthy (hashLeaf ?x)] => rewrite (is_hex_truthy _ (leaf_hash_data_hex x))
      end.
      destruct (Z.geb_spec (Z.of_nat (length hs)) 0); [repeat split|lia]. }
  split. { unfold count, getCommitmentCount. cbn [db]. rewrite Hrows, length_app. simpl. lia. }
  split. { unfold leafCount. rewrite (ok_count _ _ Hok'), Hcount, length_app. simpl. lia. }
  intros id Hne. unfold get, getCommitment, find_row. cbn [db]. rewrite Hrows, find_app_first.
  destruct (List.find _ (commitments (db s))); [reflexivity|].
  cbn [List.find row_of_commitment r_id c_id].
  destruct (String.eqb_spec ("commit_" +:+ rnd) id); [congruence|reflexivity].
Qed.

(** X17. [commit] with an id that is already stored: the call throws and the
    database is unchanged, but the in-memory tree has grown by one leaf
    (the leaf is added before the transaction), so the tree then has
    more leaves than there are commitments. *)
Theorem commit_duplicate_id (s : AnchorStore) (input : CommitmentInput) (rnd : string) (now : Z) :
  reachable sign s ->
  is_Some (get s ("commit_" +:+ rnd)) ->
  snd (commit sign s input rnd now) = None
  /\ db (fst (commit sign s input rnd now)) = db s
  /\ leafCount (tree (fst (commit sign s input rnd now))) = leafCount (tree s) + 1
  /\ count (fst (commit sign s input rnd now)) < leafCount (tree (fst (commit sign s input rnd now))).
Proof.
  intros Hreach Hdup. destruct (reachable_inv sign s Hreach) as [hs Hinv].
  pose proof (ok_count _ _ (inv_tree _ _ Hinv)) as Hcount.
  destruct (reachable_rows sign s Hreach) as ([_ Hsorted Hrows] & _).
  destruct (commit_result sign hs s input rnd now Hinv) as (t' & d' & Hok' & Hcases).
  destruct Hcases as [(Hnone & _)|(_ & E)].
  { unfold get, getCommitment in Hdup. rewrite Hnone in Hdup. destruct Hdup; discriminate. }
  rewrite E. cbn [fst snd db tree].
  assert (Hc' : leafCount t' = leafCount (tree s) + 1).
  { unfold leafCount. rewrite (ok_count _ _ Hok'), Hcount, length_app. simpl. lia. }
  split; [reflexivity|]. split; [reflexivity|]. split; [exact Hc'|].
  rewrite Hc'. unfold count, getCommitmentCount. cbn [db].
  assert (length (commitments (db s)) <= length hs)%nat; [|unfold leafCount; lia].
  (* increasing indices below the leaf count *)
  assert (Hb : forall (i : nat) x, (r_tree_index <$> commitments (db s)) !! i = Some x ->
                 Z.of_nat i <= x < Z.of_nat (length hs)).
  { intros i x Hx. split.
    - assert (H0 : is_Some ((r_tree_index <$> commitments (db s)) !! 0%nat)).
      { apply lookup_lt_is_Some. apply lookup_lt_Some in Hx. lia. }
      destruct H0 as [a Ha].
      pose proof (sorted_gap _ Hsorted i 0%nat a x Ha Hx).
      apply list_elem_of_lookup_2, list_elem_of_fmap in Ha as (row & -> & Hrow).
      rewrite Forall_forall in Hrows. destruct (Hrows row Hrow) as (? & _). lia.
    - apply list_elem_of_lookup_2, list_elem_of_fmap in Hx as (row & -> & Hrow).
      rewrite Forall_forall in Hrows. destruct (Hrows row Hrow) as (? & _).
      unfold leafCount in *. lia. }
  destruct (commitments (db s)) as [|r0 rest] eqn:Erows using rev_ind; [simpl; lia|].
  clear IHrest. specialize (Hb (length rest) (r_tree_index r0)).
  rewrite fmap_app, lookup_app_r, length_fmap, Nat.sub_diag in Hb by (rewrite length_fmap; lia).
  specialize (Hb eq_refl). rewrite length_app. simpl. lia.
Qed.

End Reopen.

Lemma reopen_same_tree_witness :
  exists s', open (db Samples.s2) (keyPair Samples.s2) = Some s'
             /\ Store.getRoot s' = Store.getRoot Samples.s2
             /\ prove s' Samples.id1 = prove Samples.s2 Samples.id1.
Proof.
  assert (Hr : reachable Samples.sample_sign Samples.s2)
    by (apply reach_record, reach_commit, reach_fresh).
  destruct (reopen_same_tree Samples.sample_sign Samples.s2 Hr)
    as (s' & Hopen & _ & _ & _ & _ & _ & Hroot & Hprove); [reflexivity|].
  exists s'. split; [exact Hopen|]. split; [exact Hroot|apply Hprove].
Defined.

Lemma commit_then_get_witness :
  exists s' c,
    commit Samples.sample_sign (fresh Samples.sample_key) Samples.input1
           "000000000000000000000001" 1000
    = (s', Some c)
    /\ is_Some (get s' (c_id c)) /\ count s' = count (fresh Samples.sample_key) + 1.
Proof.
  assert (Hr : reachable Samples.sample_sign (fresh Samples.sample_key))
    by apply reach_fresh.
  assert (E : exists s' c,
             commit Samples.sample_sign (fresh Samples.sample_key) Samples.input1
                    "000000000000000000000001" 1000
             = (s', Some c)).
  { eexists. eexists. vm_compute. reflexivity. }
  destruct E as (s' & c & E). exists s', c. split; [exact E|].
  destruct (commit_then_get Samples.sample_sign _ _ _ _ _ _ Hr E)
    as (_ & _ & _ & _ & _ & _ & _ & (stored & Hget & _) & Hcount & _).
  split; [rewrite Hget; eexists; reflexivity|exact Hcount].
Defined.

Lemma commit_duplicate_id_witness :
  snd (commit Samples.sample_sign Samples.s1 Samples.input2 "000000000000000000000001" 3000)
  = None
  /\ leafCount (tree (fst (commit Samples.sample_sign Samples.s1 Samples.input2
                             "000000000000000000000001" 3000))) = leafCount (tree Samples.s1) + 1.
Proof.
  assert (Hr : reachable Samples.sample_sign Samples.s1) by (apply reach_commit, reach_fresh).
  destruct (commit_duplicate_id Samples.sample_sign Samples.s1 Samples.input2
              "000000000000000000000001" 3000 Hr) as (Hnone & _ & Hcount & _).
  - vm_compute. eauto.
  - split; [exact Hnone|exact Hcount].
Defined.

Lemma recordAnchor_returned (s s' : AnchorStore) (txid : string) (timestamp : option Z)
                            (now : Z) (a : Anchor) :
  recordAnchor s txid timestamp now = (s', Some a) ->
  a_commitmentCount a = leafCount (tree s)
  /\ anchors (db s') = (anchors (db s) ++ [a])%list.
Proof.
  unfold recordAnchor.
  destruct (ts_rootHash (getState (tree s))) as [root|]; [|discriminate].
  rewrite recordAnchor_writes_run. cbv zeta.
  destruct (existsb _ (anchors (db s))); [discriminate|].
  intros [= <- <-]. split; reflexivity.
Qed.

Section AnchorOnce.
Variable sign : string -> string -> string.

(** X18. [anchor]: on a store none of whose commits threw, a call that throws
    leaves the store unchanged; a call that returns an anchor makes it
    the latest one, covering every commitment, after which nothing is
    unanchored and any further [anchor] throws before reaching the
    wallet, until the next commit. *)
Theorem anchor_once (broadcastAnchor : list byte -> BroadcastResult) (s s' : AnchorStore)
                    (now : Z) (r : option Anchor) (sent : list (list byte)) :
  reachable sign s ->
  count s = leafCount (tree s) ->
  anchor broadcastAnchor s now = (s', r, sent) ->
  match r with
  | None => s' = s
  | Some a =>
      Store.getLatestAnchor s' = Some a
      /\ a_commitmentCount a = count s
      /\ getUnanchoredCount s' = 0
      /\ forall broadcastAnchor' now', anchor broadcastAnchor' s' now' = (s', None, [])
  end.
Proof.
  intros Hreach Hfull. unfold anchor.
  destruct (getUnanchoredCount s =? 0); [intros [= <- <- _]; reflexivity|].
  destruct (buildAnchorPayload s) as [payload|]; [|intros [= <- <- _]; reflexivity].
  cbv zeta. destruct (negb _ || negb _); [intros [= <- <- _]; reflexivity|].
  set (txid := default EmptyString (br_txid (broadcastAnchor payload))).
  destruct (recordAnchor s txid None now) as [s1 a1] eqn:Hrec.
  intros [= <- <- _].
  destruct (recordAnchor_throws_iff sign s txid None now Hreach) as [_ Hsame].
  rewrite Hrec in Hsame. cbn [fst snd] in Hsame.
  destruct a1 as [a|]; [|apply Hsame; reflexivity].
  destruct (recordAnchor_returned s s1 txid None now a Hrec) as (Hcount & Hanchors).
  assert (Hreach1 : reachable sign s1).
  { replace s1 with (fst (recordAnchor s txid None now)) by (rewrite Hrec; reflexivity).
    apply reach_record. exact Hreach. }
  pose proof (reachable_chain sign s1 Hreach1) as Hchain.
  assert (Hlatest : Store.getLatestAnchor s1 = Some a).
  { unfold Store.getLatestAnchor. rewrite (chain_latest _ _ Hchain), Hanchors.
    apply last_snoc. }
  destruct (recordAnchor_db s txid None now) as [_ Hrows]. rewrite Hrec in Hrows.
  cbn [fst] in Hrows.
  assert (Hzero : getUnanchoredCount s1 = 0).
  { unfold getUnanchoredCount. rewrite Hlatest, Hcount, <- Hfull.
    unfold count, getCommitmentCount. rewrite Hrows. lia. }
  split; [exact Hlatest|]. split; [rewrite Hcount, Hfull; reflexivity|].
  split; [exact Hzero|]. intros b' now'. unfold anchor. rewrite Hzero. reflexivity.
Qed.

End AnchorOnce.

Lemma anchor_once_witness :
  exists s' a sent,
    anchor (fun _ => mkBroadcast true (Some Samples.txid_hex) None) Samples.s1 2000
    = (s', Some a, sent)
    /\ getUnanchoredCount s' = 0
    /\ anchor (fun _ => mkBroadcast true (Some "ff") None) s' 2001 = (s', None, []).
Proof.
  assert (Hr : reachable Samples.sample_sign Samples.s1) by (apply reach_commit, reach_fresh).
  assert (E : exists s' a sent,
             anchor (fun _ => mkBroadcast true (Some Samples.txid_hex) None) Samples.s1 2000
             = (s', Some a, sent)).
  { eexists. eexists. eexists. vm_compute. reflexivity. }
  destruct E as (s' & a & sent & E). exists s', a, sent. split; [exact E|].
  pose proof (anchor_once Samples.sample_sign _ _ _ _ _ _ Hr eq_refl E) as (_ & _ & Hzero & Hagain).
  split; [exact Hzero|apply Hagain].
Defined.

Lemma elem_of_getTreeNodes (d : Database) (n : TreeNode) :
  n ∈ getTreeNodes d <-> tree_nodes d !! (n_level n, n_index n) = Some (n_hash n).
Proof.
  unfold getTreeNodes. rewrite list_elem_of_fmap. split.
  - intros ([[l i] h] & -> & Hin). apply elem_of_map_to_list in Hin. exact Hin.
  - intros H. exists ((n_level n, n_index n), n_hash n). split; [destruct n; reflexivity|].
    apply elem_of_map_to_list. exact H.
Qed.

Lemma NoDup_getTreeNodes (d : Database) : NoDup (getTreeNodes d).
Proof.
  unfold getTreeNodes. apply NoDup_fmap_2; [|apply NoDup_map_to_list].
  intros [[l i] h] [[l' i'] h'] [=]. congruence.
Qed.

(** A list that holds exactly the nodes of [t], each once, loads as [t]. *)
Lemma fromNodes_mirror (ns : list TreeNode) (t : MerkleTree) :
  NoDup ns ->
  (forall n, n ∈ ns <-> getLevel t (n_level n) !! n_index n = Some (n_hash n)) ->
  leafCount (fromNodes ns) = Z.of_nat (size (getLevel t 0))
  /\ forall l i, getLevel (fromNodes ns) l !! i = getLevel t l !! i.
Proof.
  intros Hnd Hmem. split.
  - unfold fromNodes, leafCount. fold (setNodes (sortNodes ns)).
    rewrite setNodes_leafCount. cbn [_leafCount]. f_equal.
    rewrite (length_filter_perm _ _ _ (sortNodes_perm ns)).
    rewrite <- length_map_to_list.
    rewrite <- (length_fmap (fun ih : Z * string => mkNode 0 (fst ih) (snd ih))
                  (map_to_list (getLevel t 0))).
    apply Permutation_length. apply NoDup_Permutation.
    + clear Hmem. induction Hnd as [|x l Hx _ IH]; [constructor|]. cbn [List.filter].
      destruct (n_level x =? 0); [|exact IH]. constructor; [|exact IH].
      intros Hin. apply Hx. apply list_elem_of_In in Hin. apply filter_In in Hin as [Hin _].
      apply list_elem_of_In. exact Hin.
    + apply NoDup_fmap_2; [|apply NoDup_map_to_list].
      intros [i h] [i' h'] [=]. congruence.
    + intros n. rewrite list_elem_of_In, filter_In, <- list_elem_of_In, Hmem, list_elem_of_fmap.
      split.
      * intros [Hlook Hl]. apply Z.eqb_eq in Hl. rewrite Hl in Hlook.
        exists (n_index n, n_hash n). split; [destruct n; cbn in *; congruence|].
        apply elem_of_map_to_list. exact Hlook.
      * intros ([i h] & -> & Hin). apply elem_of_map_to_list in Hin. cbn. auto.
  - intros l i. unfold fromNodes. fold (setNodes (sortNodes ns)). set (t0 := mkTree _ _).
    destruct (getLevel t l !! i) as [h|] eqn:Hlook.
    + apply setNodes_same.
      * intros n Hn Hl Hi. rewrite sortNodes_perm in Hn. apply Hmem in Hn.
        rewrite Hl, Hi in Hn. congruence.
      * right. exists (mkNode l i h). split; [|split; reflexivity].
        rewrite sortNodes_perm. apply Hmem. exact Hlook.
    + rewrite setNodes_other.
      * unfold getLevel, t0, Merkle.empty. cbn [nodes].
        destruct (decide (l = 0)) as [->|Hne].
        -- rewrite lookup_singleton_eq. reflexivity.
        -- rewrite lookup_singleton_ne by congruence. reflexivity.
      * intros n Hn [Hl Hi]. rewrite sortNodes_perm in Hn. apply Hmem in Hn.
        rewrite Hl, Hi in Hn. congruence.
Qed.

(** [saveTreeNodes]: every node of the list is stored, the last one of a key wins. *)
Lemma saveTreeNodes_lookup (ns : list TreeNode) (l i : Z) :
  forall d d', saveTreeNodes ns d = Some d' ->
    ((forall n, n ∈ ns -> ~ (n_level n = l /\ n_index n = i)) ->
     tree_nodes d' !! (l, i) = tree_nodes d !! (l, i))
    /\ (forall h, (forall n, n ∈ ns -> n_level n = l -> n_index n = i -> n_hash n = h) ->
          (exists n, n ∈ ns /\ n_level n = l /\ n_index n = i) ->
          tree_nodes d' !! (l, i) = Some h).
Proof.
  unfold saveTreeNodes, transaction.
  induction ns as [|n ns IH]; intros d d' Hrun.
  - cbn in Hrun. injection Hrun as <-. split; [reflexivity|].
    intros h _ (n & Hn & _). inversion Hn.
  - cbn [fmap list_fmap run_all upsertTreeNode] in Hrun.
    destruct (IH _ _ Hrun) as [Hother Hsame]. cbn [tree_nodes] in Hother, Hsame. split.
    + intros Hno. rewrite Hother by (intros n' Hn'; apply Hno; right; exact Hn').
      rewrite lookup_insert_ne; [reflexivity|].
      intros [= Hl Hi]. apply (Hno n); [left|auto].
    + intros h Hall Hex.
      destruct (decide (Exists (fun n' => n_level n' = l /\ n_index n' = i) ns)) as [Hin|Hout];
        rewrite Exists_exists in *.
      * apply Hsame; [intros n' Hn'; apply Hall; right; exact Hn'|exact Hin].
      * rewrite Hother by (intros n' Hn' Hk; apply Hout; eauto).
        destruct Hex as (n' & Hn' & Hl & Hi).
        apply elem_of_cons in Hn' as [->|Hn']; [|exfalso; apply Hout; eauto].
        rewrite <- Hl, <- Hi, lookup_insert_eq. f_equal. apply Hall; [left|exact Hl|exact Hi].
Qed.

Lemma rebuildLoop_keeps (fuel : nat) :
  forall (level c : Z) (t : MerkleTree) (l i : Z),
    is_Some (getLevel t l !! i) -> is_Some (getLevel (fst (rebuildLoop fuel level c t)) l !! i).
Proof.
  induction fuel as [|fuel IH]; intros level c t l i H; [exact H|].
  cbn [rebuildLoop].
  match goal with
  | |- context [match ?e with Some _ => rebuildLoop _ _ _ _ | None => _ end] =>
      destruct e as [h|]
  end; [|exact H].
  apply IH. rewrite getLevel_setNode. destruct (decide _); [eauto|exact H].
Qed.

Lemma addLeaf_keeps (t : MerkleTree) (data : string) (l i : Z) :
  is_Some (getLevel t l !! i) -> is_Some (getLevel (fst (addLeaf t data)) l !! i).
Proof.
  intros H. unfold addLeaf, addLeafHash, rebuildPath.
  match goal with
  | |- context [rebuildLoop ?f ?lv ?c ?t0] =>
      pose proof (rebuildLoop_keeps f lv c t0 l i) as Hk;
      destruct (rebuildLoop f lv c t0) as [t3 ok]
  end.
  cbn [fst] in *. destruct ok; cbn [fst]; apply Hk;
    change (is_Some (getLevel (setNode t 0 (_leafCount t) (hashLeaf data)) l !! i));
    rewrite getLevel_setNode; destruct (decide _); eauto.
Qed.

Section Mirror.
Variable sign : string -> string -> string.

Lemma commit_tree (s : AnchorStore) (input : CommitmentInput) (rnd : string) (now : Z) :
  exists data, tree (fst (commit sign s input rnd now)) = fst (addLeaf (tree s) data).
Proof.
  unfold commit. eexists.
  destruct (addLeaf (tree s) _) as [t' [[hash index]|]] eqn:E; cbn [fst tree].
  - destruct (run_steps _ (db s)) as [d' ok]. cbn [fst tree]. rewrite E. reflexivity.
  - rewrite E. reflexivity.
Qed.

Lemma commit_nodes (s s' : AnchorStore) (input : CommitmentInput) (rnd : string) (now : Z)
                   (r : option Commitment) (l i : Z) :
  commit sign s input rnd now = (s', r) ->
  tree_nodes (db s') !! (l, i)
  = match r with
    | Some _ => match getLevel (tree s') l !! i with
                | Some h => Some h
                | None => tree_nodes (db s) !! (l, i)
                end
    | None => tree_nodes (db s) !! (l, i)
    end.
Proof.
  unfold commit.
  destruct (addLeaf (tree s) _) as [t' [[hash index]|]]; [|intros [= <- <-]; reflexivity].
  unfold commit_writes, transaction. cbn [run_steps run_all]. unfold insertCommitment.
  destruct (find_row _ (commitments (db s))); [intros [= <- <-]; reflexivity|].
  rewrite saveTreeState_run. cbn [commitments tree_nodes tree_state anchors config].
  match goal with
  | |- context [saveTreeNodes ?ns ?d0] =>
      destruct (saveTreeNodes_run ns d0) as (d' & E & _);
      pose proof (saveTreeNodes_lookup ns l i d0 d' E) as [Hother Hsame]
  end.
  rewrite E. intros [= <- <-]. cbn [db tree tree_nodes] in *.
  destruct (getLevel t' l !! i) as [h|] eqn:Hlook.
  - apply Hsame.
    + intros n Hn Hl Hi. apply elem_of_getAllNodes in Hn. rewrite Hl, Hi in Hn. congruence.
    + exists (mkNode l i h). split; [|split; reflexivity]. apply elem_of_getAllNodes. exact Hlook.
  - apply Hother. intros n Hn [Hl Hi]. apply elem_of_getAllNodes in Hn.
    rewrite Hl, Hi in Hn. congruence.
Qed.

(** Every stored node is a node of the tree. *)
Lemma reachable_nodes (s : AnchorStore) :
  reachable sign s ->
  forall l i, is_Some (tree_nodes (db s) !! (l, i)) -> is_Some (getLevel (tree s) l !! i).
Proof.
  induction 1 as [kp|s input rnd now Hreach IH|s txid ts now Hreach IH]; intros l i.
  - cbn. rewrite lookup_empty. intros [? ?]. discriminate.
  - destruct (commit sign s input rnd now) as [s' r] eqn:E.
    destruct (commit_tree s input rnd now) as [data Ht]. rewrite E in Ht. cbn [fst] in *.
    rewrite (commit_nodes s s' input rnd now r l i E).
    assert (Hold : is_Some (tree_nodes (db s) !! (l, i)) -> is_Some (getLevel (tree s') l !! i)).
    { intros H. rewrite Ht. apply addLeaf_keeps, IH, H. }
    destruct r; [|exact Hold]. destruct (getLevel (tree s') l !! i); [eauto|exact Hold].
  - destruct (recordAnchor_db s txid ts now) as [Ht _]. rewrite Ht.
    assert (Hn : tree_nodes (db (fst (recordAnchor s txid ts now))) = tree_nodes (db s)).
    { unfold recordAnchor. destruct (ts_rootHash (getState (tree s))); [|reflexivity].
      rewrite recordAnchor_writes_run. cbv zeta.
      destruct (existsb _ (anchors (db s))); reflexivity. }
    rewrite Hn. apply IH.
Qed.

(** X19. [commit], [saveTreeNodes], [getTreeNodes], [fromNodes]: after a commit
    that returns, the [tree_nodes] table holds exactly the nodes of the
    in-memory tree, and the tree rebuilt from the table has the same
    leaf count, root and proofs. *)
Theorem tree_nodes_mirror_tree (s s' : AnchorStore) (input : CommitmentInput) (rnd : string)
                               (now : Z) (c : Commitment) :
  reachable sign s ->
  commit sign s input rnd now = (s', Some c) ->
  (forall l i, tree_nodes (db s') !! (l, i) = getLevel (tree s') l !! i)
  /\ leafCount (fromNodes (getTreeNodes (db s'))) = leafCount (tree s')
  /\ Merkle.getRoot (fromNodes (getTreeNodes (db s'))) = Merkle.getRoot (tree s')
  /\ (forall i, generateProof (fromNodes (getTreeNodes (db s'))) i = generateProof (tree s') i).
Proof.
  intros Hreach E.
  assert (Hreach' : reachable sign s').
  { replace s' with (fst (commit sign s input rnd now)) by (rewrite E; reflexivity).
    apply reach_commit, Hreach. }
  assert (Hmirror : forall l i, tree_nodes (db s') !! (l, i) = getLevel (tree s') l !! i).
  { intros l i. pose proof (commit_nodes s s' input rnd now (Some c) l i E) as H.
    destruct (getLevel (tree s') l !! i) as [h|] eqn:Hlook; [exact H|].
    destruct (tree_nodes (db s') !! (l, i)) as [h|] eqn:Hdb; [|reflexivity].
    destruct (reachable_nodes s' Hreach' l i) as [h' Hh']; [rewrite Hdb; eauto|congruence]. }
  split; [exact Hmirror|].
  destruct (fromNodes_mirror (getTreeNodes (db s')) (tree s') (NoDup_getTreeNodes _))
    as [Hcount Hlook].
  { intros n. rewrite elem_of_getTreeNodes, Hmirror. reflexivity. }
  destruct (reachable_inv sign s' Hreach') as [hs Hinv].
  assert (Hc : leafCount (fromNodes (getTreeNodes (db s'))) = leafCount (tree s')).
  { rewrite Hcount. unfold leafCount. rewrite (ok_count _ _ (inv_tree _ _ Hinv)). f_equal.
    apply size_zlookup. intros i. apply (ok_nodes _ _ (inv_tree _ _ Hinv) 0%nat).
    pose proof (height_nonneg (Z.of_nat (length hs))). lia. }
  split; [exact Hc|]. apply tree_ext; [exact Hc|exact Hlook].
Qed.

End Mirror.

Lemma tree_nodes_mirror_tree_witness :
  exists s' c,
    commit Samples.sample_sign Samples.s2 Samples.input2 "000000000000000000000002" 3000
    = (s', Some c)
    /\ Merkle.getRoot (fromNodes (getTreeNodes (db s'))) = Merkle.getRoot (tree s').
Proof.
  assert (Hr : reachable Samples.sample_sign Samples.s2)
    by (apply reach_record, reach_commit, reach_fresh).
  assert (E : exists s' c,
             commit Samples.sample_sign Samples.s2 Samples.input2 "000000000000000000000002" 3000
             = (s', Some c)).
  { eexists. eexists. vm_compute. reflexivity. }
  destruct E as (s' & c & E). exists s', c. split; [exact E|].
  apply (tree_nodes_mirror_tree Samples.sample_sign _ _ _ _ _ _ Hr E).
Defined.

Lemma find_map {A B} (f : B -> bool) (g : A -> B) (l : list A) :
  List.find f (map g l) = g <$> List.find (fun a => f (g a)) l.
Proof.
  induction l as [|x l IH]; [reflexivity|]. cbn [map List.find].
  destruct (f (g x)); [reflexivity|exact IH].
Qed.

Lemma find_ext_all {A} (f g : A -> bool) (l : list A) :
  (forall a, f a = g a) -> List.find f l = List.find g l.
Proof.
  intros H. induction l as [|x l IH]; [reflexivity|]. cbn [List.find].
  rewrite H, IH. reflexivity.
Qed.

Lemma chain_with_height (n : Z) (l : list Anchor) (txid : string) (h : Z) :
  anchor_chain n l ->
  anchor_chain n (map (fun a => if String.eqb (a_txid a) txid then with_blockHeight a h else a) l).
Proof.
  set (g := fun a => if String.eqb (a_txid a) txid then with_blockHeight a h else a).
  assert (Hg : forall a, a_txid (g a) = a_txid a /\ a_anchorIndex (g a) = a_anchorIndex a
                         /\ a_previousAnchor (g a) = a_previousAnchor a
                         /\ a_commitmentCount (g a) = a_commitmentCount a).
  { intros a. unfold g. destruct (String.eqb (a_txid a) txid); repeat split. }
  intros [Hnd H]. split.
  - replace (a_txid <$> map g l) with (a_txid <$> l); [exact Hnd|].
    change (map g l) with (g <$> l). rewrite <- list_fmap_compose.
    apply list_fmap_ext. intros i a _. cbn. symmetry. apply Hg.
  - intros i b Hb. change (map g l) with (g <$> l) in Hb. rewrite list_lookup_fmap in Hb.
    destruct (l !! i) as [a|] eqn:Ha; [|discriminate]. cbn in Hb. injection Hb as <-.
    destruct (H i a Ha) as (H1 & H2 & H3 & H4). destruct (Hg a) as (G1 & G2 & G3 & G4).
    rewrite G2, G3, G4. split; [exact H1|]. split.
    { rewrite H2. destruct i as [|j]; [reflexivity|].
      change (map g l) with (g <$> l). rewrite list_lookup_fmap.
      destruct (l !! j) as [a'|]; [|reflexivity]. cbn. f_equal. symmetry. apply Hg. }
    split; [exact H3|]. intros j c Hj Hc.
    change (map g l) with (g <$> l) in Hc. rewrite list_lookup_fmap in Hc.
    destruct (l !! j) as [a'|] eqn:Ha'; [|discriminate]. cbn in Hc. injection Hc as <-.
    destruct (Hg a') as (_ & _ & _ & ->). apply (H4 j a' Hj Ha').
Qed.

Section Refresh.
Variable sign : string -> string -> string.

(** X20. [refreshAnchor], [updateAnchorBlock]: the call never touches the tree
    or the commitments and answers null exactly for an unknown txid;
    when the chain reports the transaction confirmed at a non-zero
    height, the anchor returned and the stored one carry that height,
    no other anchor changes, and every proof bound to that anchor
    reports the height; otherwise the store is unchanged. *)
Theorem refreshAnchor_sets_height (verifyAnchorOnChain : string -> ChainVerification)
                                  (s : AnchorStore) (txid : string) :
  reachable sign s ->
  let s' := fst (refreshAnchor verifyAnchorOnChain s txid) in
  let r := snd (refreshAnchor verifyAnchorOnChain s txid) in
  tree s' = tree s /\ commitments (db s') = commitments (db s)
  /\ (r = None <-> getAnchorByTxid (db s) txid = None)
  /\ match v_blockHeight (verifyAnchorOnChain txid) with
     | Some h =>
         if v_confirmed (verifyAnchorOnChain txid) && negb (h =? 0) then
           forall a, getAnchorByTxid (db s) txid = Some a ->
             r = Some (with_blockHeight a h)
             /\ listAnchors s'
                = map (fun b => if String.eqb (a_txid b) txid then with_blockHeight b h else b)
                      (listAnchors s)
             /\ forall id, prove s' id = proof_at_height txid h <$> prove s id
         else s' = s /\ r = getAnchorByTxid (db s) txid
     | None => s' = s /\ r = getAnchorByTxid (db s) txid
     end.
Proof.
  intros Hreach s' r. subst s' r. unfold refreshAnchor.
  pose proof (reachable_chain sign s Hreach) as Hchain.
  destruct (getAnchorByTxid (db s) txid) as [a|] eqn:Hfound.
  2:{ cbn [fst snd]. split; [reflexivity|]. split; [reflexivity|]. split; [tauto|].
      destruct (v_blockHeight _) as [h|]; [|auto].
      destruct (_ && _); [intros a [=]|auto]. }
  cbv zeta. destruct (v_blockHeight (verifyAnchorOnChain txid)) as [h|].
  2:{ cbn [fst snd]. split; [reflexivity|]. split; [reflexivity|].
      split; [split; discriminate|auto]. }
  destruct (v_confirmed (verifyAnchorOnChain txid) && negb (h =? 0)).
  2:{ cbn [fst snd]. split; [reflexivity|]. split; [reflexivity|].
      split; [split; discriminate|auto]. }
  unfold updateAnchorBlock. cbn [fst snd tree db commitments].
  split; [reflexivity|]. split; [reflexivity|]. split; [split; discriminate|].
  intros a' [= <-]. split; [reflexivity|].
  set (g := fun b => if String.eqb (a_txid b) txid then with_blockHeight b h else b).
  assert (Hlist : forall d', anchors d' = map g (anchors (db s)) -> getAllAnchors d' = map g (getAllAnchors (db s))).
  { intros d' Hd'. rewrite (chain_getAllAnchors _ _ Hchain).
    rewrite <- Hd'. apply (chain_getAllAnchors (leafCount (tree s))). rewrite Hd'.
    apply chain_with_height, Hchain. }
  unfold listAnchors. cbn [db]. split; [apply Hlist; reflexivity|].
  intros id. unfold prove, get. cbn [db tree].
  unfold getCommitment. cbn [commitments].
  destruct (find_row id (commitments (db s))) as [row|]; [|reflexivity].
  cbn [fmap option_fmap option_map].
  destruct (c_treeIndex (rowToCommitment row)) as [idx|]; [|reflexivity].
  destruct (generateProof (tree s) idx) as [mp|]; [|reflexivity].
  match goal with |- context [getAllAnchors ?d] => rewrite (Hlist d eq_refl) end.
  rewrite find_map.
  assert (Hf : forall b, (a_commitmentCount (g b) >? idx) = (a_commitmentCount b >? idx)).
  { intros b. unfold g. destruct (String.eqb (a_txid b) txid); reflexivity. }
  rewrite (find_ext_all _ (fun b => a_commitmentCount b >? idx)) by (intros b; apply Hf).
  destruct (List.find _ (getAllAnchors (db s))) as [b|]; [|reflexivity].
  cbn [fmap option_fmap option_map]. f_equal. unfold proof_at_height, g.
  cbn [cp_commitment cp_merkleProof cp_anchor ar_txid ar_timestamp].
  destruct (String.eqb (a_txid b) txid); reflexivity.
Qed.

End Refresh.

Lemma refreshAnchor_sets_height_witness :
  exists p, prove (fst (refreshAnchor (fun _ => mkVerification true (Some 800000))
                          Samples.s2 "t1")) Samples.id1 = Some p
            /\ ar_blockHeight (cp_anchor p) = Some 800000.
Proof.
  assert (Hr : reachable Samples.sample_sign Samples.s2)
    by (apply reach_record, reach_commit, reach_fresh).
  assert (E : exists p a, prove Samples.s2 Samples.id1 = Some p
                          /\ ar_txid (cp_anchor p) = "t1"
                          /\ getAnchorByTxid (db Samples.s2) "t1" = Some a).
  { eexists. eexists. split; [vm_compute; reflexivity|]. split; vm_compute; reflexivity. }
  destruct E as (p & a & E & Htx & Ha).
  destruct (refreshAnchor_sets_height Samples.sample_sign
              (fun _ => mkVerification true (Some 800000)) Samples.s2 "t1" Hr)
    as (_ & _ & _ & H).
  cbn [v_blockHeight v_confirmed andb negb Z.eqb] in H.
  destruct (H a Ha) as (_ & _ & Hprove).
  exists (proof_at_height "t1" 800000 p). split; [rewrite Hprove, E; reflexivity|].
  unfold proof_at_height. cbn [cp_anchor]. rewrite Htx. reflexivity.
Defined.

(** *** The anchor a proof is bound to *)

Section Binding.
Variable sign : string -> string -> string.

(** X23. [prove], [getAllAnchors]: on a store reached by commits and
    recorded anchors in one process, [prove(id)] returns null exactly
    when no commitment has that id or no row of the anchors table has
    [commitmentCount > treeIndex]; a proof that is returned names, by
    txid, block height and timestamp, a row with
    [commitmentCount > treeIndex] whose [anchorIndex] is the least
    among such rows. *)
Theorem prove_binds_stored_anchor (s : AnchorStore) (id : string) :
  reachable sign s ->
  (prove s id = None <->
     get s id = None
     \/ exists c idx, get s id = Some c /\ c_treeIndex c = Some idx
          /\ forall a, a ∈ anchors (db s) -> a_commitmentCount a <= idx)
  /\ (forall p, prove s id = Some p ->
        exists idx a,
          get s id = Some (cp_commitment p)
          /\ c_treeIndex (cp_commitment p) = Some idx
          /\ a ∈ anchors (db s)
          /\ cp_anchor p = mkAnchorRef (a_txid a) (a_blockHeight a) (a_timestamp a)
          /\ idx < a_commitmentCount a
          /\ forall a', a' ∈ anchors (db s) -> idx < a_commitmentCount a' ->
                        a_anchorIndex a <= a_anchorIndex a').
Proof.
  intros Hreach.
  destruct (prove_binds_first_anchor sign s id Hreach) as [Hnull Hsome]. split.
  - rewrite Hnull. split; (intros [H|(c & idx & Hc & Hidx & Hall)]; [left; exact H|right]);
      exists c, idx; (split; [exact Hc|]); (split; [exact Hidx|]); intros a Ha.
    + apply getAllAnchors_elem in Ha. specialize (Hall a Ha). lia.
    + apply getAllAnchors_elem in Ha. specialize (Hall a Ha). lia.
  - intros p Hp. destruct (Hsome p Hp) as (idx & a & Hget & Hidx & Ha & Href & Hgt & Hfirst).
    exists idx, a. split; [exact Hget|]. split; [exact Hidx|].
    split; [apply getAllAnchors_elem, Ha|]. split; [exact Href|]. split; [lia|].
    intros a' Ha' Hgt'. apply Hfirst; [apply getAllAnchors_elem, Ha'|lia].
Qed.
End Binding.

Lemma prove_binds_stored_anchor_witness :
  exists p idx a,
    prove Samples.s2 Samples.id1 = Some p
    /\ c_treeIndex (cp_commitment p) = Some idx
    /\ a ∈ anchors (db Samples.s2)
    /\ cp_anchor p = mkAnchorRef (a_txid a) (a_blockHeight a) (a_timestamp a)
    /\ idx < a_commitmentCount a.
Proof.
  assert (Hr : reachable Samples.sample_sign Samples.s2) by (apply reach_record, reach_commit, reach_fresh).
  assert (E : exists p, prove Samples.s2 Samples.id1 = Some p) by (eexists; vm_compute; reflexivity).
  destruct E as [p E].
  destruct (prove_binds_stored_anchor Samples.sample_sign Samples.s2 Samples.id1 Hr) as [_ H].
  destruct (H p E) as (idx & a & _ & Hidx & Ha & Href & Hgt & _).
  exists p, idx, a. auto.
Defined.

End StoreProps.

(** ** The handler: invalid requests and responses *)

Module P2pProps.
Import Types P2p P2pSpec P2pFacts.

(** *** Requests that are turned down as invalid *)

Lemma filter_all_true {A} (f : A -> bool) (l : list A) :
  (forall x, x ∈ l -> f x = true) -> List.filter f l = l.
Proof.
  induction l as [|x l IH]; intros H; [reflexivity|]. cbn [List.filter].
  rewrite (H x) by left. f_equal. apply IH. intros y Hy. apply H. right. exact Hy.
Qed.

(** X21. [handleRequest] with a request that [validateRequest] rejects, from a
    peer below its cap: the reply is [INVALID_REQUEST] with the
    validation text, the store is not called, and the request is
    counted against the peer; when it was the last one allowed, any
    request of that peer while these timestamps are less than 60 s old
    is answered [RATE_LIMITED]. *)
Theorem invalid_request_takes_slot (h : ProofHandler) (request : ProofRequest) (peer : string)
                                   (now : Z) (err : string) :
  validateRequest request = Some err ->
  let ts := List.filter (fun t => now - t <? windowMs) (default [] (rateLimits h !! peer)) in
  Z.of_nat (length ts) < rateLimitPerMinute h ->
  let h1 := mkHandler (store h) (maxProofsPerRequest h) (cfg_includePublicKey h)
                      (rateLimitPerMinute h) (<[ peer := (ts ++ [now])%list ]> (rateLimits h)) in
  handleRequest h request peer now
  = (h1, PROOF_ERROR (Some (requestId request)) None INVALID_REQUEST err, [])
  /\ (Z.of_nat (length ts) + 1 = rateLimitPerMinute h ->
      forall (request' : ProofRequest) (now' : Z),
        (forall t, t ∈ (ts ++ [now])%list -> now' - t < windowMs) ->
        handleRequest h1 request' peer now'
        = (h1, PROOF_ERROR (Some (requestId request')) None RATE_LIMITED
                 "Too many requests. Please slow down.", [])).
Proof.
  intros Hval ts Hroom h1. split.
  - unfold handleRequest, checkRateLimit. fold ts.
    destruct (Z.geb_spec (Z.of_nat (length ts)) (rateLimitPerMinute h)); [lia|].
    cbn [negb]. rewrite Hval. reflexivity.
  - intros Hfull request' now' Hrecent.
    pose proof (handleRequest_limited h1 request' peer now') as H. cbv zeta in H.
    assert (E : List.filter (recent now') (default [] (rateLimits h1 !! peer))
                = (ts ++ [now])%list).
    { unfold h1. cbn [rateLimits]. rewrite lookup_insert_eq. cbn [default from_option id].
      apply filter_all_true. intros t Ht. unfold recent. apply Z.ltb_lt, Hrecent, Ht. }
    rewrite E in H. rewrite length_app in H. cbn [length] in H.
    change (rateLimitPerMinute h1) with (rateLimitPerMinute h) in H.
    destruct (Z.geb_spec (Z.of_nat (length ts + 1)) (rateLimitPerMinute h)); [exact H|lia].
Qed.

Lemma invalid_request_takes_slot_witness :
  exists h1,
    handleRequest (newHandler Samples.sample_api None None (Some 1))
                  (mkRequest "req_9" (Some EmptyString) None None) "peer123" 1000
    = (h1, PROOF_ERROR (Some "req_9") None INVALID_REQUEST "Must specify commitmentId or query",
       [])
    /\ handleRequest h1 Samples.sample_request "peer123" 1001
       = (h1, PROOF_ERROR (Some "req_1") None RATE_LIMITED
                "Too many requests. Please slow down.", []).
Proof.
  destruct (invalid_request_takes_slot (newHandler Samples.sample_api None None (Some 1))
              (mkRequest "req_9" (Some EmptyString) None None) "peer123" 1000
              "Must specify commitmentId or query") as [H1 H2].
  - reflexivity.
  - reflexivity.
  - eexists. split; [exact H1|]. apply H2; [reflexivity|].
    intros t Ht. cbn in Ht. apply list_elem_of_singleton in Ht as ->. reflexivity.
Defined.

(** *** What a response holds *)

Lemma proveEach_spec (api : StoreApi) (requireAnch : bool) (cs : list Commitment) :
  forall (acc out : list CommitmentProof) (calls : list StoreCall),
    proveEach api requireAnch cs acc = (Returned out, calls) ->
    exists new : list CommitmentProof,
      out = (acc ++ new)%list
      /\ (length new <= length cs)%nat
      /\ calls = map (fun c => CallProve (c_id c)) cs
      /\ Forall (fun p => (exists c, c ∈ cs /\ api_prove api (c_id c) = Returned (Some p))
                          /\ (requireAnch = true -> has_blockHeight p = true)) new.
Proof.
  induction cs as [|c cs IH]; intros acc out calls Hrun.
  - cbn in Hrun. injection Hrun as <- <-. exists []. rewrite app_nil_r.
    repeat split; constructor.
  - cbn [proveEach] in Hrun. destruct (api_prove api (c_id c)) as [r|msg] eqn:Hp; [|discriminate].
    set (acc' := match r with
                 | Some proof => if requireAnch && negb (has_blockHeight proof) then acc
                                 else (acc ++ [proof])%list
                 | None => acc
                 end) in *.
    destruct (proveEach api requireAnch cs acc') as [res calls'] eqn:Hrest.
    injection Hrun as -> <-.
    destruct (IH acc' out calls' Hrest) as (new & -> & Hlen & -> & Hall).
    assert (Hweak : Forall (fun p => (exists c0, c0 ∈ c :: cs
                                        /\ api_prove api (c_id c0) = Returned (Some p))
                                     /\ (requireAnch = true -> has_blockHeight p = true)) new).
    { eapply Forall_impl; [exact Hall|]. intros p [(c0 & Hc0 & Hp0) Hb].
      split; [exists c0; split; [right; exact Hc0|exact Hp0]|exact Hb]. }
    destruct r as [proof|]; [|exists new; cbn [length map]; repeat split; [lia|exact Hweak]].
    unfold acc'. destruct (requireAnch && negb (has_blockHeight proof)) eqn:Hskip.
    + exists new. cbn [length map]. repeat split; [lia|exact Hweak].
    + exists (proof :: new). rewrite <- app_assoc. cbn [length map app].
      repeat split; [lia|]. constructor; [|exact Hweak]. split.
      * exists c. split; [left|exact Hp].
      * intros ->. cbn in Hskip. destruct (has_blockHeight proof); [reflexivity|discriminate].
Qed.

(** X22. [handleRequest] answering [PROOF_RESPONSE]: the response names the
    request id and [total] is the number of proofs; for a request by
    commitment id the proofs are what [store.prove] gave for that id
    (none or one, [requireAnchored] not being looked at); for a query
    the store is asked with the limit [min(limit ?? 50,
    maxProofsPerRequest)], there are at most as many proofs as
    commitments found, each is the store's proof of one of them, and
    with [requireAnchored] each has a non-zero block height. *)
Theorem response_proofs (h h' : ProofHandler) (request : ProofRequest) (peer : string) (now : Z)
                        (rid : string) (proofs : list CommitmentProof) (pk : option string)
                        (total : Z) (err : option string) (calls : list StoreCall) :
  handleRequest h request peer now = (h', PROOF_RESPONSE rid proofs pk total err, calls) ->
  rid = requestId request /\ total = Z.of_nat (length proofs) /\ err = None
  /\ match commitmentId request with
     | Some cid =>
         if Hex.truthy cid then
           (* a direct request: [options.requireAnchored] is not looked at *)
           (api_prove (store h) cid = Returned None /\ proofs = [])
           \/ (exists p, api_prove (store h) cid = Returned (Some p) /\ proofs = [p])
         else True
     | None => True
     end
  /\ ((commitmentId request = None \/ commitmentId request = Some EmptyString) ->
      exists (q : Query) (cs : list Commitment),
        query request = Some q
        /\ api_query (store h)
             (mkCommitmentQuery (q_type q) (q_subject q) (q_counterparty q) (q_since q)
                (q_until q) (Some (Z.min (default 50 (q_limit q)) (maxProofsPerRequest h))))
           = Returned cs
        /\ (length proofs <= length cs)%nat
        /\ Forall (fun p =>
             (exists c, c ∈ cs /\ api_prove (store h) (c_id c) = Returned (Some p))
             /\ (opt_flag (options request) requireAnchored = true ->
                 has_blockHeight p = true)) proofs).
Proof.
  unfold handleRequest, checkRateLimit.
  destruct (_ >=? rateLimitPerMinute h); cbn [negb]; [discriminate|].
  destruct (validateRequest request) as [e|] eqn:Hval; [discriminate|].
  cbn [store maxProofsPerRequest cfg_includePublicKey].
  destruct (collectProofs _ request) as [[out|msg] calls0] eqn:Hcollect; [|discriminate].
  unfold createProofResponse. cbn [from_option id].
  intros H. injection H as _ <- <- _ <- <- _.
  split; [reflexivity|]. split; [reflexivity|]. split; [reflexivity|].
  unfold collectProofs in Hcollect. cbn [store maxProofsPerRequest] in Hcollect.
  split.
  - destruct (commitmentId request) as [cid|]; [|exact I].
    destruct (Hex.truthy cid); [|exact I].
    destruct (api_prove (store h) cid) as [[p|]|]; injection Hcollect as <- _ || discriminate.
    + right. eauto.
    + left. auto.
  - intros Hnoid.
    assert (Hby : match query request with
                  | Some q =>
                      let cq := mkCommitmentQuery (q_type q) (q_subject q) (q_counterparty q)
                                  (q_since q) (q_until q)
                                  (Some (Z.min (default 50 (q_limit q)) (maxProofsPerRequest h))) in
                      match api_query (store h) cq with
                      | Thrown msg => (Thrown msg, [CallQuery cq])
                      | Returned commitments =>
                          let (res, calls) :=
                            proveEach (store h) (opt_flag (options request) requireAnchored)
                                      commitments [] in
                          (res, CallQuery cq :: calls)
                      end
                  | None => (Returned [], [])
                  end = (Returned out, calls0)).
    { destruct Hnoid as [E|E]; rewrite E in Hcollect; exact Hcollect. }
    clear Hcollect.
    destruct (query request) as [q|] eqn:Hq.
    + cbv zeta in Hby.
      destruct (api_query (store h) _) as [cs|msg] eqn:Hcs; [|discriminate].
      destruct (proveEach (store h) _ cs []) as [res calls1] eqn:Hrun.
      injection Hby as -> _.
      destruct (proveEach_spec _ _ _ _ _ _ Hrun) as (new & -> & Hlen & _ & Hall).
      exists q, cs. split; [reflexivity|]. split; [exact Hcs|]. cbn [app].
      split; [exact Hlen|exact Hall].
    + exfalso. unfold validateRequest in Hval. rewrite Hq in Hval.
      destruct Hnoid as [E|E]; rewrite E in Hval; discriminate.
Qed.

Lemma response_proofs_witness :
  exists h' pk calls,
    handleRequest (newHandler Samples.two_api None None None) Samples.anchored_request "peer123" 1000
    = (h', PROOF_RESPONSE "req_2" [Samples.proof_of "a" (Some 800000)] pk 1 None, calls)
    /\ Forall (fun p => has_blockHeight p = true) [Samples.proof_of "a" (Some 800000)].
Proof.
  assert (E : exists h' pk calls,
             handleRequest (newHandler Samples.two_api None None None) Samples.anchored_request "peer123" 1000
             = (h', PROOF_RESPONSE "req_2" [Samples.proof_of "a" (Some 800000)] pk 1 None, calls)).
  { eexists. eexists. eexists. vm_compute. reflexivity. }
  destruct E as (h' & pk & calls & E). exists h', pk, calls. split; [exact E|].
  destruct (response_proofs _ _ _ _ _ _ _ _ _ _ _ E) as (_ & _ & _ & _ & Hq).
  destruct (Hq (or_introl eq_refl)) as (q & cs & _ & _ & _ & Hall).
  eapply Forall_impl; [exact Hall|]. intros p [_ Hp]. apply Hp. reflexivity.
Defined.

End P2pProps.


(** ** SHA-256 on the test vectors of FIPS 180-4 *)

Example sha256_abc :
  Hex.bytesToHex (Sha256.sha256 (Hex.utf8 "abc"))
  = "ba7816bf8f01cfea414140de5dae2223b00361a396177a9cb410ff61f20015ad".
Proof. vm_compute. reflexivity. Qed.

Example sha256_empty :
  Hex.bytesToHex (Sha256.sha256 [])
  = "e3b0c44298fc1c149afbf4c8996fb92427ae41e4649b934ca495991b7852b855".
Proof. vm_compute. reflexivity. Qed.
